(** * The gRPC-web client transport of connect-es, embedded in Rocq

    The development follows [createGrpcWebTransport] (the Node.js gRPC-web
    transport) and the [ConnectError] class.  Asynchronous iterables are
    finite lists of chunks with an optional terminal failure, promises
    are explicit one-shot cells, and the async generator behind [read()]
    is a small resumable state machine. *)

From Stdlib Require Import List String Ascii ZArith NArith Bool Lia Eqdep_dec.
Import ListNotations.
Open Scope string_scope.

(** ** Status codes *)

(** Modelled from the spec: the status-code table ([status-code.js] is
    imported by the error class but is not part of the sources).  The
    standard gRPC table, values 0 to 16, code 0 being OK. *)
Inductive StatusCode : Type :=
| Ok | Canceled | Unknown | InvalidArgument | DeadlineExceeded | NotFound
| AlreadyExists | PermissionDenied | ResourceExhausted | FailedPrecondition
| Aborted | OutOfRange | Unimplemented | Internal | Unavailable | DataLoss
| Unauthenticated.

Definition StatusCode_value (c : StatusCode) : Z :=
  match c with
  | Ok => 0 | Canceled => 1 | Unknown => 2 | InvalidArgument => 3
  | DeadlineExceeded => 4 | NotFound => 5 | AlreadyExists => 6
  | PermissionDenied => 7 | ResourceExhausted => 8
  | FailedPrecondition => 9 | Aborted => 10 | OutOfRange => 11
  | Unimplemented => 12 | Internal => 13 | Unavailable => 14
  | DataLoss => 15 | Unauthenticated => 16
  end%Z.

(** [StatusCode[code]]: the reverse mapping of a TypeScript numeric enum. *)
Definition StatusCode_name (c : StatusCode) : string :=
  match c with
  | Ok => "Ok" | Canceled => "Canceled" | Unknown => "Unknown"
  | InvalidArgument => "InvalidArgument"
  | DeadlineExceeded => "DeadlineExceeded" | NotFound => "NotFound"
  | AlreadyExists => "AlreadyExists"
  | PermissionDenied => "PermissionDenied"
  | ResourceExhausted => "ResourceExhausted"
  | FailedPrecondition => "FailedPrecondition" | Aborted => "Aborted"
  | OutOfRange => "OutOfRange" | Unimplemented => "Unimplemented"
  | Internal => "Internal" | Unavailable => "Unavailable"
  | DataLoss => "DataLoss" | Unauthenticated => "Unauthenticated"
  end.

Definition all_status_codes : list StatusCode :=
  [Ok; Canceled; Unknown; InvalidArgument; DeadlineExceeded; NotFound;
   AlreadyExists; PermissionDenied; ResourceExhausted; FailedPrecondition;
   Aborted; OutOfRange; Unimplemented; Internal; Unavailable; DataLoss;
   Unauthenticated].

Definition StatusCode_is_ok (c : StatusCode) : bool :=
  match c with Ok => true | _ => false end.

(** [type ErrorCode = Exclude<StatusCode, StatusCode.Ok>]: the subset
    type of the status codes other than [Ok]. *)
Record ErrorCode : Type := mkErrorCode {
  status :> StatusCode;
  status_not_ok : StatusCode_is_ok status = false
}.

(** The members of the enum at type [ErrorCode], written [Code.X] as the
    transport writes them. *)
Module Code.
Definition Canceled := mkErrorCode Canceled eq_refl.
Definition Unknown := mkErrorCode Unknown eq_refl.
Definition InvalidArgument := mkErrorCode InvalidArgument eq_refl.
Definition DeadlineExceeded := mkErrorCode DeadlineExceeded eq_refl.
Definition NotFound := mkErrorCode NotFound eq_refl.
Definition AlreadyExists := mkErrorCode AlreadyExists eq_refl.
Definition PermissionDenied := mkErrorCode PermissionDenied eq_refl.
Definition ResourceExhausted := mkErrorCode ResourceExhausted eq_refl.
Definition FailedPrecondition := mkErrorCode FailedPrecondition eq_refl.
Definition Aborted := mkErrorCode Aborted eq_refl.
Definition OutOfRange := mkErrorCode OutOfRange eq_refl.
Definition Unimplemented := mkErrorCode Unimplemented eq_refl.
Definition Internal := mkErrorCode Internal eq_refl.
Definition Unavailable := mkErrorCode Unavailable eq_refl.
Definition DataLoss := mkErrorCode DataLoss eq_refl.
Definition Unauthenticated := mkErrorCode Unauthenticated eq_refl.
End Code.

(** ** The error class *)

(** [Any] of the protobuf runtime: a type URL and the packed bytes. *)
Record Any : Type := mkAny {
  typeUrl : string;
  value : list Byte.byte
}.

Record ConnectError : Type := mkConnectError {
  message : string;
  code : ErrorCode;
  details : list Any;
  name : string
}.

(** [new ConnectError(message, code = StatusCode.Unknown, details?)].
    An omitted argument is [None].  The transport builds its errors
    with this constructor, naming the codes [Code.X]. *)
Definition ConnectError_new (msg : string) (code : option ErrorCode)
    (details : option (list Any)) : ConnectError :=
  let code := match code with Some c => c | None => Code.Unknown end in
  {| message := "[" ++ StatusCode_name code ++ "] " ++ msg;
     code := code;
     details := match details with Some d => d | None => [] end;
     name := "ConnectError" |}.

(** The constructor as it runs.  The annotation [ErrorCode] of the
    parameter [code] is erased: [this.code = code] stores the number
    the caller passes, whatever it is.  [StatusCode[code]] is the
    reverse mapping of the enum; for a number that is no member it is
    [undefined], which the template literal prints as "undefined". *)
Definition StatusCode_of_value (n : Z) : option StatusCode :=
  find (fun c => Z.eqb (StatusCode_value c) n) all_status_codes.

Definition StatusCode_reverse (n : Z) : string :=
  match StatusCode_of_value n with
  | Some c => StatusCode_name c
  | None => "undefined"
  end.

(** A number that is the value of a status code other than [Ok]. *)
Definition is_error_code (n : Z) : bool :=
  match StatusCode_of_value n with
  | Some c => negb (StatusCode_is_ok c)
  | None => false
  end.

Record ConnectErrorObject : Type := mkConnectErrorObject {
  object_message : string;
  object_code : Z;
  object_details : list Any;
  object_name : string
}.

Definition ConnectError_constructor (msg : string) (code : option Z)
    (details : option (list Any)) : ConnectErrorObject :=
  let code :=
    match code with Some c => c | None => StatusCode_value Unknown end in
  {| object_message := "[" ++ StatusCode_reverse code ++ "] " ++ msg;
     object_code := code;
     object_details := match details with Some d => d | None => [] end;
     object_name := "ConnectError" |}.

(** The object a typed error value is at run time. *)
Definition ConnectError_object (e : ConnectError) : ConnectErrorObject :=
  {| object_message := message e;
     object_code := StatusCode_value (code e);
     object_details := details e;
     object_name := name e |}.

(** ** Outcomes, headers, asynchronous iterables, promises *)

(** An awaited computation either returns or throws. *)
Inductive Outcome (A : Type) : Type :=
| Return (a : A)
| Throw (e : ConnectError).
Arguments Return {A} a.
Arguments Throw {A} e.

Definition bind {A B : Type} (c : Outcome A) (k : A -> Outcome B)
    : Outcome B :=
  match c with
  | Return a => k a
  | Throw e => Throw e
  end.

Notation "x <- c ;; k" := (bind c (fun x => k))
  (at level 61, c at next level, right associativity).
Notation "' pat <- c ;; k" := (bind c (fun x => match x with pat => k end))
  (at level 61, pat pattern, c at next level, right associativity).

Definition bytes : Type := list Byte.byte.

(** A [Headers] object: names are kept in lower case. *)
Definition Headers : Type := list (string * string).

Fixpoint Headers_get (h : Headers) (name : string) : option string :=
  match h with
  | [] => None
  | (k, v) :: rest =>
      if String.eqb k name then Some v else Headers_get rest name
  end.

Definition Headers_has (h : Headers) (name : string) : bool :=
  match Headers_get h name with Some _ => true | None => false end.

(** An asynchronous iterable that is consumed once: the chunks it
    yields, in order, and how it ends ([None]: it returns; [Some e]: it
    throws [e] after the last chunk). *)
Record AsyncIterable (A : Type) : Type := mkIterable {
  chunks : list A;
  failure : option ConnectError
}.
Arguments mkIterable {A} chunks failure.
Arguments chunks {A} a.
Arguments failure {A} a.

Definition createAsyncIterable {A : Type} (items : list A)
    : AsyncIterable A :=
  {| chunks := items; failure := None |}.

(** The transforms handed to [pipe], first to last; each one consumes
    the iterable the one before it produces. *)
Inductive Transforms : Type -> Type -> Type :=
| TDone {A : Type} : Transforms A A
| TThen {A B C : Type} (t : AsyncIterable A -> AsyncIterable B)
    (rest : Transforms B C) : Transforms A C.

Notation "t |> rest" := (TThen t rest)
  (at level 60, right associativity).

(** Modelled from the spec: [pipe] and [pipeTo] of connect-core (not
    part of the sources) chain the transforms over the source in the
    order given; [pipeTo] hands the result to a sink.  The option
    [propagateDownStreamError] only decides whether a failure downstream
    aborts the source, which no result below observes. *)
Record PipeOptions : Type := { propagateDownStreamError : bool }.

Fixpoint chain {A B : Type} (ts : Transforms A B)
    : AsyncIterable A -> AsyncIterable B :=
  match ts in Transforms A B return AsyncIterable A -> AsyncIterable B with
  | TDone => fun source => source
  | TThen t rest => fun source => chain rest (t source)
  end.

Definition pipe {A B : Type} (source : AsyncIterable A)
    (ts : Transforms A B) (opt : option PipeOptions) : AsyncIterable B :=
  chain ts source.

Definition pipeTo {A B R : Type} (source : AsyncIterable A)
    (ts : Transforms A B) (sink : AsyncIterable B -> Outcome R)
    (opt : option PipeOptions) : Outcome R :=
  sink (chain ts source).

(** Modelled from the spec: [defer] ([private/defer.js] is not part of
    the sources) makes a one-shot future, and [universalResponsePromise]
    is a promise; both settle once, and a later [resolve] or [reject]
    changes nothing. *)
Inductive PromiseState (A : Type) : Type :=
| Pending
| Fulfilled (v : A)
| Rejected (e : ConnectError).
Arguments Pending {A}.
Arguments Fulfilled {A} v.
Arguments Rejected {A} e.

Definition resolve {A : Type} (p : PromiseState A) (v : A)
    : PromiseState A :=
  match p with Pending => Fulfilled v | _ => p end.

Definition reject {A : Type} (p : PromiseState A) (e : ConnectError)
    : PromiseState A :=
  match p with Pending => Rejected e | _ => p end.

Definition settle {A : Type} (p : PromiseState A) (r : Outcome A)
    : PromiseState A :=
  match r with Return v => resolve p v | Throw e => reject p e end.

(** [p.then(f)] for a pure [f]: settles as [p] does. *)
Definition then_ {A B : Type} (p : PromiseState A) (f : A -> B)
    : PromiseState B :=
  match p with
  | Pending => Pending
  | Fulfilled v => Fulfilled (f v)
  | Rejected e => Rejected e
  end.

(** ** Data of a call *)

Record ServiceType : Type := { typeName : string }.

(** [{ flags, data }]: an envelope off or onto the wire. *)
Record EnvelopedMessage : Type := mkEnvelope {
  flags : Z;
  data : bytes
}.

(** [(name, compress, decompress)]. *)
Record Compression : Type := mkCompression {
  compression_name : string;
  compress : bytes -> bytes;
  decompress : bytes -> bytes
}.

Record Serialization (T : Type) : Type := mkSerialization {
  serialize : T -> bytes;
  parse : bytes -> Outcome T
}.
Arguments serialize {T} s m.
Arguments parse {T} s b.

(** What the HTTP client is given and what it answers. *)
Record UniversalClientRequest (Signal : Type) : Type := mkClientRequest {
  creq_url : string;
  creq_method : string;
  creq_header : Headers;
  creq_body : AsyncIterable bytes;
  creq_signal : Signal
}.
Arguments mkClientRequest {Signal}.
Arguments creq_url {Signal} u.
Arguments creq_method {Signal} u.
Arguments creq_header {Signal} u.
Arguments creq_body {Signal} u.
Arguments creq_signal {Signal} u.

Record UniversalClientResponse : Type := mkClientResponse {
  cres_status : Z;
  cres_header : Headers;
  cres_body : AsyncIterable bytes;
  cres_trailer : Headers
}.

(** ** The transport *)

Section Transport.

(** [I], [O]: the input and output message classes of the method.
    [PlainI]: the plain structural values the constructor of [I]
    accepts.  The remaining types are opaque to the transport. *)
Context {I O PlainI : Type}.
Context {BinaryOptions JsonOptions AbortSignal NodeHttpOptions : Type}.

(** A [PartialMessage<I>] as the caller passes it: an instance of the
    message class, or any other value. *)
Inductive PartialMessage : Type :=
| Instance (m : I)
| Plain (p : PlainI).

(** [method.I] is the class of the input message; applying it is
    [new method.I(partial)]. *)
Record MethodInfo : Type := mkMethodInfo {
  method_name : string;
  method_I : PlainI -> I
}.

(** What [transformParseEnvelope] yields: [{ end: true, value }] with
    the trailer, or [{ end: false, value }] with a message. *)
Inductive ParsedEnvelope : Type :=
| EnvEnd (value : Headers)
| EnvMessage (value : O).

Record MethodSerializationLookup : Type := mkLookup {
  getI : bool -> Serialization I;
  getO : bool -> Serialization O
}.

Record UnaryRequest : Type := mkUnaryRequest {
  ureq_stream : bool;
  ureq_service : ServiceType;
  ureq_method : MethodInfo;
  ureq_url : string;
  ureq_init : list (string * string);
  ureq_header : Headers;
  ureq_message : I;
  ureq_signal : AbortSignal
}.

Record UnaryResponse : Type := mkUnaryResponse {
  ures_stream : bool;
  ures_service : ServiceType;
  ures_method : MethodInfo;
  ures_header : Headers;
  ures_message : O;
  ures_trailer : Headers
}.

Record StreamingRequest : Type := mkStreamingRequest {
  sreq_stream : bool;
  sreq_service : ServiceType;
  sreq_method : MethodInfo;
  sreq_url : string;
  sreq_init : list (string * string);
  sreq_signal : AbortSignal;
  sreq_header : Headers
}.

(** The result of [next()] on the output iterator. *)
Inductive IteratorResult : Type :=
| IterDone
| IterValue (value : O).

(** [ReadableStreamReadResultLike<O>]. *)
Inductive ReadableStreamReadResultLike : Type :=
| ReadDone
| ReadValue (value : O).

(** Where the async generator behind [outputIt] is suspended. *)
Inductive GeneratorState : Type :=
| GenStart
| GenYielded (trailerReceived : bool)
| GenCompleted.

(** [outputIt]: the generator object, with [foundStatus] it closes
    over and what is left of the iterable it consumes. *)
Record OutputIterator : Type := mkOutputIterator {
  gen_foundStatus : bool;
  gen_state : GeneratorState;
  gen_iterable : AsyncIterable ParsedEnvelope
}.

(** Callbacks waiting on [universalResponsePromise], in the order
    they were registered: the [.then] behind [responseHeader], and a
    [read()] suspended at its [await]. *)
Inductive Reaction : Type :=
| ThenHeader
| ResumeRead.

(** The connection object together with the variables its methods
    close over ([serialization], [writable],
    [universalResponsePromise], [outputIt]).
    [validations] is instrumentation: the number of calls of
    [validateResponseWithCompression] made so far. *)
Record StreamingConn : Type := mkConn {
  conn_req : StreamingRequest;
  conn_serialization : MethodSerializationLookup;
  writable : list PartialMessage;
  writable_closed : bool;
  universalResponsePromise : PromiseState UniversalClientResponse;
  reactions : list Reaction;
  responseHeader : PromiseState Headers;
  responseTrailer : PromiseState Headers;
  closed : bool;
  outputIt : option OutputIterator;
  validations : nat
}.

Definition UnaryFn : Type := UnaryRequest -> Outcome UnaryResponse.
Definition StreamingFn : Type := StreamingRequest -> Outcome StreamingConn.

Record Interceptor : Type := mkInterceptor {
  interceptUnary : UnaryFn -> UnaryFn;
  interceptStreaming : StreamingFn -> StreamingFn
}.

(** [GrpcWebTransportOptions], as the caller writes them. *)
Record GrpcWebTransportOptions : Type := mkOptions {
  node_options : NodeHttpOptions;
  baseUrl : string;
  opt_useBinaryFormat : option bool;
  interceptors : option (list Interceptor);
  jsonOptions : option JsonOptions;
  binaryOptions : option BinaryOptions;
  opt_acceptCompression : option (list Compression);
  opt_sendCompression : option Compression;
  opt_compressMinBytes : option Z;
  opt_readMaxBytes : option Z;
  opt_writeMaxBytes : option Z;
  keepSessionAlive : option bool
}.

(** What [validateNodeTransportOptions] returns ([opt]). *)
Record NodeTransportOptions : Type := mkNodeOptions {
  client : UniversalClientRequest AbortSignal
           -> Outcome UniversalClientResponse;
  useBinaryFormat : bool;
  acceptCompression : list Compression;
  sendCompression : option Compression;
  compressMinBytes : Z;
  readMaxBytes : Z;
  writeMaxBytes : Z
}.

(** The functions the transport imports from connect-core and from
    its own package, none of which is part of the sources.  They are
    parameters of the transport. *)
Record Imports : Type := mkImports {
  validateNodeTransportOptions :
    GrpcWebTransportOptions -> Outcome NodeTransportOptions;
  createMethodSerializationLookup :
    MethodInfo -> option BinaryOptions -> option JsonOptions
    -> MethodSerializationLookup;
  createMethodUrl : string -> ServiceType -> MethodInfo -> string;
  createRequestHeaderWithCompression :
    bool -> option Z -> option Headers -> list Compression
    -> option Compression -> Headers;
  newAbortSignal : AbortSignal;
  transformSerializeEnvelope :
    Serialization I -> Z -> AsyncIterable I
    -> AsyncIterable EnvelopedMessage;
  transformCompressEnvelope :
    option Compression -> Z -> AsyncIterable EnvelopedMessage
    -> AsyncIterable EnvelopedMessage;
  transformJoinEnvelopes :
    AsyncIterable EnvelopedMessage -> AsyncIterable bytes;
  transformSplitEnvelope :
    Z -> AsyncIterable bytes -> AsyncIterable EnvelopedMessage;
  transformDecompressEnvelope :
    option Compression -> Z -> AsyncIterable EnvelopedMessage
    -> AsyncIterable EnvelopedMessage;
  transformParseEnvelope :
    Serialization O -> Z -> Serialization Headers
    -> AsyncIterable EnvelopedMessage -> AsyncIterable ParsedEnvelope;
  trailerFlag : Z;
  createTrailerSerialization : Serialization Headers;
  validateResponseWithCompression :
    bool -> list Compression -> Z -> Headers
    -> Outcome (option Compression * bool);
  validateTrailer : Headers -> Outcome unit
}.

Variable imports : Imports.

(** Modelled from the spec: [transformNormalizeMessage] of
    connect-core (not part of the sources).  [normalize] accepts a
    typed message or a partial structural value and returns the
    canonical typed form. *)
Definition normalize (messageType : PlainI -> I) (m : PartialMessage)
    : I :=
  match m with
  | Instance i => i
  | Plain p => messageType p
  end.

Definition transformNormalizeMessage (messageType : PlainI -> I)
    (iterable : AsyncIterable PartialMessage) : AsyncIterable I :=
  {| chunks := map (normalize messageType) (chunks iterable);
     failure := failure iterable |}.

(** Modelled from the spec: [runUnary] and [runStreaming] of
    connect-core (not part of the sources) wrap the call function in
    the interceptors, the first of the list outermost.  Deadline and
    cancellation are left out. *)
Definition applyInterceptors {F : Type} (wrap : Interceptor -> F -> F)
    (next : F) (interceptors : option (list Interceptor)) : F :=
  fold_right wrap next
    (match interceptors with Some l => l | None => [] end).

Definition runUnary (req : UnaryRequest) (next : UnaryFn)
    (interceptors : option (list Interceptor)) : Outcome UnaryResponse :=
  applyInterceptors interceptUnary next interceptors req.

Definition runStreaming (req : StreamingRequest) (next : StreamingFn)
    (interceptors : option (list Interceptor)) : Outcome StreamingConn :=
  applyInterceptors interceptStreaming next interceptors req.

(** *** [createGrpcWebTransport]: the closure over [options], [opt] *)

Section Closure.

Variable options : GrpcWebTransportOptions.
Variable opt : NodeTransportOptions.

(** The errors the transport constructs. *)
Definition extra_trailer : ConnectError :=
  ConnectError_new "protocol error: received extra trailer"
    (Some Code.InvalidArgument) None.
Definition extra_output_message : ConnectError :=
  ConnectError_new
    "protocol error: received extra output message for unary method"
    (Some Code.InvalidArgument) None.
Definition missing_trailer : ConnectError :=
  ConnectError_new "protocol error: missing trailer"
    (Some Code.InvalidArgument) None.
Definition missing_output_message : ConnectError :=
  ConnectError_new
    "protocol error: missing output message for unary method"
    (Some Code.InvalidArgument) None.
Definition extra_message_after_trailer : ConnectError :=
  ConnectError_new "protocol error: received extra message after trailer"
    (Some Code.InvalidArgument) None.

(** What the generator answers an envelope after the trailer with. *)
Definition after_trailer_error (env : ParsedEnvelope) : ConnectError :=
  match env with
  | EnvEnd _ => extra_trailer
  | EnvMessage _ => extra_message_after_trailer
  end.

(** **** [unary] *)

(** The request object handed to [runUnary]. *)
Definition unary_request (service : ServiceType) (method : MethodInfo)
    (signal : option AbortSignal) (timeoutMs : option Z)
    (header : option Headers) (message : PartialMessage) : UnaryRequest :=
  {| ureq_stream := false;
     ureq_service := service;
     ureq_method := method;
     ureq_url := createMethodUrl imports (baseUrl options) service method;
     ureq_init := [];
     ureq_header :=
       createRequestHeaderWithCompression imports (useBinaryFormat opt)
         timeoutMs header (acceptCompression opt) (sendCompression opt);
     ureq_message :=
       match message with
       | Instance m => m
       | Plain p => method_I method p
       end;
     ureq_signal :=
       match signal with
       | Some s => s
       | None => newAbortSignal imports
       end |}.

(** The request [unary] hands to the HTTP client. *)
Definition unary_client_request
    (serialization : MethodSerializationLookup) (req : UnaryRequest)
    : UniversalClientRequest AbortSignal :=
  {| creq_url := ureq_url req;
     creq_method := "POST";
     creq_header := ureq_header req;
     creq_body :=
       pipe (createAsyncIterable [ureq_message req])
         (transformSerializeEnvelope imports
            (getI serialization (useBinaryFormat opt)) (writeMaxBytes opt)
          |> transformCompressEnvelope imports
               (sendCompression opt) (compressMinBytes opt)
          |> transformJoinEnvelopes imports
          |> TDone)
         (Some {| propagateDownStreamError := true |});
     creq_signal := ureq_signal req |}.

(** The [for await] loop of the sink: [message] and [trailer] are
    the two local variables. *)
Fixpoint unary_sink_loop (envs : list ParsedEnvelope)
    (fail : option ConnectError) (message : option O)
    (trailer : option Headers) : Outcome (option Headers * option O) :=
  match envs with
  | [] =>
      match fail with
      | Some e => Throw e
      | None => Return (trailer, message)
      end
  | EnvEnd v :: rest =>
      match trailer with
      | Some _ => Throw extra_trailer
      | None => unary_sink_loop rest fail message (Some v)
      end
  | EnvMessage v :: rest =>
      match message with
      | Some _ => Throw extra_output_message
      | None => unary_sink_loop rest fail (Some v) trailer
      end
  end.

Definition unary_sink (iterable : AsyncIterable ParsedEnvelope)
    : Outcome (option Headers * option O) :=
  unary_sink_loop (chunks iterable) (failure iterable) None None.

(** The response body as the consumer sees it: split, decompressed
    and parsed. *)
Definition response_transforms
    (serialization : MethodSerializationLookup)
    (compression : option Compression)
    : Transforms bytes ParsedEnvelope :=
  transformSplitEnvelope imports (readMaxBytes opt)
  |> transformDecompressEnvelope imports compression (readMaxBytes opt)
  |> transformParseEnvelope imports
       (getO serialization (useBinaryFormat opt)) (trailerFlag imports)
       (createTrailerSerialization imports)
  |> TDone.

(** The end of the call function, once the sink has returned
    [{ trailer, message }]. *)
Definition unary_finish (service : ServiceType) (method : MethodInfo)
    (universalResponse : UniversalClientResponse)
    (collected : option Headers * option O) : Outcome UnaryResponse :=
  let '(trailer, message) := collected in
  match trailer with
  | None => Throw missing_trailer
  | Some trailer =>
      _ <- validateTrailer imports trailer ;;
      match message with
      | None => Throw missing_output_message
      | Some message =>
          Return {| ures_stream := false;
                    ures_service := service;
                    ures_method := method;
                    ures_header := cres_header universalResponse;
                    ures_message := message;
                    ures_trailer := trailer |}
      end
  end.

(** The call function handed to [runUnary]. *)
Definition unary_next (service : ServiceType) (method : MethodInfo)
    (serialization : MethodSerializationLookup) (req : UnaryRequest)
    : Outcome UnaryResponse :=
  universalResponse <-
    client opt (unary_client_request serialization req) ;;
  '(compression, _) <-
    validateResponseWithCompression imports (useBinaryFormat opt)
      (acceptCompression opt) (cres_status universalResponse)
      (cres_header universalResponse) ;;
  collected <-
    pipeTo (cres_body universalResponse)
      (response_transforms serialization compression) unary_sink
      (Some {| propagateDownStreamError := false |}) ;;
  unary_finish service method universalResponse collected.

Definition unary (service : ServiceType) (method : MethodInfo)
    (signal : option AbortSignal) (timeoutMs : option Z)
    (header : option Headers) (message : PartialMessage)
    : Outcome UnaryResponse :=
  let serialization :=
    createMethodSerializationLookup imports method
      (binaryOptions options) (jsonOptions options) in
  runUnary
    (unary_request service method signal timeoutMs header message)
    (unary_next service method serialization)
    (interceptors options).

(** **** [stream] *)

(** The request object handed to [runStreaming]. *)
Definition stream_request (service : ServiceType) (method : MethodInfo)
    (signal : option AbortSignal) (timeoutMs : option Z)
    (header : option Headers) : StreamingRequest :=
  {| sreq_stream := true;
     sreq_service := service;
     sreq_method := method;
     sreq_url := createMethodUrl imports (baseUrl options) service method;
     sreq_init :=
       [("method", "POST"); ("redirect", "error"); ("mode", "cors")];
     sreq_signal :=
       match signal with
       | Some s => s
       | None => newAbortSignal imports
       end;
     sreq_header :=
       createRequestHeaderWithCompression imports (useBinaryFormat opt)
         timeoutMs header (acceptCompression opt) (sendCompression opt) |}.

(** [writable], read as an iterable: what has been written, ended
    once it is closed. *)
Definition writable_iterable (written : list PartialMessage)
    : AsyncIterable PartialMessage :=
  {| chunks := written; failure := None |}.

(** The request [stream] hands to the HTTP client; its body is fed
    by [writable]. *)
Definition stream_client_request (method : MethodInfo)
    (serialization : MethodSerializationLookup) (req : StreamingRequest)
    (written : list PartialMessage)
    : UniversalClientRequest AbortSignal :=
  {| creq_url := sreq_url req;
     creq_method := "POST";
     creq_header := sreq_header req;
     creq_body :=
       pipe (writable_iterable written)
         (transformNormalizeMessage (method_I method)
          |> transformSerializeEnvelope imports
               (getI serialization (useBinaryFormat opt))
               (writeMaxBytes opt)
          |> transformCompressEnvelope imports
               (sendCompression opt) (compressMinBytes opt)
          |> transformJoinEnvelopes imports
          |> TDone)
         None;
     creq_signal := sreq_signal req |}.

(** One resumption of the generator: what [next()] settles with,
    where the generator is left, and [responseTrailer] afterwards. *)
Record Resumption : Type := mkResumption {
  res_result : Outcome IteratorResult;
  res_state : GeneratorState;
  res_rest : AsyncIterable ParsedEnvelope;
  res_trailer : PromiseState Headers
}.

Definition finished (result : Outcome IteratorResult)
    (fail : option ConnectError) (trailer : PromiseState Headers)
    : Resumption :=
  {| res_result := result;
     res_state := GenCompleted;
     res_rest := {| chunks := []; failure := fail |};
     res_trailer := trailer |}.

(** The [foundStatus] branch: one [next()] on the iterable, which
    must be done. *)
Definition generator_trailers_only
    (iterable : AsyncIterable ParsedEnvelope)
    (responseTrailer : PromiseState Headers) : Resumption :=
  match chunks iterable with
  | _ :: _ =>
      let e := extra_trailer in
      finished (Throw e) (failure iterable) (reject responseTrailer e)
  | [] =>
      match failure iterable with
      | Some e => finished (Throw e) None responseTrailer
      | None => finished (Return IterDone) None responseTrailer
      end
  end.

(** The [for await] loop of the generator and the check after it,
    run until the next [yield], [return] or [throw]. *)
Fixpoint generator_loop (envs : list ParsedEnvelope)
    (fail : option ConnectError) (trailerReceived : bool)
    (responseTrailer : PromiseState Headers) : Resumption :=
  match envs with
  | [] =>
      match fail with
      | Some e => finished (Throw e) None responseTrailer
      | None =>
          if negb trailerReceived then
            let e := missing_trailer in
            finished (Throw e) None (reject responseTrailer e)
          else finished (Return IterDone) None responseTrailer
      end
  | EnvEnd v :: rest =>
      if trailerReceived then
        let e := extra_trailer in
        finished (Throw e) fail (reject responseTrailer e)
      else
        match validateTrailer imports v with
        | Throw e => finished (Throw e) fail responseTrailer
        | Return _ =>
            generator_loop rest fail true (resolve responseTrailer v)
        end
  | EnvMessage v :: rest =>
      if trailerReceived then
        let e := extra_message_after_trailer in
        finished (Throw e) fail (reject responseTrailer e)
      else
        {| res_result := Return (IterValue v);
           res_state := GenYielded trailerReceived;
           res_rest := {| chunks := rest; failure := fail |};
           res_trailer := responseTrailer |}
  end.

(** The generator is inside its loop, no trailer seen. *)
Definition in_loop (it : OutputIterator) : Prop :=
  gen_state it = GenYielded false
  \/ (gen_state it = GenStart /\ gen_foundStatus it = false).

(** [outputIt.next()]. *)
Definition outputIt_next (it : OutputIterator)
    (responseTrailer : PromiseState Headers) : Resumption :=
  match gen_state it with
  | GenCompleted =>
      {| res_result := Return IterDone;
         res_state := GenCompleted;
         res_rest := gen_iterable it;
         res_trailer := responseTrailer |}
  | GenStart =>
      if gen_foundStatus it then
        generator_trailers_only (gen_iterable it) responseTrailer
      else
        generator_loop (chunks (gen_iterable it))
          (failure (gen_iterable it)) false responseTrailer
  | GenYielded trailerReceived =>
      generator_loop (chunks (gen_iterable it))
        (failure (gen_iterable it)) trailerReceived responseTrailer
  end.

(** Field updates of the connection state. *)
Definition set_writable (conn : StreamingConn)
    (w : list PartialMessage) (c : bool) : StreamingConn :=
  mkConn (conn_req conn) (conn_serialization conn) w c
    (universalResponsePromise conn) (reactions conn) (responseHeader conn)
    (responseTrailer conn) (closed conn) (outputIt conn) (validations conn).

Definition set_response (conn : StreamingConn)
    (p : PromiseState UniversalClientResponse) (rs : list Reaction)
    : StreamingConn :=
  mkConn (conn_req conn) (conn_serialization conn) (writable conn)
    (writable_closed conn) p rs
    (responseHeader conn) (responseTrailer conn) (closed conn)
    (outputIt conn) (validations conn).

Definition set_responseHeader (conn : StreamingConn)
    (h : PromiseState Headers) : StreamingConn :=
  mkConn (conn_req conn) (conn_serialization conn) (writable conn)
    (writable_closed conn)
    (universalResponsePromise conn) (reactions conn) h
    (responseTrailer conn) (closed conn) (outputIt conn)
    (validations conn).

Definition set_outputIt (conn : StreamingConn) (it : OutputIterator)
    (t : PromiseState Headers) : StreamingConn :=
  mkConn (conn_req conn) (conn_serialization conn) (writable conn)
    (writable_closed conn)
    (universalResponsePromise conn) (reactions conn)
    (responseHeader conn) t (closed conn) (Some it) (validations conn).

Definition count_validation (conn : StreamingConn) : StreamingConn :=
  mkConn (conn_req conn) (conn_serialization conn) (writable conn)
    (writable_closed conn)
    (universalResponsePromise conn) (reactions conn)
    (responseHeader conn) (responseTrailer conn) (closed conn)
    (outputIt conn) (S (validations conn)).

(** [send] and [close] of the connection. *)
Definition send (conn : StreamingConn) (message : PartialMessage)
    : StreamingConn :=
  set_writable conn (writable conn ++ [message])%list
    (writable_closed conn).

Definition close (conn : StreamingConn) : StreamingConn :=
  set_writable conn (writable conn) true.

(** The tail of [read]: [await outputIt.next()] and the result
    object built from it. *)
Definition read_next (conn : StreamingConn) (it : OutputIterator)
    : StreamingConn * Outcome ReadableStreamReadResultLike :=
  let r := outputIt_next it (responseTrailer conn) in
  (set_outputIt conn
     {| gen_foundStatus := gen_foundStatus it;
        gen_state := res_state r;
        gen_iterable := res_rest r |}
     (res_trailer r),
   match res_result r with
   | Throw e => Throw e
   | Return IterDone => Return ReadDone
   | Return (IterValue v) => Return (ReadValue v)
   end).

(** The head of [read] when [outputIt] is undefined, from the point
    where [await universalResponsePromise] has settled with [uRes]. *)
Definition read_init (conn : StreamingConn)
    (uRes : Outcome UniversalClientResponse)
    : StreamingConn * Outcome ReadableStreamReadResultLike :=
  match uRes with
  | Throw e => (conn, Throw e)
  | Return uRes =>
      let conn := count_validation conn in
      match validateResponseWithCompression imports (useBinaryFormat opt)
              (acceptCompression opt) (cres_status uRes)
              (cres_header uRes) with
      | Throw e => (conn, Throw e)
      | Return (compression, foundStatus) =>
          let it :=
            {| gen_foundStatus := foundStatus;
               gen_state := GenStart;
               gen_iterable :=
                 pipe (cres_body uRes)
                   (response_transforms (conn_serialization conn)
                      compression)
                   None |} in
          read_next (set_outputIt conn it (responseTrailer conn)) it
      end
  end.

(** [read()].  [None]: the call is suspended at
    [await universalResponsePromise], which is still pending. *)
Definition read (conn : StreamingConn)
    : option (StreamingConn * Outcome ReadableStreamReadResultLike) :=
  match outputIt conn with
  | Some it => Some (read_next conn it)
  | None =>
      match universalResponsePromise conn with
      | Pending => None
      | Fulfilled uRes => Some (read_init conn (Return uRes))
      | Rejected e => Some (read_init conn (Throw e))
      end
  end.

(** The call function handed to [runStreaming]: the connection as
    [stream] returns it.  The promise of the HTTP client is pending,
    and the [.then] behind [responseHeader] is registered on it. *)
Definition stream_next (serialization : MethodSerializationLookup)
    (req : StreamingRequest) : Outcome StreamingConn :=
  Return {| conn_req := req;
            conn_serialization := serialization;
            writable := [];
            writable_closed := false;
            universalResponsePromise := Pending;
            reactions := [ThenHeader];
            responseHeader := Pending;
            responseTrailer := Pending;
            closed := false;
            outputIt := None;
            validations := 0 |}.

Definition stream (service : ServiceType) (method : MethodInfo)
    (signal : option AbortSignal) (timeoutMs : option Z)
    (header : option Headers) : Outcome StreamingConn :=
  let serialization :=
    createMethodSerializationLookup imports method
      (binaryOptions options) (jsonOptions options) in
  runStreaming (stream_request service method signal timeoutMs header)
    (stream_next serialization) (interceptors options).

(** **** A connection in time

    What happens to a connection: the promise of the HTTP client
    settles, or the caller calls a method.  The caller is sequential:
    it does not call [read] while a [read] is suspended, and does not
    [send] after [close].  [step], further down, follows a caller
    without that discipline. *)
Inductive Event : Type :=
| HttpSettles (uRes : Outcome UniversalClientResponse)
| CallRead
| CallSend (message : PartialMessage)
| CallClose.

(** The connection and the [read()] promises settled so far, oldest
    first. *)
Record Run : Type := mkRun {
  run_conn : StreamingConn;
  run_reads : list (Outcome ReadableStreamReadResultLike)
}.

Definition has_suspended_read (rs : list Reaction) : bool :=
  existsb (fun r => match r with ResumeRead => true | _ => false end) rs.

(** A callback registered on [universalResponsePromise] runs. *)
Definition run_reaction (s : Run) (r : Reaction) : Run :=
  let conn := run_conn s in
  match r with
  | ThenHeader =>
      mkRun
        (set_responseHeader conn
           (then_ (universalResponsePromise conn) cres_header))
        (run_reads s)
  | ResumeRead =>
      match read conn with
      | Some (conn', result) => mkRun conn' (run_reads s ++ [result])
      | None => s
      end
  end.

Definition exec (s : Run) (ev : Event) : option Run :=
  let conn := run_conn s in
  match ev with
  | HttpSettles uRes =>
      match universalResponsePromise conn with
      | Pending =>
          Some (fold_left run_reaction (reactions conn)
                  (mkRun (set_response conn (settle Pending uRes) [])
                     (run_reads s)))
      | _ => None
      end
  | CallRead =>
      if has_suspended_read (reactions conn) then None
      else
        match read conn with
        | Some (conn', result) =>
            Some (mkRun conn' (run_reads s ++ [result]))
        | None =>
            Some (mkRun
                    (set_response conn (universalResponsePromise conn)
                       (reactions conn ++ [ResumeRead]))
                    (run_reads s))
        end
  | CallSend message =>
      if writable_closed conn then None
      else Some (mkRun (send conn message) (run_reads s))
  | CallClose => Some (mkRun (close conn) (run_reads s))
  end.

Fixpoint execs (s : Run) (evs : list Event) : option Run :=
  match evs with
  | [] => Some s
  | ev :: rest =>
      match exec s ev with
      | Some s' => execs s' rest
      | None => None
      end
  end.

(** What holds of a connection at every moment: while the promise
    of the HTTP client is pending, no [read()] has settled, no iterator
    exists, and the [.then] behind [responseHeader] is first in line;
    once it has settled, [responseHeader] has settled the same way. *)
Definition run_invariant (s : Run) : Prop :=
  let conn := run_conn s in
  validations conn <= List.length (run_reads s)
  /\ match universalResponsePromise conn with
     | Pending =>
         run_reads s = [] /\ outputIt conn = None
         /\ responseHeader conn = Pending
         /\ exists rs, reactions conn = ThenHeader :: rs
                       /\ Forall (fun r => r = ResumeRead) rs
     | Fulfilled uRes =>
         responseHeader conn = Fulfilled (cres_header uRes)
         /\ reactions conn = []
     | Rejected e =>
         responseHeader conn = Rejected e /\ reactions conn = []
         /\ outputIt conn = None
         /\ Forall (fun r => r = Throw e) (run_reads s)
     end.

(** [n] calls of [read()], each awaited before the next; [None] when
    one of them stays suspended. *)
Fixpoint reads (n : nat) (conn : StreamingConn)
    : option (StreamingConn
              * list (Outcome ReadableStreamReadResultLike)) :=
  match n with
  | 0%nat => Some (conn, [])
  | S n' =>
      match read conn with
      | None => None
      | Some (conn', r) =>
          match reads n' conn' with
          | None => None
          | Some (conn'', rs) => Some (conn'', r :: rs)
          end
      end
  end.

(** **** A connection in time, job by job

    [exec] follows a caller that awaits each call.  Without that
    discipline a [read()] that finds no iterator takes two steps: the
    call stops at [await universalResponsePromise], also when that
    promise has settled, and what follows the [await] runs later as a
    job of its own, which does not look at [outputIt] again.  Other
    calls and other jobs may come in between.  A step is an event, or
    the run of the oldest job of the connection; jobs run in the order
    in which they were queued, and with no job queued a job step
    changes nothing.  Only a second settling of the client's promise is
    no step: a promise settles once.

    [send] after [close] is a step like any other [send]: the message
    is handed to [writable.write], and [writable] records it.  What the
    closed writable of connect-core answers is not in the sources.

    The body of the response is a value here: the pipeline of a second
    iterator starts from its first chunk.  What a second iterator over
    the body of a Node.js response is given is not in the sources
    either, and nothing below depends on it. *)
Inductive Step : Type :=
| Happens (ev : Event)
| Job.

(** The run so far and the jobs queued, oldest first. *)
Record Loop : Type := mkLoop {
  loop_run : Run;
  loop_jobs : list Reaction
}.

(** A queued job runs.  A resumed [read()] goes on after its [await]:
    it throws what the client's promise was rejected with, or validates
    the response and assigns [outputIt]. *)
Definition resume (s : Run) (r : Reaction) : Run :=
  let conn := run_conn s in
  match r with
  | ThenHeader =>
      mkRun
        (set_responseHeader conn
           (then_ (universalResponsePromise conn) cres_header))
        (run_reads s)
  | ResumeRead =>
      match universalResponsePromise conn with
      | Pending => s
      | Fulfilled uRes =>
          let r := read_init conn (Return uRes) in
          mkRun (fst r) (run_reads s ++ [snd r])
      | Rejected e =>
          let r := read_init conn (Throw e) in
          mkRun (fst r) (run_reads s ++ [snd r])
      end
  end.

Definition step (l : Loop) (st : Step) : option Loop :=
  let s := loop_run l in
  let conn := run_conn s in
  match st with
  | Happens (HttpSettles uRes) =>
      match universalResponsePromise conn with
      | Pending =>
          Some (mkLoop
                  (mkRun (set_response conn (settle Pending uRes) [])
                     (run_reads s))
                  (loop_jobs l ++ reactions conn))
      | _ => None
      end
  | Happens CallRead =>
      match outputIt conn with
      | Some it =>
          let r := read_next conn it in
          Some (mkLoop (mkRun (fst r) (run_reads s ++ [snd r]))
                  (loop_jobs l))
      | None =>
          match universalResponsePromise conn with
          | Pending =>
              Some (mkLoop
                      (mkRun
                         (set_response conn Pending
                            (reactions conn ++ [ResumeRead]))
                         (run_reads s))
                      (loop_jobs l))
          | _ => Some (mkLoop s (loop_jobs l ++ [ResumeRead]))
          end
      end
  | Happens (CallSend message) =>
      Some (mkLoop (mkRun (send conn message) (run_reads s)) (loop_jobs l))
  | Happens CallClose =>
      Some (mkLoop (mkRun (close conn) (run_reads s)) (loop_jobs l))
  | Job =>
      match loop_jobs l with
      | [] => Some l
      | r :: rest => Some (mkLoop (resume s r) rest)
      end
  end.

Fixpoint steps (l : Loop) (sts : list Step) : option Loop :=
  match sts with
  | [] => Some l
  | st :: rest =>
      match step l st with
      | Some l' => steps l' rest
      | None => None
      end
  end.

(** A call of [read()] that finds [outputIt] undefined. *)
Definition blind (l : Loop) (st : Step) : nat :=
  match st, outputIt (run_conn (loop_run l)) with
  | Happens CallRead, None => 1
  | _, _ => 0
  end.

(** How many calls of [read()] found [outputIt] undefined in the
    steps taken from [l]. *)
Fixpoint blind_reads (l : Loop) (sts : list Step) : nat :=
  match sts with
  | [] => 0
  | st :: rest =>
      match step l st with
      | Some l' => blind l st + blind_reads l' rest
      | None => 0
      end
  end.

Definition suspended_reads (rs : list Reaction) : nat :=
  List.length
    (filter (fun r => match r with ResumeRead => true | _ => false end) rs).

(** The calls of [read()] stopped at their [await]: registered on the
    pending promise, or queued. *)
Definition waiting (l : Loop) : nat :=
  (suspended_reads (reactions (run_conn (loop_run l)))
   + suspended_reads (loop_jobs l))%nat.

(** The steps of a caller that awaits each call: after each event the
    jobs it leaves are run (there are at most two). *)
Definition awaited (evs : list Event) : list Step :=
  flat_map (fun ev => [Happens ev; Job; Job]) evs.

(** What holds of a connection at every step: nothing is validated
    and no iterator exists before the client's promise is fulfilled and
    the [.then] behind [responseHeader] has run, that job being the
    first in line until then; an iterator exists only when a validation
    has returned. *)
Definition loop_invariant (l : Loop) : Prop :=
  let s := loop_run l in
  let conn := run_conn s in
  let all_reads := Forall (fun r => r = ResumeRead) in
  validations conn <= List.length (run_reads s)
  /\ match universalResponsePromise conn with
     | Pending =>
         loop_jobs l = [] /\ run_reads s = [] /\ outputIt conn = None
         /\ validations conn = 0 /\ responseHeader conn = Pending
         /\ exists rs, reactions conn = ThenHeader :: rs /\ all_reads rs
     | Fulfilled uRes =>
         reactions conn = []
         /\ (outputIt conn <> None ->
             1 <= validations conn
             /\ exists compression foundStatus,
                  validateResponseWithCompression imports
                    (useBinaryFormat opt) (acceptCompression opt)
                    (cres_status uRes) (cres_header uRes)
                  = Return (compression, foundStatus))
         /\ ((responseHeader conn = Pending /\ validations conn = 0
              /\ outputIt conn = None /\ run_reads s = []
              /\ exists rs, loop_jobs l = ThenHeader :: rs /\ all_reads rs)
             \/ (responseHeader conn = Fulfilled (cres_header uRes)
                 /\ all_reads (loop_jobs l)))
     | Rejected e =>
         reactions conn = [] /\ outputIt conn = None
         /\ validations conn = 0
         /\ Forall (fun r => r = Throw e) (run_reads s)
         /\ ((responseHeader conn = Pending /\ run_reads s = []
              /\ exists rs, loop_jobs l = ThenHeader :: rs /\ all_reads rs)
             \/ (responseHeader conn = Rejected e
                 /\ all_reads (loop_jobs l)))
     end.

(** **** The pipelines as the specification words them

    Request: source of messages, normalize, serialize, compress, join
    envelopes, bytes.  Response: bytes, split envelopes, decompress,
    parse envelope-or-trailer, consume. *)
Definition spec_request_pipeline (method : MethodInfo)
    (serialization : MethodSerializationLookup)
    (source : AsyncIterable PartialMessage) : AsyncIterable bytes :=
  let normalized := transformNormalizeMessage (method_I method) source in
  let serialized :=
    transformSerializeEnvelope imports
      (getI serialization (useBinaryFormat opt)) (writeMaxBytes opt)
      normalized in
  let compressed :=
    transformCompressEnvelope imports (sendCompression opt)
      (compressMinBytes opt) serialized in
  transformJoinEnvelopes imports compressed.

Definition spec_response_pipeline
    (serialization : MethodSerializationLookup)
    (compression : option Compression) (body : AsyncIterable bytes)
    : AsyncIterable ParsedEnvelope :=
  let envelopes := transformSplitEnvelope imports (readMaxBytes opt) body in
  let decompressed :=
    transformDecompressEnvelope imports compression (readMaxBytes opt)
      envelopes in
  transformParseEnvelope imports
    (getO serialization (useBinaryFormat opt)) (trailerFlag imports)
    (createTrailerSerialization imports) decompressed.

End Closure.

(** The trailer envelopes and the message envelopes of a decoded
    body, in order. *)
Fixpoint trailers_of (envs : list ParsedEnvelope) : list Headers :=
  match envs with
  | [] => []
  | EnvEnd t :: rest => t :: trailers_of rest
  | EnvMessage _ :: rest => trailers_of rest
  end.

Fixpoint messages_of (envs : list ParsedEnvelope) : list O :=
  match envs with
  | [] => []
  | EnvEnd _ :: rest => messages_of rest
  | EnvMessage m :: rest => m :: messages_of rest
  end.

(** The two variables of the unary sink after a prefix that breaks
    no rule, and the room left in such a variable. *)
Definition after_messages (pre : list ParsedEnvelope)
    (message : option O) : option O :=
  match messages_of pre with m :: _ => Some m | [] => message end.

Definition after_trailers (pre : list ParsedEnvelope)
    (trailer : option Headers) : option Headers :=
  match trailers_of pre with t :: _ => Some t | [] => trailer end.

Definition room {A : Type} (held : option A) : nat :=
  match held with Some _ => 0 | None => 1 end.

(** [createGrpcWebTransport]. *)
Record Transport : Type := mkTransport {
  transport_unary :
    ServiceType -> MethodInfo -> option AbortSignal -> option Z
    -> option Headers -> PartialMessage -> Outcome UnaryResponse;
  transport_stream :
    ServiceType -> MethodInfo -> option AbortSignal -> option Z
    -> option Headers -> Outcome StreamingConn
}.

Definition createGrpcWebTransport (options : GrpcWebTransportOptions)
    : Outcome Transport :=
  opt <- validateNodeTransportOptions imports options ;;
  Return {| transport_unary := unary options opt;
            transport_stream := stream options opt |}.

End Transport.

Arguments PartialMessage : clear implicits.
Arguments MethodInfo : clear implicits.
Arguments ParsedEnvelope : clear implicits.
Arguments MethodSerializationLookup : clear implicits.
Arguments UnaryRequest : clear implicits.
Arguments UnaryResponse : clear implicits.
Arguments StreamingRequest : clear implicits.
Arguments StreamingConn : clear implicits.
Arguments Run : clear implicits.
Arguments Event : clear implicits.
Arguments Step : clear implicits.
Arguments Loop : clear implicits.
Arguments Interceptor : clear implicits.
Arguments GrpcWebTransportOptions : clear implicits.
Arguments NodeTransportOptions : clear implicits.
Arguments Imports : clear implicits.
Arguments Transport : clear implicits.
Arguments room {A} held.

(** ** The validators of connect-core *)

Section Validators.

(** Decoders the validators rely on: the name of an HTTP status,
    percent-decoding, and the decoding of [grpc-status-details-bin]. *)
Variable statusText : Z -> string.
Variable decodeURIComponent : string -> string.
Variable decodeDetails : string -> list Any.

Definition digit_of_ascii (c : ascii) : option N :=
  let n := N_of_ascii c in
  if ((48 <=? n) && (n <=? 57))%N then Some (n - 48)%N else None.

Fixpoint parse_decimal_from (s : string) (acc : N) : option N :=
  match s with
  | EmptyString => Some acc
  | String c rest =>
      match digit_of_ascii c with
      | Some d => parse_decimal_from rest (10 * acc + d)%N
      | None => None
      end
  end.

Definition parse_decimal (s : string) : option N :=
  match s with
  | EmptyString => None
  | _ => parse_decimal_from s 0%N
  end.

(** Modelled from the spec: the status table read backwards
    (connect-core is not part of the sources).  Values 1 to 16 name
    their code; any other non-zero value is Unknown; 0 is no error. *)
Definition ErrorCode_of_value (n : N) : option ErrorCode :=
  match n with
  | 0 => None
  | 1 => Some Code.Canceled
  | 2 => Some Code.Unknown
  | 3 => Some Code.InvalidArgument
  | 4 => Some Code.DeadlineExceeded
  | 5 => Some Code.NotFound
  | 6 => Some Code.AlreadyExists
  | 7 => Some Code.PermissionDenied
  | 8 => Some Code.ResourceExhausted
  | 9 => Some Code.FailedPrecondition
  | 10 => Some Code.Aborted
  | 11 => Some Code.OutOfRange
  | 12 => Some Code.Unimplemented
  | 13 => Some Code.Internal
  | 14 => Some Code.Unavailable
  | 15 => Some Code.DataLoss
  | 16 => Some Code.Unauthenticated
  | _ => Some Code.Unknown
  end%N.

(** The [grpc-status] of a header or trailer block, when it is
    present and a decimal number. *)
Definition grpc_status (block : Headers) : option N :=
  match Headers_get block "grpc-status" with
  | Some s => parse_decimal s
  | None => None
  end.

(** The error a non-zero status maps to: its code, the
    percent-decoded [grpc-message], and the details of
    [grpc-status-details-bin]. *)
Definition mapped_error (code : ErrorCode) (block : Headers)
    : ConnectError :=
  ConnectError_new
    (decodeURIComponent
       (match Headers_get block "grpc-message" with
        | Some m => m
        | None => ""
        end))
    (Some code)
    (match Headers_get block "grpc-status-details-bin" with
     | Some d => Some (decodeDetails d)
     | None => None
     end).

Definition missing_status : ConnectError :=
  ConnectError_new "protocol error: missing status"
    (Some Code.InvalidArgument) None.

(** Modelled from the spec: [validateTrailer] of connect-core (not
    part of the sources), "Validate trailer block": [grpc-status] must
    be present and a non-negative integer; a non-zero status produces
    the typed error; a zero status is success, whatever the message.
    The spec does not word the error of a missing status; it is a
    protocol violation on the receive side, hence InvalidArgument. *)
Definition validateTrailer_spec (trailer : Headers) : Outcome unit :=
  match grpc_status trailer with
  | None => Throw missing_status
  | Some n =>
      match ErrorCode_of_value n with
      | None => Return tt
      | Some code => Throw (mapped_error code trailer)
      end
  end.

(** The HTTP to gRPC status table. *)
Definition codeFromHttpStatus (httpStatus : Z) : ErrorCode :=
  if (httpStatus =? 401)%Z then Code.Unauthenticated
  else if (httpStatus =? 403)%Z then Code.PermissionDenied
  else if (httpStatus =? 404)%Z then Code.Unimplemented
  else if ((httpStatus =? 429) || (httpStatus =? 502)
           || (httpStatus =? 503) || (httpStatus =? 504))%Z
       then Code.Unavailable
  else Code.Unknown.

Definition content_type_matches (useBinaryFormat : bool)
    (contentType : option string) : bool :=
  match contentType with
  | None => false
  | Some t =>
      if String.eqb t "application/grpc-web" then true
      else if String.eqb t "application/grpc-web+proto"
           then useBinaryFormat
      else if String.eqb t "application/grpc-web+json"
           then negb useBinaryFormat
      else false
  end.

Fixpoint find_compression (acceptCompression : list Compression)
    (encoding : string) : option Compression :=
  match acceptCompression with
  | [] => None
  | c :: rest =>
      if String.eqb (compression_name c) encoding then Some c
      else find_compression rest encoding
  end.

Definition unexpected_content_type (contentType : option string)
    : ConnectError :=
  ConnectError_new
    ("unexpected response content type "
     ++ match contentType with Some t => t | None => "" end)
    (Some Code.InvalidArgument) None.

Definition unsupported_encoding (encoding : string) : ConnectError :=
  ConnectError_new ("unsupported response encoding " ++ encoding)
    (Some Code.InvalidArgument) None.

(** Step (3) of the validation below. *)
Definition negotiated_compression (acceptCompression : list Compression)
    (headers : Headers) : Outcome (option Compression) :=
  match Headers_get headers "grpc-encoding" with
  | None => Return None
  | Some encoding =>
      if String.eqb encoding "identity" then Return None
      else
        match find_compression acceptCompression encoding with
        | Some c => Return (Some c)
        | None => Throw (unsupported_encoding encoding)
        end
  end.

(** Modelled from the spec: [validateResponseWithCompression] of
    connect-core (not part of the sources), "Validate response":
    (1) the HTTP status must be 200, any other maps through the table;
    (2) the content type must be gRPC-web in the format in use;
    (3) [grpc-encoding], when present, must name an accepted
    compression, which is returned, and [identity] or absence is none;
    (4) when the headers carry [grpc-status], the headers are the
    trailers: the status is read from them, a non-zero one being the
    outcome of the call, and [foundStatus] is true.
    The spec words neither the texts of the errors of (2) and (3) nor
    a single code for them; both are protocol violations on the
    receive side, hence InvalidArgument. *)
Definition validateResponseWithCompression_spec (useBinaryFormat : bool)
    (acceptCompression : list Compression) (httpStatus : Z)
    (headers : Headers) : Outcome (option Compression * bool) :=
  if negb (httpStatus =? 200)%Z then
    Throw (ConnectError_new (statusText httpStatus)
             (Some (codeFromHttpStatus httpStatus)) None)
  else if negb (content_type_matches useBinaryFormat
                  (Headers_get headers "content-type")) then
    Throw (unexpected_content_type (Headers_get headers "content-type"))
  else
    compression <- negotiated_compression acceptCompression headers ;;
    if Headers_has headers "grpc-status" then
      _ <- validateTrailer_spec headers ;;
      Return (compression, true)
    else Return (compression, false).

End Validators.

(** ** The envelope, compression and trailer codecs of connect-core *)

Section Wire.

Definition compressedFlag : Z := 1.
Definition trailerFlag_spec : Z := 128.

(** A transform that maps each chunk; the first chunk it fails on
    ends the output with that failure. *)
Fixpoint transform_chunks {A B : Type} (f : A -> Outcome B)
    (l : list A) (fail : option ConnectError) : AsyncIterable B :=
  match l with
  | [] => {| chunks := []; failure := fail |}
  | a :: rest =>
      match f a with
      | Throw e => {| chunks := []; failure := Some e |}
      | Return b =>
          let r := transform_chunks f rest fail in
          {| chunks := b :: chunks r; failure := failure r |}
      end
  end.

Definition transform {A B : Type} (f : A -> Outcome B)
    (iterable : AsyncIterable A) : AsyncIterable B :=
  transform_chunks f (chunks iterable) (failure iterable).

Definition size (b : bytes) : Z := Z.of_nat (List.length b).

Definition too_large (what : string) : ConnectError :=
  ConnectError_new (what ++ " is larger than the configured maximum")
    (Some Code.ResourceExhausted) None.

(** Modelled from the spec: [transformSerializeEnvelope] of
    connect-core (not part of the sources): the typed message becomes
    the payload of an envelope with no flag set, which must not exceed
    [writeMaxBytes]. *)
Definition transformSerializeEnvelope_spec {T : Type}
    (serialization : Serialization T) (writeMaxBytes : Z)
    : AsyncIterable T -> AsyncIterable EnvelopedMessage :=
  transform (fun m =>
    let payload := serialize serialization m in
    if (size payload >? writeMaxBytes)%Z
    then Throw (too_large "message to send")
    else Return {| flags := 0; data := payload |}).

(** Modelled from the spec: [transformCompressEnvelope] (not part of
    the sources): with a descriptor configured and a payload of at
    least [compressMinBytes], the payload is compressed and bit 0 set;
    otherwise bit 0 is cleared. *)
Definition transformCompressEnvelope_spec
    (sendCompression : option Compression) (compressMinBytes : Z)
    : AsyncIterable EnvelopedMessage -> AsyncIterable EnvelopedMessage :=
  transform (fun env =>
    match sendCompression with
    | Some c =>
        if (size (data env) >=? compressMinBytes)%Z
        then Return {| flags := Z.setbit (flags env) 0;
                       data := compress c (data env) |}
        else Return {| flags := Z.clearbit (flags env) 0;
                       data := data env |}
    | None =>
        Return {| flags := Z.clearbit (flags env) 0; data := data env |}
    end).

Definition byte_of_Z (z : Z) : Byte.byte :=
  match Byte.of_N (Z.to_N (z mod 256)) with
  | Some b => b
  | None => Byte.x00
  end.

Definition Z_of_byte (b : Byte.byte) : Z := Z.of_N (Byte.to_N b).

(** The five-byte prefix: the flags, then the length of the payload
    in four bytes, big-endian. *)
Definition envelope_prefix (env : EnvelopedMessage) : bytes :=
  let n := size (data env) in
  [byte_of_Z (flags env);
   byte_of_Z (Z.shiftr n 24); byte_of_Z (Z.shiftr n 16);
   byte_of_Z (Z.shiftr n 8); byte_of_Z n].

(** Modelled from the spec: [transformJoinEnvelopes] (not part of the
    sources): one buffer per envelope, prefix then payload. *)
Definition transformJoinEnvelopes_spec
    : AsyncIterable EnvelopedMessage -> AsyncIterable bytes :=
  transform (fun env => Return (envelope_prefix env ++ data env)%list).

Definition premature_end : ConnectError :=
  ConnectError_new "protocol error: premature end of stream"
    (Some Code.InvalidArgument) None.

(** Envelopes cut off the rolling buffer.  [fuel] bounds the number
    of envelopes by the bytes buffered. *)
Fixpoint split_buffer (fuel : nat) (readMaxBytes : Z) (buffer : bytes)
    (fail : option ConnectError) : AsyncIterable EnvelopedMessage :=
  match fuel with
  | 0%nat => {| chunks := []; failure := fail |}
  | S fuel' =>
      match buffer with
      | [] => {| chunks := []; failure := fail |}
      | f :: b1 :: b2 :: b3 :: b4 :: payload =>
          let n := (Z.shiftl (Z_of_byte b1) 24 + Z.shiftl (Z_of_byte b2) 16
                    + Z.shiftl (Z_of_byte b3) 8 + Z_of_byte b4)%Z in
          if (n >? readMaxBytes)%Z then
            {| chunks := []; failure := Some (too_large "message") |}
          else if (size payload <? n)%Z then
            {| chunks := [];
               failure := match fail with
                          | Some e => Some e
                          | None => Some premature_end
                          end |}
          else
            let r := split_buffer fuel' readMaxBytes
                       (skipn (Z.to_nat n) payload) fail in
            {| chunks :=
                 {| flags := Z_of_byte f;
                    data := firstn (Z.to_nat n) payload |} :: chunks r;
               failure := failure r |}
      | _ =>
          {| chunks := [];
             failure := match fail with
                        | Some e => Some e
                        | None => Some premature_end
                        end |}
      end
  end.

(** Modelled from the spec: [transformSplitEnvelope] (not part of the
    sources): envelopes are cut off the bytes received, whatever the
    chunking; a payload longer than [readMaxBytes] fails; a partial
    envelope at the end of the stream is a protocol error. *)
Definition transformSplitEnvelope_spec (readMaxBytes : Z)
    (iterable : AsyncIterable bytes) : AsyncIterable EnvelopedMessage :=
  let buffer := List.concat (chunks iterable) in
  split_buffer (S (List.length buffer)) readMaxBytes buffer (failure iterable).

(** Modelled from the spec: [transformDecompressEnvelope] (not part of
    the sources): an envelope with bit 0 set needs the descriptor
    matched from [grpc-encoding]; its payload is decompressed and the
    bit cleared; a result longer than [readMaxBytes] fails. *)
Definition transformDecompressEnvelope_spec
    (compression : option Compression) (readMaxBytes : Z)
    : AsyncIterable EnvelopedMessage -> AsyncIterable EnvelopedMessage :=
  transform (fun env =>
    if Z.testbit (flags env) 0 then
      match compression with
      | None =>
          Throw (ConnectError_new
                   "received compressed envelope, but no compression"
                   (Some Code.InvalidArgument) None)
      | Some c =>
          let payload := decompress c (data env) in
          if (size payload >? readMaxBytes)%Z
          then Throw (too_large "message")
          else Return {| flags := Z.clearbit (flags env) 0;
                         data := payload |}
      end
    else Return env).

(** The trailer block on the wire: one line [name: value] per entry,
    names in lower case, lines ended by CRLF. *)
Definition lower (c : ascii) : ascii :=
  let n := nat_of_ascii c in
  if ((65 <=? n) && (n <=? 90))%nat then ascii_of_nat (n + 32) else c.

Fixpoint lowercase (s : string) : string :=
  match s with
  | EmptyString => EmptyString
  | String c rest => String (lower c) (lowercase rest)
  end.

Definition CR : ascii := "013"%char.
Definition LF : ascii := "010"%char.

Fixpoint serialize_trailer_lines (trailer : Headers) : string :=
  match trailer with
  | [] => ""
  | (k, v) :: rest =>
      lowercase k ++ ": " ++ v ++ String CR (String LF "")
      ++ serialize_trailer_lines rest
  end.

Fixpoint lines_of (s : string) (line : string) : list string :=
  match s with
  | EmptyString => [line]
  | String c rest =>
      if Ascii.eqb c LF then line :: lines_of rest ""
      else lines_of rest (line ++ String c "")
  end.

Fixpoint strip_cr (s : string) : string :=
  match s with
  | EmptyString => EmptyString
  | String c EmptyString => if Ascii.eqb c CR then "" else s
  | String c rest => String c (strip_cr rest)
  end.

Fixpoint split_colon (s : string) (before : string)
    : option (string * string) :=
  match s with
  | EmptyString => None
  | String c rest =>
      if Ascii.eqb c ":"%char then Some (before, rest)
      else split_colon rest (before ++ String c "")
  end.

Fixpoint trim_left (s : string) : string :=
  match s with
  | String c rest => if Ascii.eqb c " "%char then trim_left rest else s
  | EmptyString => s
  end.

Fixpoint parse_trailer_lines (lines : list string) : Headers :=
  match lines with
  | [] => []
  | line :: rest =>
      match split_colon (strip_cr line) "" with
      | Some (k, v) =>
          (lowercase k, trim_left v) :: parse_trailer_lines rest
      | None => parse_trailer_lines rest
      end
  end.

(** Modelled from the spec: [createTrailerSerialization] (not part of
    the sources), the trailer codec: [serialize] writes the header
    block, [parse] reads it back, tolerant of CRLF or LF line ends and
    keeping duplicate names in order. *)
Definition createTrailerSerialization_spec : Serialization Headers :=
  {| serialize := fun trailer =>
       list_byte_of_string (serialize_trailer_lines trailer);
     parse := fun b =>
       Return (parse_trailer_lines
                 (lines_of (string_of_list_byte b) "")) |}.

Definition bad_flags : ConnectError :=
  ConnectError_new "protocol error: unknown envelope flags"
    (Some Code.InvalidArgument) None.

(** Modelled from the spec: [transformParseEnvelope] (not part of the
    sources): an envelope with the trailer flag is parsed as the
    trailer block, any other as a message; a flag bit other than the
    two defined ones is a protocol error. *)
Definition transformParseEnvelope_spec {T : Type}
    (serialization : Serialization T) (endStreamFlag : Z)
    (endSerialization : Serialization Headers)
    : AsyncIterable EnvelopedMessage -> AsyncIterable (ParsedEnvelope T) :=
  transform (fun env =>
    if negb (Z.land (flags env)
               (Z.lnot (Z.lor compressedFlag endStreamFlag)) =? 0)%Z
    then Throw bad_flags
    else if negb (Z.land (flags env) endStreamFlag =? 0)%Z then
      trailer <- parse endSerialization (data env) ;;
      Return (EnvEnd trailer)
    else
      m <- parse serialization (data env) ;;
      Return (EnvMessage m)).

End Wire.

(** ** A worked instance: one method, a one-byte codec, a scripted server *)

Module Fixture.

Record ReplyMsg : Type := mkReply { x : N }.

(** A partial [ReplyMsg]: the field may be missing. *)
Definition PartialReply : Type := option N.

Definition ReplyMsg_new (p : PartialReply) : ReplyMsg :=
  {| x := match p with Some n => n | None => 0%N end |}.

Definition codec : Serialization ReplyMsg :=
  {| serialize := fun m => [byte_of_Z (Z.of_N (x m))];
     parse := fun b =>
       match b with
       | [c] => Return {| x := Byte.to_N c |}
       | _ => Throw (ConnectError_new "cannot decode message"
                       (Some Code.Internal) None)
       end |}.

Definition HttpClient : Type :=
  UniversalClientRequest unit -> Outcome UniversalClientResponse.

Definition Method : Type := MethodInfo ReplyMsg PartialReply.
Definition Options : Type :=
  GrpcWebTransportOptions ReplyMsg ReplyMsg PartialReply unit unit unit
    HttpClient.
Definition Opt : Type := NodeTransportOptions unit.
Definition Conn : Type := StreamingConn ReplyMsg ReplyMsg PartialReply unit.

Definition service : ServiceType := {| typeName := "demo.v1.Echo" |}.
Definition method : Method :=
  {| method_name := "Say"; method_I := ReplyMsg_new |}.

Definition default {A : Type} (o : option A) (d : A) : A :=
  match o with Some a => a | None => d end.

(** The imports of the instance: the validators and codecs modelled
    above; every option set is accepted and completed with defaults;
    the request headers are the content type and the caller's. *)
Definition imports
    : Imports ReplyMsg ReplyMsg PartialReply unit unit unit HttpClient :=
  {| validateNodeTransportOptions := fun options : Options =>
       Return {| client := node_options options;
                 useBinaryFormat := default (opt_useBinaryFormat options) true;
                 acceptCompression :=
                   default (opt_acceptCompression options) [];
                 sendCompression := opt_sendCompression options;
                 compressMinBytes :=
                   default (opt_compressMinBytes options) 1024%Z;
                 readMaxBytes :=
                   default (opt_readMaxBytes options) 4294967295%Z;
                 writeMaxBytes :=
                   default (opt_writeMaxBytes options) 4294967295%Z |};
     createMethodSerializationLookup := fun _ _ _ =>
       {| getI := fun _ => codec; getO := fun _ => codec |};
     createMethodUrl := fun base s (m : Method) =>
       base ++ "/" ++ typeName s ++ "/" ++ method_name m;
     createRequestHeaderWithCompression := fun binary _ header _ _ =>
       (("content-type",
         if binary then "application/grpc-web+proto"
         else "application/grpc-web+json") :: default header [])%list;
     newAbortSignal := tt;
     transformSerializeEnvelope := transformSerializeEnvelope_spec;
     transformCompressEnvelope := transformCompressEnvelope_spec;
     transformJoinEnvelopes := transformJoinEnvelopes_spec;
     transformSplitEnvelope := transformSplitEnvelope_spec;
     transformDecompressEnvelope := transformDecompressEnvelope_spec;
     transformParseEnvelope := transformParseEnvelope_spec;
     trailerFlag := trailerFlag_spec;
     createTrailerSerialization := createTrailerSerialization_spec;
     validateResponseWithCompression :=
       validateResponseWithCompression_spec
         (fun _ => "HTTP error") (fun s => s) (fun _ => []);
     validateTrailer :=
       validateTrailer_spec (fun s => s) (fun _ => []) |}.

(** A response with the given head whose body is the envelopes, one
    chunk each. *)
Definition response (httpStatus : Z) (headers : Headers)
    (envs : list EnvelopedMessage) : UniversalClientResponse :=
  {| cres_status := httpStatus;
     cres_header := headers;
     cres_body := transformJoinEnvelopes_spec (createAsyncIterable envs);
     cres_trailer := [] |}.

Definition grpc_web : Headers :=
  [("content-type", "application/grpc-web+proto")].

Definition message_envelope (n : N) : EnvelopedMessage :=
  {| flags := 0; data := serialize codec {| x := n |} |}.

Definition trailer_envelope (trailer : Headers) : EnvelopedMessage :=
  {| flags := trailerFlag_spec;
     data := serialize createTrailerSerialization_spec trailer |}.

(** Options with a server that always answers [res]. *)
Definition options (res : Outcome UniversalClientResponse) : Options :=
  {| node_options := fun _ => res;
     baseUrl := "https://example.com/my-api";
     opt_useBinaryFormat := None;
     interceptors := None;
     jsonOptions := None;
     binaryOptions := None;
     opt_acceptCompression := None;
     opt_sendCompression := None;
     opt_compressMinBytes := None;
     opt_readMaxBytes := None;
     opt_writeMaxBytes := None;
     keepSessionAlive := None |}.

Definition opt (res : Outcome UniversalClientResponse) : Opt :=
  {| client := fun _ => res;
     useBinaryFormat := true;
     acceptCompression := [];
     sendCompression := None;
     compressMinBytes := 1024;
     readMaxBytes := 4294967295;
     writeMaxBytes := 4294967295 |}.

(** A unary call of the method against that server. *)
Definition call (res : Outcome UniversalClientResponse)
    (m : PartialMessage ReplyMsg PartialReply)
    : Outcome (UnaryResponse ReplyMsg ReplyMsg PartialReply) :=
  unary imports (options res) (opt res) service method None None None m.

(** The connection a streaming call of the method returns, and the
    same connection once the server has answered [res]. *)
Definition fresh (res : Outcome UniversalClientResponse) : Conn :=
  {| conn_req :=
       stream_request imports (options res) (opt res) service method
         None None None;
     conn_serialization :=
       createMethodSerializationLookup imports method None None;
     writable := [];
     writable_closed := false;
     universalResponsePromise := Pending;
     reactions := [ThenHeader];
     responseHeader := Pending;
     responseTrailer := Pending;
     closed := false;
     outputIt := None;
     validations := 0 |}.

Definition answered (res : UniversalClientResponse) : Conn :=
  set_responseHeader
    (set_response (fresh (Return res)) (Fulfilled res) [])
    (Fulfilled (cres_header res)).

(** The events of a streaming call against that server: the calls
    made before the answer, the answer, the calls made after it. *)
Definition session (res : Outcome UniversalClientResponse)
    (before after : list (Event ReplyMsg PartialReply))
    : option (Run ReplyMsg ReplyMsg PartialReply unit) :=
  execs imports (opt res) (mkRun (fresh res) [])
    (before ++ HttpSettles res :: after).

(** What a session shows: the reads settled, the trailer promise,
    the header promise, the validations made. *)
Definition observed (s : option (Run ReplyMsg ReplyMsg PartialReply unit))
    : option (list (Outcome (@ReadableStreamReadResultLike ReplyMsg))
              * PromiseState Headers * PromiseState Headers * nat) :=
  match s with
  | Some r =>
      Some (run_reads r, responseTrailer (run_conn r),
            responseHeader (run_conn r), validations (run_conn r))
  | None => None
  end.

Definition ok_trailer : Headers := [("grpc-status", "0")].

Definition resource_exhausted : Headers :=
  [("grpc-status", "8"); ("grpc-message", "rate limited")].

(** A trailers-only head: the status travels in the headers. *)
Definition trailers_only (grpcStatus : string) : Headers :=
  [("content-type", "application/grpc-web+proto");
   ("grpc-status", grpcStatus)].

(** The error the status 8 of [resource_exhausted] maps to. *)
Definition rate_limited : ConnectError :=
  mapped_error (fun s => s) (fun _ => []) Code.ResourceExhausted
    resource_exhausted.

Definition lookup : MethodSerializationLookup ReplyMsg ReplyMsg :=
  createMethodSerializationLookup imports method None None.

(** The run a session ends in. *)
Definition final (res : Outcome UniversalClientResponse)
    (before after : list (Event ReplyMsg PartialReply))
    : Run ReplyMsg ReplyMsg PartialReply unit :=
  match session res before after with
  | Some s => s
  | None => mkRun (fresh res) []
  end.

Definition two_trailers : UniversalClientResponse :=
  response 200 grpc_web
    [message_envelope 7; trailer_envelope ok_trailer;
     trailer_envelope ok_trailer].

Definition failing_stream : UniversalClientResponse :=
  response 200 grpc_web
    [message_envelope 7; trailer_envelope resource_exhausted].

Definition empty_ok : UniversalClientResponse :=
  response 200 (trailers_only "0") [].

Definition empty_not_found : UniversalClientResponse :=
  response 200 (trailers_only "5") [].

Definition server_error : UniversalClientResponse :=
  response 500 grpc_web [].

Definition http_error : ConnectError :=
  ConnectError_new "HTTP error" (Some Code.Unknown) None.

Definition message_after_trailer : UniversalClientResponse :=
  response 200 grpc_web
    [message_envelope 7; trailer_envelope ok_trailer; message_envelope 8].

Definition no_trailer : UniversalClientResponse :=
  response 200 grpc_web [message_envelope 7].

End Fixture.

(** ** More vocabulary for the streaming connection *)


(** A settled [read()] that carries a message. *)
Definition is_value {O : Type}
    (r : Outcome (@ReadableStreamReadResultLike O)) : bool :=
  match r with
  | Return (ReadValue _) => true
  | _ => false
  end.

(** A resumption that ends the generator: it has completed, by
    [return] or by [throw], and hands out no message. *)
Definition terminal {O : Type} (r : @Resumption O) : Prop :=
  res_state r = GenCompleted
  /\ forall v, res_result r <> Return (IterValue v).

(** The messages of a decoded body that no trailer envelope
    precedes. *)
Fixpoint leading_messages {O : Type} (envs : list (ParsedEnvelope O))
    : list O :=
  match envs with
  | EnvMessage m :: rest => m :: leading_messages rest
  | _ => []
  end.

(** The ways [responseTrailer] is ever found: pending; fulfilled
    with a trailer that passed the trailer validation; or rejected with
    one of two protocol errors. *)
Definition lawful_trailer {I O PlainI : Type}
    {BinaryOptions JsonOptions AbortSignal NodeHttpOptions : Type}
    (imports : Imports I O PlainI BinaryOptions JsonOptions AbortSignal
                 NodeHttpOptions)
    (rt : PromiseState Headers) : Prop :=
  rt = Pending
  \/ (exists t, rt = Fulfilled t /\ validateTrailer imports t = Return tt)
  \/ rt = Rejected extra_trailer
  \/ rt = Rejected missing_trailer.

(** The generator is never left suspended at a [yield] with the
    trailer received: it yields only before the trailer. *)
Definition yields_before_trailer {I O PlainI AbortSignal : Type}
    (conn : StreamingConn I O PlainI AbortSignal) : Prop :=
  forall it, outputIt conn = Some it -> gen_state it <> GenYielded true.

(** The result object [read()] builds from the result of [next()]. *)
Definition read_outcome {O : Type} (r : Outcome (@IteratorResult O))
    : Outcome (@ReadableStreamReadResultLike O) :=
  match r with
  | Throw e => Throw e
  | Return IterDone => Return ReadDone
  | Return (IterValue v) => Return (ReadValue v)
  end.


(** ** The code size report of the benchmark package

    [report.mjs] bundles two entry points with esbuild, once plain and
    once minified, compresses the minified bundle, and prints a table.
    esbuild, zlib and [Intl.NumberFormat] are parameters. *)

Module Bench.

(** A JavaScript [Error]. *)
Record JsError : Type := mkJsError { error_message : string }.

(** How a call completes: with a value, or with a thrown error. *)
Inductive Completion (A : Type) : Type :=
| Normal (a : A)
| Abrupt (e : JsError).
Arguments Normal {A} a.
Arguments Abrupt {A} e.

(** The options [build] passes to [buildSync]. *)
Record BuildOptions : Type := mkBuildOptions {
  entryPoints : list string;
  bundle : bool;
  format : string;
  treeShaking : bool;
  minify : bool;
  write : bool
}.

Record OutputFile : Type := mkOutputFile {
  path : string;
  contents : bytes
}.

Record BuildResult : Type := mkBuildResult {
  outputFiles : list OutputFile
}.

(** What [gather] returns. *)
Record Sizes : Type := mkSizes {
  entryPoint : string;
  size : string;
  minified : string;
  compressed : string
}.

Section Report.

(** [buildSync] of esbuild, [brotliCompressSync] of zlib, and
    [new Intl.NumberFormat().format]. *)
Variable buildSync : BuildOptions -> Completion BuildResult.
Variable brotliCompressSync : bytes -> bytes.
Variable numberFormat : nat -> string.

Definition byteLength (b : bytes) : nat := List.length b.

(** [build(entryPoint, minify, format)]. *)
Definition build (entryPoint : string) (minify : bool) (format : string)
    : Completion bytes :=
  match buildSync {| entryPoints := [entryPoint];
                     bundle := true;
                     format := format;
                     treeShaking := true;
                     minify := minify;
                     write := false |} with
  | Abrupt e => Abrupt e
  | Normal result =>
      if negb (Nat.eqb (List.length (outputFiles result)) 1)
      then Abrupt {| error_message := "" |}
      else
        match outputFiles result with
        | file :: _ => Normal (contents file)
        | [] =>
            Abrupt {| error_message :=
                        "Cannot read properties of undefined" |}
        end
  end.

(** [compress(buf)]. *)
Definition compress (buf : bytes) : bytes := brotliCompressSync buf.

(** [formatSize(bytes)]. *)
Definition formatSize (n : nat) : string := numberFormat n ++ " b".

(** [gather(entryPoint)]. *)
Definition gather (entry : string) : Completion Sizes :=
  match build entry false "esm" with
  | Abrupt e => Abrupt e
  | Normal bundle =>
      match build entry true "esm" with
      | Abrupt e => Abrupt e
      | Normal bundleMinified =>
          let compressed := compress bundleMinified in
          Normal {| entryPoint := entry;
                    size := formatSize (byteLength bundle);
                    minified := formatSize (byteLength bundleMinified);
                    compressed := formatSize (byteLength compressed) |}
      end
  end.

Definition nl : string := String "010"%char "".

(** The text above the rows of the table. *)
Definition report_head : string :=
  "# Code size comparison" ++ nl
  ++ nl
  ++ "This is a simple code size comparison between Connect-Web and gRPC-web."
  ++ nl
  ++ nl
  ++ "We are generating code for the module [buf.build/bufbuild/buf](https://buf.build/bufbuild/buf)"
  ++ nl
  ++ "once with `protoc-gen-grpc-web`, once with `protoc-gen-connect-web`. Then we bundle Then we bundle [a client](./src) "
  ++ nl
  ++ "for the service `buf.alpha.registry.v1alpha1.PluginService` with [esbuild](https://esbuild.github.io/),"
  ++ nl
  ++ "minify the bundle, and compress it like a web server would usually do."
  ++ nl
  ++ nl
  ++ "| code generator | bundle size        | minified               | compressed           |"
  ++ nl
  ++ "|----------------|-------------------:|-----------------------:|---------------------:|"
  ++ nl.

(** The template of the report, filled with the two results. *)
Definition report_text (connectweb grpcweb : Sizes) : string :=
  report_head
  ++ "| connect-web    | " ++ size connectweb ++ " | "
  ++ minified connectweb ++ " | " ++ compressed connectweb ++ " |" ++ nl
  ++ "| grpc-web       | " ++ size grpcweb ++ "    | "
  ++ minified grpcweb ++ "    | " ++ compressed grpcweb ++ " |" ++ nl.

(** The module body: what [process.stdout.write] is given, unless a
    [gather] throws first. *)
Definition report : Completion string :=
  match gather "src/entry-connectweb.ts" with
  | Abrupt e => Abrupt e
  | Normal connectweb =>
      match gather "src/entry-grpcweb.ts" with
      | Abrupt e => Abrupt e
      | Normal grpcweb => Normal (report_text connectweb grpcweb)
      end
  end.

End Report.

End Bench.

(** ** More scripted answers for the worked instance *)

Module Scenarios.

Import Fixture.

(** Two messages and a trailer with status 0. *)
Definition two_messages : UniversalClientResponse :=
  response 200 grpc_web
    [message_envelope 7; message_envelope 8; trailer_envelope ok_trailer].

(** The bytes of the envelopes, then two stray bytes: the splitter
    fails at the end of the stream. *)
Definition cut_short (envs : list EnvelopedMessage)
    : UniversalClientResponse :=
  {| cres_status := 200;
     cres_header := grpc_web;
     cres_body :=
       {| chunks :=
            chunks (transformJoinEnvelopes_spec (createAsyncIterable envs))
            ++ [[Byte.x00; Byte.x00]];
          failure := None |};
     cres_trailer := [] |}.

Definition truncated_stream : UniversalClientResponse :=
  cut_short [message_envelope 7].

Definition truncated_unary : UniversalClientResponse :=
  cut_short [message_envelope 7; trailer_envelope ok_trailer].

(** A body that is only a trailer with status 8. *)
Definition only_bad_trailer : UniversalClientResponse :=
  response 200 grpc_web [trailer_envelope resource_exhausted].


(** The iterator the first [read()] creates over an answer, and the
    connection that holds it. *)
Definition first_iterator (res : UniversalClientResponse)
    : @OutputIterator ReplyMsg :=
  {| gen_foundStatus := false;
     gen_state := GenStart;
     gen_iterable :=
       spec_response_pipeline imports (opt (Return res))
         (createMethodSerializationLookup imports method None None) None
         (cres_body res) |}.

Definition reading (res : UniversalClientResponse) : Conn :=
  set_outputIt (count_validation (answered res)) (first_iterator res)
    Pending.

(** The same call job by job: where a sequence of steps ends. *)
Definition played (res : Outcome UniversalClientResponse)
    (sts : list (Step ReplyMsg PartialReply))
    : option (Loop ReplyMsg ReplyMsg PartialReply unit) :=
  steps imports (opt res) (mkLoop (mkRun (fresh res) []) []) sts.

Definition ending (res : Outcome UniversalClientResponse)
    (sts : list (Step ReplyMsg PartialReply))
    : Loop ReplyMsg ReplyMsg PartialReply unit :=
  match played res sts with
  | Some l => l
  | None => mkLoop (mkRun (fresh res) []) []
  end.

(** Two calls of [read()] made before the answer, the answer, and
    the three jobs it leaves. *)
Definition two_reads_at_once (res : UniversalClientResponse)
    : list (Step ReplyMsg PartialReply) :=
  [Happens CallRead; Happens CallRead; Happens (HttpSettles (Return res));
   Job; Job; Job].

(** The answer, then two calls of [read()] of which the first is not
    awaited, and their jobs. *)
Definition two_reads_back_to_back (res : UniversalClientResponse)
    : list (Step ReplyMsg PartialReply) :=
  [Happens (HttpSettles (Return res)); Job;
   Happens CallRead; Happens CallRead; Job; Job].

(** A builder for the report: one output file per build, of 2000
    bytes plain and 1000 bytes minified. *)
Definition one_file (options : Bench.BuildOptions)
    : Bench.Completion Bench.BuildResult :=
  Bench.Normal
    {| Bench.outputFiles :=
         [{| Bench.path := "out.js";
             Bench.contents :=
               repeat Byte.x20
                 (if Bench.minify options then 1000 else 2000) |}] |}.

(** A builder that splits the bundle of the second entry point. *)
Definition splits_grpcweb (options : Bench.BuildOptions)
    : Bench.Completion Bench.BuildResult :=
  match Bench.entryPoints options with
  | [entry] =>
      if String.eqb entry "src/entry-grpcweb.ts"
      then Bench.Normal
             {| Bench.outputFiles :=
                  [{| Bench.path := "a.js"; Bench.contents := [] |};
                   {| Bench.path := "b.js"; Bench.contents := [] |}] |}
      else one_file options
  | _ => one_file options
  end.

(** Half the bytes, and sizes written in thousands. *)
Definition halve (b : bytes) : bytes := firstn (List.length b / 2) b.

Definition thousands (n : nat) : string :=
  if Nat.eqb n 2000 then "2,000"
  else if Nat.eqb n 1000 then "1,000"
  else if Nat.eqb n 500 then "500"
  else "?".

End Scenarios.

(** * Properties *)

Open Scope list_scope.

(** ** The error class *)

Lemma ErrorCode_not_ok (c : ErrorCode) : status c <> Ok.
Proof.
  destruct c as [s H]; simpl. intros ->. discriminate H.
Qed.

Lemma StatusCode_value_range (c : StatusCode) :
  (0 <= StatusCode_value c <= 16)%Z.
Proof. destruct c; simpl; lia. Qed.

Lemma StatusCode_value_zero (c : StatusCode) :
  StatusCode_value c = 0%Z -> c = Ok.
Proof. destruct c; simpl; intros H; try discriminate H; reflexivity. Qed.

Lemma StatusCode_defined (c : StatusCode) : In c all_status_codes.
Proof. destruct c; simpl; tauto. Qed.

Lemma StatusCode_of_value_value (c : StatusCode) :
  StatusCode_of_value (StatusCode_value c) = Some c.
Proof. destruct c; reflexivity. Qed.

Lemma StatusCode_of_value_sound (n : Z) (c : StatusCode) :
  StatusCode_of_value n = Some c -> StatusCode_value c = n.
Proof.
  unfold StatusCode_of_value. intros H.
  apply find_some in H. destruct H as [_ H].
  apply Z.eqb_eq. exact H.
Qed.

Lemma is_error_code_spec (n : Z) :
  is_error_code n = true
  <-> exists c : ErrorCode, StatusCode_value c = n.
Proof.
  unfold is_error_code. split.
  - destruct (StatusCode_of_value n) as [c|] eqn:E; [|discriminate].
    intros H. apply negb_true_iff in H.
    exists (mkErrorCode c H). simpl.
    apply StatusCode_of_value_sound. exact E.
  - intros [c <-]. rewrite StatusCode_of_value_value.
    rewrite (status_not_ok c). reflexivity.
Qed.

(** C9, as the code has it.  The constructor stores the code it is
    given and checks nothing.  Called with a code of its declared
    parameter type, every status code but OK, it makes an error with
    that code: one of the defined codes, never OK, its value between 1
    and 16.  Called with another number it makes an error with that
    number as code, so that the code of a constructed error is a
    defined code other than OK exactly when the caller passed one, or
    none.  Without a code the code is Unknown, without details the
    details are empty.  On typed arguments the constructor is
    [ConnectError_new]. *)
Theorem ConnectError_code_as_given :
  (forall msg code details,
     object_code (ConnectError_constructor msg code details)
     = match code with Some n => n | None => StatusCode_value Unknown end)
  /\ (forall msg (c : ErrorCode) details,
        let e :=
          ConnectError_constructor msg (Some (StatusCode_value c)) details in
        StatusCode_of_value (object_code e) = Some (status c)
        /\ In (status c) all_status_codes
        /\ status c <> Ok
        /\ (1 <= object_code e <= 16)%Z)
  /\ (forall msg code details,
        is_error_code
          (object_code (ConnectError_constructor msg code details)) = true
        <-> code = None
            \/ exists c : ErrorCode, code = Some (StatusCode_value c))
  /\ (forall msg details,
        StatusCode_of_value
          (object_code (ConnectError_constructor msg None details))
        = Some Unknown)
  /\ (forall msg code,
        object_details (ConnectError_constructor msg code None) = [])
  /\ (forall msg code d,
        object_details (ConnectError_constructor msg code (Some d)) = d)
  /\ (forall msg (c : option ErrorCode) details,
        ConnectError_constructor msg
          (option_map (fun c : ErrorCode => StatusCode_value c) c) details
        = ConnectError_object (ConnectError_new msg c details)).
Proof.
  split; [|split; [|split; [|split; [|split; [|split]]]]].
  - intros msg [n|] details; reflexivity.
  - intros msg c details. simpl.
    split; [apply StatusCode_of_value_value|].
    split; [apply StatusCode_defined|].
    split; [apply ErrorCode_not_ok|].
    pose proof (StatusCode_value_range c) as R.
    pose proof (StatusCode_value_zero c) as Z0.
    pose proof (ErrorCode_not_ok c) as N.
    destruct (Z.eq_dec (StatusCode_value c) 0) as [E|E].
    + exfalso. auto.
    + lia.
  - intros msg [n|] details; simpl.
    + rewrite is_error_code_spec. split.
      * intros [c <-]. right. exists c. reflexivity.
      * intros [H|[c H]]; [discriminate|].
        inversion H; subst. exists c. reflexivity.
    + split; [auto|reflexivity].
  - reflexivity.
  - reflexivity.
  - reflexivity.
  - intros msg [c|] details; unfold ConnectError_constructor,
      ConnectError_object, ConnectError_new, StatusCode_reverse; simpl.
    + rewrite StatusCode_of_value_value. reflexivity.
    + reflexivity.
Qed.

(** C9 as stated fails: the constructor called with 0 makes an error
    whose code is OK, and called with 99 one whose code is no status
    code at all. *)
Lemma ConnectError_code_as_given_counterexample :
  object_code (ConnectError_constructor "boom" (Some 0%Z) None) = 0%Z
  /\ StatusCode_of_value 0 = Some Ok
  /\ object_message (ConnectError_constructor "boom" (Some 0%Z) None)
     = "[Ok] boom"
  /\ object_code (ConnectError_constructor "boom" (Some 99%Z) None) = 99%Z
  /\ StatusCode_of_value 99 = None
  /\ object_message (ConnectError_constructor "boom" (Some 99%Z) None)
     = "[undefined] boom".
Proof. repeat split. Qed.

(** ** Unary calls *)

Section UnaryFacts.

Context {I O PlainI : Type}.
Context {BinaryOptions JsonOptions AbortSignal NodeHttpOptions : Type}.
Variable imports :
  Imports I O PlainI BinaryOptions JsonOptions AbortSignal NodeHttpOptions.
Variable opt : NodeTransportOptions AbortSignal.

Lemma unary_sink_loop_prefix (pre suffix : list (ParsedEnvelope O))
    (fail : option ConnectError) :
  forall (message : option O) (trailer : option Headers),
    List.length (messages_of pre) <= room message ->
    List.length (trailers_of pre) <= room trailer ->
    unary_sink_loop (pre ++ suffix) fail message trailer
    = unary_sink_loop suffix fail (after_messages pre message)
        (after_trailers pre trailer).
Proof.
  induction pre as [|env pre IH]; intros message trailer Hm Ht.
  - reflexivity.
  - destruct env as [t|m]; simpl in *.
    + destruct trailer as [t0|]; simpl in Ht; [lia|].
      rewrite IH; simpl; try lia.
      unfold after_messages, after_trailers; simpl.
      destruct (trailers_of pre) eqn:E; [reflexivity|].
      simpl in Ht. lia.
    + destruct message as [m0|]; simpl in Hm; [lia|].
      rewrite IH; simpl; try lia.
      unfold after_messages, after_trailers; simpl.
      destruct (messages_of pre) eqn:E; [reflexivity|].
      simpl in Hm. lia.
Qed.

Lemma unary_sink_loop_full (envs : list (ParsedEnvelope O))
    (fail : option ConnectError) (m : O) (t : Headers)
    (r : option Headers * option O) :
  unary_sink_loop envs fail (Some m) (Some t) = Return r ->
  envs = [] /\ fail = None /\ r = (Some t, Some m).
Proof.
  destruct envs as [|[t'|m'] rest]; simpl.
  - destruct fail; intros H; inversion H; auto.
  - discriminate.
  - discriminate.
Qed.

(** A sink that returns both a trailer and a message has seen just
    the two envelopes, in one order or the other. *)
Lemma unary_sink_both (iterable : AsyncIterable (ParsedEnvelope O))
    (m : O) (t : Headers) :
  unary_sink iterable = Return (Some t, Some m) ->
  failure iterable = None
  /\ (chunks iterable = [EnvMessage m; EnvEnd t]
      \/ chunks iterable = [EnvEnd t; EnvMessage m]).
Proof.
  unfold unary_sink. destruct iterable as [envs fail]; simpl.
  destruct envs as [|[t1|m1] [|[t2|m2] rest]]; simpl;
    try (destruct fail; discriminate).
  - intros H. apply unary_sink_loop_full in H.
    destruct H as (-> & -> & H). inversion H; subst. auto.
  - intros H. apply unary_sink_loop_full in H.
    destruct H as (-> & -> & H). inversion H; subst. auto.
Qed.

Variable service : ServiceType.
Variable method : MethodInfo I PlainI.
Variable serialization : MethodSerializationLookup I O.

Lemma response_pipeline_refines (compression : option Compression)
    (body : AsyncIterable bytes) (o : option PipeOptions) :
  pipe body (response_transforms imports opt serialization compression) o
  = spec_response_pipeline imports opt serialization compression body.
Proof. reflexivity. Qed.

(** C2.  A unary call whose response passed validation, the decoded
    body being the envelopes [envs] ended by [fail].  The call returns
    only if the body is exactly one message envelope and one trailer
    envelope, in either order (and then does return when the trailer
    is valid).  The first envelope that breaks the rule decides the
    error: a second trailer envelope throws InvalidArgument
    "protocol error: received extra trailer", a second message
    envelope "protocol error: received extra output message for unary
    method"; a body that ends without a trailer envelope throws
    "protocol error: missing trailer", and one that ends with a valid
    trailer and no message "protocol error: missing output message
    for unary method". *)
Theorem unary_one_message_one_trailer
    (req : UnaryRequest I PlainI AbortSignal)
    (universalResponse : UniversalClientResponse)
    (compression : option Compression) (foundStatus : bool)
    (envs : list (ParsedEnvelope O)) (fail : option ConnectError) :
  client opt (unary_client_request imports opt serialization req)
  = Return universalResponse ->
  validateResponseWithCompression imports (useBinaryFormat opt)
    (acceptCompression opt) (cres_status universalResponse)
    (cres_header universalResponse)
  = Return (compression, foundStatus) ->
  spec_response_pipeline imports opt serialization compression
    (cres_body universalResponse)
  = {| chunks := envs; failure := fail |} ->
  let result := unary_next imports opt service method serialization req in
  (forall res, result = Return res ->
     fail = None
     /\ exists m t,
          (envs = [EnvMessage m; EnvEnd t]
           \/ envs = [EnvEnd t; EnvMessage m])
          /\ validateTrailer imports t = Return tt
          /\ ures_message res = m /\ ures_trailer res = t
          /\ ures_header res = cres_header universalResponse)
  /\ (forall m t,
        fail = None ->
        envs = [EnvMessage m; EnvEnd t]
        \/ envs = [EnvEnd t; EnvMessage m] ->
        validateTrailer imports t = Return tt ->
        exists res, result = Return res
                    /\ ures_message res = m /\ ures_trailer res = t)
  /\ (forall pre t rest,
        envs = pre ++ EnvEnd t :: rest ->
        List.length (trailers_of pre) = 1 ->
        List.length (messages_of pre) <= 1 ->
        result = Throw extra_trailer
        /\ status (code extra_trailer) = InvalidArgument)
  /\ (forall pre m rest,
        envs = pre ++ EnvMessage m :: rest ->
        List.length (messages_of pre) = 1 ->
        List.length (trailers_of pre) <= 1 ->
        result = Throw extra_output_message
        /\ status (code extra_output_message) = InvalidArgument)
  /\ (fail = None ->
      trailers_of envs = [] ->
      List.length (messages_of envs) <= 1 ->
      result = Throw missing_trailer
      /\ status (code missing_trailer) = InvalidArgument)
  /\ (forall t,
        fail = None ->
        messages_of envs = [] ->
        trailers_of envs = [t] ->
        validateTrailer imports t = Return tt ->
        result = Throw missing_output_message
        /\ status (code missing_output_message) = InvalidArgument).
Proof.
  intros Hclient Hvalid Hbody result.
  assert (Hres : result =
    bind (unary_sink_loop envs fail None None)
      (unary_finish imports service method universalResponse)).
  { unfold result, unary_next. rewrite Hclient. simpl. rewrite Hvalid.
    simpl. unfold pipeTo.
    change (chain (response_transforms imports opt serialization
                     compression) (cres_body universalResponse))
      with (spec_response_pipeline imports opt serialization compression
              (cres_body universalResponse)).
    rewrite Hbody. reflexivity. }
  unfold unary_finish in Hres.
  clearbody result. subst result.
  split; [|split; [|split; [|split; [|split]]]].
  - intros res H.
    destruct (unary_sink_loop envs fail None None)
      as [[[tr|] [msg|]]|e] eqn:E; simpl in H; try discriminate H;
      destruct (validateTrailer imports tr) as [[]|e'] eqn:V;
      simpl in H; try discriminate H.
    inversion H; subst; clear H.
    apply (unary_sink_both (mkIterable envs fail)) in E. simpl in E.
    split; [tauto|]. exists msg, tr. tauto.
  - intros m t -> Henvs V.
    destruct Henvs as [-> | ->]; simpl; rewrite V; simpl;
      eexists; repeat split.
  - intros pre t rest -> Ht Hm. split; [|reflexivity].
    rewrite unary_sink_loop_prefix by (simpl; lia).
    unfold after_trailers. destruct (trailers_of pre); [discriminate|].
    reflexivity.
  - intros pre m rest -> Hm Ht. split; [|reflexivity].
    rewrite unary_sink_loop_prefix by (simpl; lia).
    unfold after_messages. destruct (messages_of pre); [discriminate|].
    reflexivity.
  - intros -> Ht Hm. split; [|reflexivity].
    rewrite <- (app_nil_r envs).
    rewrite unary_sink_loop_prefix by (rewrite ?Ht; simpl; lia).
    unfold after_trailers. rewrite Ht. reflexivity.
  - intros t -> Hm Ht V. split; [|reflexivity].
    rewrite <- (app_nil_r envs).
    rewrite unary_sink_loop_prefix by (rewrite ?Ht, ?Hm; simpl; lia).
    unfold after_trailers, after_messages. rewrite Ht, Hm. simpl.
    rewrite V. reflexivity.
Qed.

End UnaryFacts.

(** ** Streaming calls: the generator and [read] *)

Section StreamFacts.

Context {I O PlainI : Type}.
Context {BinaryOptions JsonOptions AbortSignal NodeHttpOptions : Type}.
Variable imports :
  Imports I O PlainI BinaryOptions JsonOptions AbortSignal NodeHttpOptions.
Variable opt : NodeTransportOptions AbortSignal.

Lemma reads_app (n k : nat) :
  forall conn : StreamingConn I O PlainI AbortSignal,
    reads imports opt (n + k) conn
    = match reads imports opt n conn with
      | Some (conn', rs) =>
          match reads imports opt k conn' with
          | Some (conn'', rs') => Some (conn'', rs ++ rs')
          | None => None
          end
      | None => None
      end.
Proof.
  induction n as [|n IH]; intros conn; simpl.
  - destruct (reads imports opt k conn) as [[c rs]|]; reflexivity.
  - destruct (read imports opt conn) as [[c r]|]; [|reflexivity].
    rewrite IH. destruct (reads imports opt n c) as [[c' rs]|]; [|reflexivity].
    destruct (reads imports opt k c') as [[c'' rs']|]; reflexivity.
Qed.

(** Once the generator has completed, [read] returns done and
    changes nothing. *)
Lemma read_completed (conn : StreamingConn I O PlainI AbortSignal)
    (it : OutputIterator) :
  outputIt conn = Some it ->
  gen_state it = GenCompleted ->
  read imports opt conn = Some (conn, Return ReadDone).
Proof.
  intros Hit Hst. unfold read. rewrite Hit.
  unfold read_next, outputIt_next. rewrite Hst. simpl.
  destruct conn, it; simpl in *. subst. reflexivity.
Qed.

Lemma reads_completed (conn : StreamingConn I O PlainI AbortSignal)
    (it : OutputIterator) (k : nat) :
  outputIt conn = Some it ->
  gen_state it = GenCompleted ->
  reads imports opt k conn = Some (conn, repeat (Return ReadDone) k).
Proof.
  intros Hit Hst. induction k as [|k IH]; simpl.
  - reflexivity.
  - rewrite (read_completed conn it Hit Hst). rewrite IH. reflexivity.
Qed.

(** The first [read] on a connection whose response has arrived and
    passes validation: the iterator is created, then asked. *)
Lemma read_first (conn : StreamingConn I O PlainI AbortSignal)
    (uRes : UniversalClientResponse) (compression : option Compression)
    (foundStatus : bool) :
  outputIt conn = None ->
  universalResponsePromise conn = Fulfilled uRes ->
  validateResponseWithCompression imports (useBinaryFormat opt)
    (acceptCompression opt) (cres_status uRes) (cres_header uRes)
  = Return (compression, foundStatus) ->
  let it :=
    {| gen_foundStatus := foundStatus;
       gen_state := GenStart;
       gen_iterable :=
         spec_response_pipeline imports opt (conn_serialization conn)
           compression (cres_body uRes) |} in
  read imports opt conn
  = Some (read_next imports
            (set_outputIt (count_validation conn) it (responseTrailer conn))
            it).
Proof.
  intros Hit Hp Hv. unfold read. rewrite Hit, Hp.
  unfold read_init. rewrite Hv. reflexivity.
Qed.

Lemma outputIt_next_in_loop (it : OutputIterator)
    (rt : PromiseState Headers) :
  in_loop it ->
  outputIt_next imports it rt
  = generator_loop imports (chunks (gen_iterable it))
      (failure (gen_iterable it)) false rt.
Proof.
  unfold outputIt_next. intros [H | [H1 H2]].
  - rewrite H. reflexivity.
  - rewrite H1, H2. reflexivity.
Qed.

(** Messages ahead of any trailer are read one per call, and leave
    [responseTrailer] alone. *)
Lemma reads_messages (ms : list O) (suffix : list (ParsedEnvelope O))
    (fail : option ConnectError) :
  forall (conn : StreamingConn I O PlainI AbortSignal) (it : OutputIterator),
    outputIt conn = Some it ->
    in_loop it ->
    gen_iterable it = {| chunks := map EnvMessage ms ++ suffix;
                         failure := fail |} ->
    exists (conn' : StreamingConn I O PlainI AbortSignal)
           (it' : OutputIterator),
      reads imports opt (List.length ms) conn
      = Some (conn', map (fun m => Return (ReadValue m)) ms)
      /\ outputIt conn' = Some it'
      /\ in_loop it'
      /\ gen_iterable it' = {| chunks := suffix; failure := fail |}
      /\ responseTrailer conn' = responseTrailer conn.
Proof.
  induction ms as [|m ms IH]; intros conn it Hit Hloop Hiter.
  - exists conn, it. simpl. auto.
  - simpl. unfold read. rewrite Hit.
    unfold read_next. rewrite (outputIt_next_in_loop it _ Hloop).
    rewrite Hiter. simpl.
    match goal with
    | |- context [reads _ _ _ ?c] => set (conn1 := c)
    end.
    destruct (IH conn1
                {| gen_foundStatus := gen_foundStatus it;
                   gen_state := GenYielded false;
                   gen_iterable := {| chunks := map EnvMessage ms ++ suffix;
                                      failure := fail |} |})
      as (conn' & it' & Hr & Ho & Hl & Hi & Ht).
    + reflexivity.
    + left. reflexivity.
    + reflexivity.
    + exists conn', it'. rewrite Hr. repeat split; assumption.
Qed.

Lemma reject_resolve {A : Type} (p : PromiseState A) (v : A)
    (e : ConnectError) :
  reject (resolve p v) e = resolve p v.
Proof. destruct p; reflexivity. Qed.

(** The first [read] asks the iterator it has just created; the
    connection that holds this iterator answers the same. *)
Lemma reads_first (conn : StreamingConn I O PlainI AbortSignal)
    (uRes : UniversalClientResponse) (compression : option Compression)
    (foundStatus : bool) (n : nat) :
  outputIt conn = None ->
  universalResponsePromise conn = Fulfilled uRes ->
  validateResponseWithCompression imports (useBinaryFormat opt)
    (acceptCompression opt) (cres_status uRes) (cres_header uRes)
  = Return (compression, foundStatus) ->
  let it :=
    {| gen_foundStatus := foundStatus;
       gen_state := GenStart;
       gen_iterable :=
         spec_response_pipeline imports opt (conn_serialization conn)
           compression (cres_body uRes) |} in
  reads imports opt (S n) conn
  = reads imports opt (S n)
      (set_outputIt (count_validation conn) it (responseTrailer conn)).
Proof.
  intros Hit Hp Hv it. simpl.
  rewrite (read_first conn uRes compression foundStatus Hit Hp Hv).
  reflexivity.
Qed.

Lemma reads_S (n : nat) (conn : StreamingConn I O PlainI AbortSignal) :
  reads imports opt (S n) conn
  = match read imports opt conn with
    | None => None
    | Some (conn', r) =>
        match reads imports opt n conn' with
        | None => None
        | Some (conn'', rs) => Some (conn'', r :: rs)
        end
    end.
Proof. reflexivity. Qed.

(** One [read()] on a connection whose generator is inside its loop. *)
Ltac ask_in_loop Ho Hl Hi :=
  change (1 + ?k) with (S k); rewrite reads_S;
  unfold read; rewrite Ho; unfold read_next;
  rewrite (outputIt_next_in_loop _ _ Hl); rewrite Hi; simpl.

(** The connection the goal reads from next holds a completed
    generator: name it, and let the remaining reads return done. *)
Ltac completed_after conn :=
  match goal with
  | |- context [reads _ _ _ ?c] => set (conn := c)
  end;
  erewrite (reads_completed conn) by reflexivity.

(** The messages are read, then the read that reaches a trailer the
    validator refuses throws its error; the generator has completed,
    [responseTrailer] has not been touched. *)
Lemma reads_until_refused_trailer (ms : list O) (t : Headers)
    (rest : list (ParsedEnvelope O)) (fail : option ConnectError)
    (e : ConnectError) (k : nat)
    (conn : StreamingConn I O PlainI AbortSignal) (it : OutputIterator) :
  outputIt conn = Some it ->
  in_loop it ->
  gen_iterable it = {| chunks := map EnvMessage ms ++ EnvEnd t :: rest;
                       failure := fail |} ->
  validateTrailer imports t = Throw e ->
  exists conn' : StreamingConn I O PlainI AbortSignal,
    reads imports opt (List.length ms + (1 + k)) conn
    = Some (conn',
            map (fun m => Return (ReadValue m)) ms
            ++ Throw e :: repeat (Return ReadDone) k)
    /\ responseTrailer conn' = responseTrailer conn.
Proof.
  intros Hit Hloop Hiter Hv.
  destruct (reads_messages ms (EnvEnd t :: rest) fail conn it Hit Hloop Hiter)
    as (conn1 & it1 & Hr & Ho & Hl & Hi & Ht).
  rewrite reads_app, Hr.
  ask_in_loop Ho Hl Hi. rewrite Hv.
  simpl.
  completed_after conn2.
  exists conn2. split; [reflexivity|]. exact Ht.
Qed.

(** The messages are read; the read that reaches a valid trailer with
    an envelope behind it throws the error of that envelope.  By then
    [responseTrailer] has been resolved with the trailer, so that the
    [reject] before the [throw] changes nothing. *)
Lemma reads_until_envelope_after_trailer (ms : list O) (t : Headers)
    (env : ParsedEnvelope O) (rest : list (ParsedEnvelope O))
    (fail : option ConnectError) (k : nat)
    (conn : StreamingConn I O PlainI AbortSignal) (it : OutputIterator) :
  outputIt conn = Some it ->
  in_loop it ->
  gen_iterable it
  = {| chunks := map EnvMessage ms ++ EnvEnd t :: env :: rest;
       failure := fail |} ->
  validateTrailer imports t = Return tt ->
  exists conn' : StreamingConn I O PlainI AbortSignal,
    reads imports opt (List.length ms + (1 + k)) conn
    = Some (conn',
            map (fun m => Return (ReadValue m)) ms
            ++ Throw (after_trailer_error env)
               :: repeat (Return ReadDone) k)
    /\ responseTrailer conn' = resolve (responseTrailer conn) t.
Proof.
  intros Hit Hloop Hiter Hv.
  destruct (reads_messages ms (EnvEnd t :: env :: rest) fail conn it
              Hit Hloop Hiter)
    as (conn1 & it1 & Hr & Ho & Hl & Hi & Ht).
  rewrite reads_app, Hr.
  ask_in_loop Ho Hl Hi. rewrite Hv.
  destruct env as [t'|m']; simpl; completed_after conn2;
    exists conn2; (split; [reflexivity|]);
    simpl; rewrite reject_resolve, Ht; reflexivity.
Qed.

(** A body that ends without a trailer: the messages are read, the
    next read throws "missing trailer", and [responseTrailer] is
    rejected with it. *)
Lemma reads_until_missing_trailer (ms : list O) (k : nat)
    (conn : StreamingConn I O PlainI AbortSignal) (it : OutputIterator) :
  outputIt conn = Some it ->
  in_loop it ->
  gen_iterable it = {| chunks := map EnvMessage ms; failure := None |} ->
  exists conn' : StreamingConn I O PlainI AbortSignal,
    reads imports opt (List.length ms + (1 + k)) conn
    = Some (conn',
            map (fun m => Return (ReadValue m)) ms
            ++ Throw missing_trailer :: repeat (Return ReadDone) k)
    /\ responseTrailer conn' = reject (responseTrailer conn) missing_trailer.
Proof.
  intros Hit Hloop Hiter.
  rewrite <- (app_nil_r (map EnvMessage ms)) in Hiter.
  destruct (reads_messages ms [] None conn it Hit Hloop Hiter)
    as (conn1 & it1 & Hr & Ho & Hl & Hi & Ht).
  rewrite reads_app, Hr.
  ask_in_loop Ho Hl Hi.
  completed_after conn2.
  exists conn2. split; [reflexivity|]. simpl. rewrite Ht. reflexivity.
Qed.

(** C3, as the code has it.  A streaming call whose response
    validation reports [foundStatus = true]: the decoded body is
    asserted empty, that is, a first envelope makes the first [read()]
    throw InvalidArgument "protocol error: received extra trailer" and
    rejects [responseTrailer] with it; with an empty body the first
    [read()] returns done and so does every later one, and
    [responseTrailer] is left pending: this path never resolves it. *)
Theorem stream_trailers_only
    (conn : StreamingConn I O PlainI AbortSignal)
    (uRes : UniversalClientResponse) (compression : option Compression) :
  outputIt conn = None ->
  responseTrailer conn = Pending ->
  universalResponsePromise conn = Fulfilled uRes ->
  validateResponseWithCompression imports (useBinaryFormat opt)
    (acceptCompression opt) (cres_status uRes) (cres_header uRes)
  = Return (compression, true) ->
  let decoded :=
    spec_response_pipeline imports opt (conn_serialization conn)
      compression (cres_body uRes) in
  (decoded = {| chunks := []; failure := None |} ->
   forall n, exists conn' : StreamingConn I O PlainI AbortSignal,
     reads imports opt (S n) conn
     = Some (conn', repeat (Return ReadDone) (S n))
     /\ responseTrailer conn' = Pending)
  /\ (forall env rest n,
        chunks decoded = env :: rest ->
        exists conn' : StreamingConn I O PlainI AbortSignal,
          reads imports opt (S n) conn
          = Some (conn',
                  Throw extra_trailer :: repeat (Return ReadDone) n)
          /\ responseTrailer conn' = Rejected extra_trailer).
Proof.
  intros Hit Hrt Hp Hv decoded. split.
  - intros Hd n.
    rewrite (reads_first conn uRes compression true n Hit Hp Hv).
    fold decoded. clearbody decoded. subst decoded.
    set (it := {| gen_foundStatus := true; gen_state := GenStart;
                  gen_iterable := {| chunks := []; failure := None |} |}).
    set (conn0 := set_outputIt (count_validation conn) it
                    (responseTrailer conn)).
    simpl.
    match goal with
    | |- context [reads _ _ _ ?c] => set (conn1 := c)
    end.
    rewrite (reads_completed conn1
               {| gen_foundStatus := true; gen_state := GenCompleted;
                  gen_iterable := {| chunks := []; failure := None |} |} n)
      by reflexivity.
    exists conn1. split; [reflexivity|]. exact Hrt.
  - intros env rest n Hd.
    rewrite (reads_first conn uRes compression true n Hit Hp Hv).
    fold decoded. clearbody decoded.
    destruct decoded as [envs fail]. simpl in Hd. subst envs. simpl.
    match goal with
    | |- context [reads _ _ _ ?c] => set (conn1 := c)
    end.
    rewrite (reads_completed conn1
               {| gen_foundStatus := true; gen_state := GenCompleted;
                  gen_iterable := {| chunks := []; failure := fail |} |} n)
      by reflexivity.
    exists conn1. split; [reflexivity|]. simpl. rewrite Hrt. reflexivity.
Qed.

Lemma ErrorCode_of_value_nonzero (n : N) :
  n <> 0%N -> exists c, ErrorCode_of_value n = Some c.
Proof.
  intros H. destruct (ErrorCode_of_value n) as [c|] eqn:E; [eauto|].
  exfalso. apply H. unfold ErrorCode_of_value in E.
  destruct n as [|p]; [reflexivity|].
  repeat (destruct p as [p|p|]; try discriminate E).
Qed.

(** C1, as the code has it.  A streaming call that passed validation
    and is not trailers-only, whose first trailer envelope carries a
    non-zero [grpc-status]: the messages before the trailer are read,
    the [read()] that reaches the trailer throws the error the status
    maps to, and every [read()] after it returns done. *)
Theorem stream_trailer_error_status
    (decodeURIComponent : string -> string)
    (decodeDetails : string -> list Any)
    (conn : StreamingConn I O PlainI AbortSignal)
    (uRes : UniversalClientResponse) (compression : option Compression)
    (ms : list O) (t : Headers) (rest : list (ParsedEnvelope O))
    (fail : option ConnectError) (n : N) :
  validateTrailer imports
  = validateTrailer_spec decodeURIComponent decodeDetails ->
  outputIt conn = None ->
  universalResponsePromise conn = Fulfilled uRes ->
  validateResponseWithCompression imports (useBinaryFormat opt)
    (acceptCompression opt) (cres_status uRes) (cres_header uRes)
  = Return (compression, false) ->
  spec_response_pipeline imports opt (conn_serialization conn)
    compression (cres_body uRes)
  = {| chunks := map EnvMessage ms ++ EnvEnd t :: rest; failure := fail |} ->
  grpc_status t = Some n ->
  n <> 0%N ->
  exists c,
    ErrorCode_of_value n = Some c
    /\ forall k, exists conn' : StreamingConn I O PlainI AbortSignal,
         reads imports opt (List.length ms + (1 + k)) conn
         = Some (conn',
                 map (fun m => Return (ReadValue m)) ms
                 ++ Throw (mapped_error decodeURIComponent decodeDetails c t)
                    :: repeat (Return ReadDone) k).
Proof.
  intros Hvt Hit Hp Hv Hd Hs Hn.
  destruct (ErrorCode_of_value_nonzero n Hn) as [c Hc].
  exists c. split; [exact Hc|]. intros k.
  replace (List.length ms + (1 + k)) with (S (List.length ms + k)) by lia.
  rewrite (reads_first conn uRes compression false _ Hit Hp Hv).
  replace (S (List.length ms + k)) with (List.length ms + (1 + k)) by lia.
  rewrite Hd.
  match goal with
  | |- context [reads _ _ _ (set_outputIt ?conn0 ?it0 ?rt0)] =>
      destruct (reads_until_refused_trailer ms t rest fail
                  (mapped_error decodeURIComponent decodeDetails c t) k
                  (set_outputIt conn0 it0 rt0) it0)
        as (conn' & Hr & _)
  end.
  - reflexivity.
  - right. split; reflexivity.
  - reflexivity.
  - rewrite Hvt. unfold validateTrailer_spec. rewrite Hs, Hc. reflexivity.
  - exists conn'. exact Hr.
Qed.

End StreamFacts.

(** ** Streaming calls in time *)

Section RunFacts.

Context {I O PlainI : Type}.
Context {BinaryOptions JsonOptions AbortSignal NodeHttpOptions : Type}.
Variable imports :
  Imports I O PlainI BinaryOptions JsonOptions AbortSignal NodeHttpOptions.
Variable opt : NodeTransportOptions AbortSignal.

(** A [read()] that completes leaves the promises of the response
    head alone, validates at most once, and on a failed request throws
    the failure of the request. *)
Lemma read_effect (conn conn' : StreamingConn I O PlainI AbortSignal)
    (r : Outcome ReadableStreamReadResultLike) :
  read imports opt conn = Some (conn', r) ->
  universalResponsePromise conn' = universalResponsePromise conn
  /\ reactions conn' = reactions conn
  /\ responseHeader conn' = responseHeader conn
  /\ validations conn <= validations conn' <= S (validations conn)
  /\ (outputIt conn <> None ->
      validations conn' = validations conn /\ outputIt conn' <> None)
  /\ (forall uRes,
        outputIt conn = None ->
        universalResponsePromise conn = Fulfilled uRes ->
        validations conn' = S (validations conn))
  /\ (forall e,
        outputIt conn = None ->
        universalResponsePromise conn = Rejected e ->
        r = Throw e /\ outputIt conn' = None).
Proof.
  unfold read. intros H.
  destruct (outputIt conn) as [it|] eqn:Hit.
  - inversion H; subst; clear H. simpl.
    repeat split; try lia; try discriminate; intros; discriminate.
  - destruct (universalResponsePromise conn) as [|uRes|e] eqn:Hp;
      [discriminate| |].
    + unfold read_init in H.
      destruct (validateResponseWithCompression imports (useBinaryFormat opt)
                  (acceptCompression opt) (cres_status uRes)
                  (cres_header uRes)) as [[compression foundStatus]|e];
        inversion H; subst; clear H; simpl;
        repeat split; try lia; try assumption; try congruence;
        intros; try discriminate; congruence.
    + inversion H; subst; clear H. simpl.
      repeat split; try lia; try assumption; try congruence;
        intros; try discriminate.
Qed.

(** With the response head there, a [read()] is never left suspended. *)
Lemma read_total (conn : StreamingConn I O PlainI AbortSignal) :
  universalResponsePromise conn <> Pending ->
  exists conn' r, read imports opt conn = Some (conn', r).
Proof.
  unfold read. intros H.
  destruct (outputIt conn) as [it|].
  - destruct (read_next imports conn it) as [c r]. eauto.
  - destruct (universalResponsePromise conn) as [|uRes|e];
      [contradiction| |].
    + destruct (read_init imports opt conn (Return uRes)) as [c r]. eauto.
    + destruct (read_init imports opt conn (Throw e)) as [c r]. eauto.
Qed.

Lemma read_invariant (s : Run I O PlainI AbortSignal)
    (conn' : StreamingConn I O PlainI AbortSignal)
    (r : Outcome ReadableStreamReadResultLike) :
  run_invariant s ->
  read imports opt (run_conn s) = Some (conn', r) ->
  run_invariant (mkRun conn' (run_reads s ++ [r])).
Proof.
  intros [Hval Hinv] Hread.
  pose proof (read_effect _ _ _ Hread) as (Hp & Hre & Hh & Hv & _ & _ & Hrej).
  unfold run_invariant. simpl. rewrite Hp, Hre, Hh, length_app. simpl.
  split; [lia|].
  destruct (universalResponsePromise (run_conn s)) as [|uRes|e] eqn:E.
  - exfalso. destruct Hinv as (_ & Hit & _).
    unfold read in Hread. rewrite Hit, E in Hread. discriminate.
  - exact Hinv.
  - destruct Hinv as (H1 & H2 & H3 & H4).
    destruct (Hrej e H3 eq_refl) as [-> Hit'].
    repeat split; try assumption.
    apply Forall_app. split; [assumption|]. constructor; [reflexivity|].
    constructor.
Qed.

Lemma resumed_reads_invariant (rs : list Reaction) :
  Forall (fun r => r = ResumeRead) rs ->
  forall s : Run I O PlainI AbortSignal,
    run_invariant s ->
    universalResponsePromise (run_conn s) <> Pending ->
    run_invariant (fold_left (run_reaction imports opt) rs s)
    /\ universalResponsePromise
         (run_conn (fold_left (run_reaction imports opt) rs s))
       = universalResponsePromise (run_conn s).
Proof.
  induction 1 as [|r rs -> _ IH]; intros s Hinv Hp; simpl.
  - auto.
  - destruct (read_total (run_conn s) Hp) as (conn' & res & Hread).
    rewrite Hread.
    pose proof (read_effect _ _ _ Hread) as (Hp' & _).
    destruct (IH (mkRun conn' (run_reads s ++ [res]))) as [H1 H2].
    + apply read_invariant; assumption.
    + simpl. rewrite Hp'. exact Hp.
    + split; [exact H1|]. rewrite H2. simpl. exact Hp'.
Qed.

Lemma exec_invariant (s s' : Run I O PlainI AbortSignal)
    (ev : Event I PlainI) :
  run_invariant s ->
  exec imports opt s ev = Some s' ->
  run_invariant s'.
Proof.
  intros Hinv Hex. destruct ev as [uRes| |m|]; simpl in Hex.
  - destruct Hinv as [Hval Hinv].
    destruct (universalResponsePromise (run_conn s)) eqn:E;
      try discriminate Hex.
    destruct Hinv as (Hreads & Hit & Hh & rs & Hrs & Hall).
    inversion Hex; subst; clear Hex. rewrite Hrs. simpl.
    apply resumed_reads_invariant; [exact Hall| |].
    + unfold run_invariant. simpl. split; [exact Hval|].
      destruct uRes as [u|e]; simpl; repeat split; try assumption.
      rewrite Hreads. constructor.
    + simpl. destruct uRes; discriminate.
  - destruct (has_suspended_read (reactions (run_conn s))) eqn:Hs;
      [discriminate|].
    destruct (read imports opt (run_conn s)) as [[conn' r]|] eqn:Hread.
    + inversion Hex; subst; clear Hex. apply read_invariant; assumption.
    + inversion Hex; subst; clear Hex.
      destruct Hinv as [Hval Hinv]. unfold run_invariant. simpl.
      split; [exact Hval|].
      destruct (universalResponsePromise (run_conn s)) eqn:E.
      * destruct Hinv as (Hreads & Hit & Hh & rs & Hrs & Hall).
        repeat split; try assumption.
        exists (rs ++ [ResumeRead]). rewrite Hrs. split; [reflexivity|].
        apply Forall_app. split; [assumption|]. repeat constructor.
      * exfalso. destruct (read_total (run_conn s)) as (c & r & H).
        { rewrite E. discriminate. }
        rewrite H in Hread. discriminate.
      * exfalso. destruct (read_total (run_conn s)) as (c & r & H).
        { rewrite E. discriminate. }
        rewrite H in Hread. discriminate.
  - destruct (writable_closed (run_conn s)); [discriminate|].
    inversion Hex; subst; clear Hex. exact Hinv.
  - inversion Hex; subst; clear Hex. exact Hinv.
Qed.

Lemma execs_invariant (evs : list (Event I PlainI)) :
  forall s s' : Run I O PlainI AbortSignal,
    run_invariant s ->
    execs imports opt s evs = Some s' ->
    run_invariant s'.
Proof.
  induction evs as [|ev evs IH]; intros s s' Hinv Hex; simpl in Hex.
  - inversion Hex; subst. exact Hinv.
  - destruct (exec imports opt s ev) as [s1|] eqn:E; [|discriminate].
    apply (IH s1 s'); [|exact Hex].
    apply (exec_invariant s s1 ev); assumption.
Qed.

Lemma stream_next_invariant (serialization : MethodSerializationLookup I O)
    (req : StreamingRequest I PlainI AbortSignal)
    (conn : StreamingConn I O PlainI AbortSignal) :
  stream_next serialization req = Return conn ->
  run_invariant (mkRun conn []).
Proof.
  intros H. inversion H; subst; clear H. unfold run_invariant. simpl.
  repeat split; try lia. exists []. split; [reflexivity|constructor].
Qed.

(** C6.  On a connection as [stream] returns it, whatever happens
    next: while the promise of the HTTP client is pending no [read()]
    has completed; so when a [read()] has completed, [responseHeader]
    has settled; it is fulfilled with the headers of the response head
    whenever the client's promise is fulfilled, which is the case as
    soon as some [read()] has returned a result. *)
Theorem responseHeader_settled_by_first_read
    (serialization : MethodSerializationLookup I O)
    (req : StreamingRequest I PlainI AbortSignal)
    (conn : StreamingConn I O PlainI AbortSignal)
    (evs : list (Event I PlainI)) (s : Run I O PlainI AbortSignal) :
  stream_next serialization req = Return conn ->
  execs imports opt (mkRun conn []) evs = Some s ->
  (universalResponsePromise (run_conn s) = Pending -> run_reads s = [])
  /\ (run_reads s <> [] -> responseHeader (run_conn s) <> Pending)
  /\ (forall uRes,
        universalResponsePromise (run_conn s) = Fulfilled uRes ->
        responseHeader (run_conn s) = Fulfilled (cres_header uRes))
  /\ (forall v,
        In (Return v) (run_reads s) ->
        exists uRes,
          universalResponsePromise (run_conn s) = Fulfilled uRes
          /\ responseHeader (run_conn s) = Fulfilled (cres_header uRes)).
Proof.
  intros Hnew Hex.
  pose proof (execs_invariant evs _ _
                (stream_next_invariant serialization req conn Hnew) Hex)
    as [_ Hinv].
  destruct (universalResponsePromise (run_conn s)) as [|uRes|e] eqn:E.
  - destruct Hinv as (Hreads & _). rewrite Hreads.
    split; [reflexivity|]. split; [congruence|].
    split; [discriminate|]. intros v [].
  - destruct Hinv as (Hh & _). rewrite Hh.
    split; [discriminate|]. split; [discriminate|]. split.
    + intros u Hu. inversion Hu; subst. reflexivity.
    + intros v _. exists uRes. split; reflexivity.
  - destruct Hinv as (Hh & _ & _ & Hall). rewrite Hh.
    split; [discriminate|]. split; [discriminate|].
    split; [discriminate|].
    intros v Hin. rewrite Forall_forall in Hall.
    specialize (Hall _ Hin). discriminate Hall.
Qed.

End RunFacts.

(** ** Streaming calls in time, job by job *)

Section LoopFacts.

Context {I O PlainI : Type}.
Context {BinaryOptions JsonOptions AbortSignal NodeHttpOptions : Type}.
Variable imports :
  Imports I O PlainI BinaryOptions JsonOptions AbortSignal NodeHttpOptions.
Variable opt : NodeTransportOptions AbortSignal.

(** [await outputIt.next()] touches neither the promise of the client
    nor the count of validations, and leaves an iterator. *)
Lemma read_next_effect (conn : StreamingConn I O PlainI AbortSignal)
    (it : OutputIterator) :
  let conn' := fst (read_next imports conn it) in
  universalResponsePromise conn' = universalResponsePromise conn
  /\ reactions conn' = reactions conn
  /\ responseHeader conn' = responseHeader conn
  /\ validations conn' = validations conn
  /\ outputIt conn' <> None.
Proof. simpl. repeat split. discriminate. Qed.

(** What follows [await universalResponsePromise]: on a rejected
    promise the error is thrown and nothing changes; on a fulfilled one
    the response is validated, once, and [outputIt] is assigned exactly
    when the validation returns. *)
Lemma read_init_effect (conn : StreamingConn I O PlainI AbortSignal)
    (u : Outcome UniversalClientResponse) :
  let conn' := fst (read_init imports opt conn u) in
  universalResponsePromise conn' = universalResponsePromise conn
  /\ reactions conn' = reactions conn
  /\ responseHeader conn' = responseHeader conn
  /\ match u with
     | Throw e =>
         conn' = conn /\ snd (read_init imports opt conn u) = Throw e
     | Return uRes =>
         validations conn' = S (validations conn)
         /\ match validateResponseWithCompression imports
                    (useBinaryFormat opt) (acceptCompression opt)
                    (cres_status uRes) (cres_header uRes) with
            | Throw e =>
                outputIt conn' = outputIt conn
                /\ snd (read_init imports opt conn u) = Throw e
            | Return _ => outputIt conn' <> None
            end
         /\ (outputIt conn = None ->
             (outputIt conn' = None
              <-> exists e,
                    validateResponseWithCompression imports
                      (useBinaryFormat opt) (acceptCompression opt)
                      (cres_status uRes) (cres_header uRes)
                    = Throw e))
     end.
Proof.
  destruct u as [uRes|e]; simpl.
  - destruct (validateResponseWithCompression imports (useBinaryFormat opt)
                (acceptCompression opt) (cres_status uRes)
                (cres_header uRes)) as [[compression foundStatus]|e];
      simpl; repeat split; try discriminate; eauto.
    intros [e He]. discriminate He.
  - repeat split.
Qed.

Lemma suspended_reads_app (rs rs' : list Reaction) :
  suspended_reads (rs ++ rs') = suspended_reads rs + suspended_reads rs'.
Proof.
  unfold suspended_reads. rewrite filter_app, length_app. reflexivity.
Qed.

Lemma step_invariant (l l' : Loop I O PlainI AbortSignal)
    (st : Step I PlainI) :
  loop_invariant imports opt l ->
  step imports opt l st = Some l' ->
  loop_invariant imports opt l'.
Proof.
  destruct l as [[conn reads] jobs].
  unfold loop_invariant, step. simpl.
  intros [Hval Hinv] Hstep.
  destruct st as [[uRes| |m|]|].
  - (* the promise settles *)
    destruct (universalResponsePromise conn) eqn:Hp; try discriminate.
    destruct Hinv as (Hj & Hr & Hit & Hv & Hh & rs & Hrs & Hall).
    inversion Hstep; subst; clear Hstep. simpl.
    split; [exact Hval|].
    destruct uRes as [u|e]; simpl.
    + split; [reflexivity|]. split.
      * intros H. exfalso. apply H. exact Hit.
      * left. repeat split; try assumption. exists rs. rewrite Hrs. auto.
    + repeat split; try assumption.
      * constructor.
      * left. repeat split; try assumption. exists rs. rewrite Hrs. auto.
  - (* read() is called *)
    destruct (outputIt conn) as [it|] eqn:Hit.
    + inversion Hstep; subst; clear Hstep. simpl.
      rewrite length_app. simpl. split; [lia|].
      destruct (universalResponsePromise conn) as [|u|e] eqn:Hp.
      * destruct Hinv as (_ & _ & H & _). discriminate H.
      * destruct Hinv as (Hre & Hsome & Hh). split; [exact Hre|].
        split.
        -- intros _. apply Hsome. discriminate.
        -- right. destruct Hh as [(_ & _ & H & _)|Hh]; [discriminate H|].
           exact Hh.
      * destruct Hinv as (_ & H & _). discriminate H.
    + destruct (universalResponsePromise conn) as [|u|e] eqn:Hp;
        inversion Hstep; subst; clear Hstep; simpl; rewrite ?Hp, ?Hit;
        (split; [exact Hval|]).
      * destruct Hinv as (Hj & Hr & _ & Hv & Hh & rs & Hrs & Hall).
        repeat split; try assumption.
        exists (rs ++ [ResumeRead]). rewrite Hrs. split; [reflexivity|].
        apply Forall_app. split; [exact Hall|]. repeat constructor.
      * destruct Hinv as (Hre & Hsome & Hh). split; [exact Hre|].
        split; [exact Hsome|].
        destruct Hh as [(H1 & H2 & H3 & H4 & rs & Hrs & Hall)|[H1 Hall]].
        -- left. repeat split; try assumption.
           exists (rs ++ [ResumeRead]). rewrite Hrs. split; [reflexivity|].
           apply Forall_app. split; [exact Hall|]. repeat constructor.
        -- right. split; [exact H1|].
           apply Forall_app. split; [exact Hall|]. repeat constructor.
      * destruct Hinv as (Hre & Hn & Hv & Hthrown & Hh).
        repeat split; try assumption.
        destruct Hh as [(H1 & H2 & rs & Hrs & Hall)|[H1 Hall]].
        -- left. repeat split; try assumption.
           exists (rs ++ [ResumeRead]). rewrite Hrs. split; [reflexivity|].
           apply Forall_app. split; [exact Hall|]. repeat constructor.
        -- right. split; [exact H1|].
           apply Forall_app. split; [exact Hall|]. repeat constructor.
  - inversion Hstep; subst; clear Hstep. simpl. split; assumption.
  - inversion Hstep; subst; clear Hstep. simpl. split; assumption.
  - (* a job runs *)
    destruct jobs as [|r rest]; inversion Hstep; subst; clear Hstep;
      cbn [loop_run loop_jobs run_conn run_reads].
    { split; assumption. }
    destruct (universalResponsePromise conn) as [|u|e] eqn:Hp.
    { destruct Hinv as (H & _). discriminate H. }
    + destruct Hinv as (Hre & Hsome & Hh).
      destruct Hh as [(H1 & H2 & H3 & H4 & rs & Hrs & Hall)|[H1 Hall]].
      * inversion Hrs; subst; clear Hrs. simpl. rewrite Hp. simpl.
        split; [exact Hval|]. split; [exact Hre|]. split; [exact Hsome|].
        right. auto.
      * inversion Hall as [|r0 rs0 Hr0 Hall']; subst; clear Hall.
        unfold resume. cbn [run_conn run_reads]. rewrite Hp.
        cbn [run_conn run_reads].
        pose proof (read_init_effect conn (Return u))
          as (Ep & Ere & Eh & Ev & Eo & _).
        rewrite Ep, Ere, Eh, Ev, Hp, length_app. simpl List.length.
        split; [lia|]. split; [exact Hre|]. split.
        -- intros Hnew. split; [lia|].
           destruct (validateResponseWithCompression imports
                       (useBinaryFormat opt) (acceptCompression opt)
                       (cres_status u) (cres_header u))
             as [[compression foundStatus]|e] eqn:Hv.
           ++ eauto.
           ++ destruct Eo as [Eo _]. rewrite Eo in Hnew.
              destruct (Hsome Hnew) as (_ & c & f & H). discriminate H.
        -- right. auto.
    + destruct Hinv as (Hre & Hn & Hv & Hthrown & Hh).
      destruct Hh as [(H1 & H2 & rs & Hrs & Hall)|[H1 Hall]].
      * inversion Hrs; subst; clear Hrs. simpl. rewrite Hp. simpl.
        repeat split; try assumption. right. auto.
      * inversion Hall as [|r0 rs0 Hr0 Hall']; subst; clear Hall.
        simpl. rewrite Hp. simpl. rewrite Hp, length_app. simpl.
        split; [lia|]. repeat split; try assumption.
        -- apply Forall_app. split; [exact Hthrown|]. repeat constructor.
        -- right. auto.
Qed.

Lemma steps_invariant (sts : list (Step I PlainI)) :
  forall l l' : Loop I O PlainI AbortSignal,
    loop_invariant imports opt l ->
    steps imports opt l sts = Some l' ->
    loop_invariant imports opt l'.
Proof.
  induction sts as [|st sts IH]; intros l l' Hinv Hsteps; simpl in Hsteps.
  - inversion Hsteps; subst. exact Hinv.
  - destruct (step imports opt l st) as [l1|] eqn:E; [|discriminate].
    apply (IH l1 l'); [|exact Hsteps].
    apply (step_invariant l l1 st); assumption.
Qed.

(** Once settled, the promise of the client stays as it is. *)
Lemma step_settled (l l' : Loop I O PlainI AbortSignal)
    (st : Step I PlainI) :
  step imports opt l st = Some l' ->
  universalResponsePromise (run_conn (loop_run l)) <> Pending ->
  universalResponsePromise (run_conn (loop_run l'))
  = universalResponsePromise (run_conn (loop_run l)).
Proof.
  destruct l as [[conn reads] jobs]. unfold step. simpl.
  intros Hstep Hp.
  destruct st as [[uRes| |m|]|].
  - destruct (universalResponsePromise conn); try discriminate.
    contradiction.
  - destruct (outputIt conn) as [it|].
    + inversion Hstep; subst; clear Hstep. reflexivity.
    + destruct (universalResponsePromise conn) eqn:E; [contradiction| |];
        inversion Hstep; subst; clear Hstep; simpl; exact E.
  - inversion Hstep; subst; clear Hstep. reflexivity.
  - inversion Hstep; subst; clear Hstep. reflexivity.
  - destruct jobs as [|r rest]; inversion Hstep; subst; clear Hstep;
      [reflexivity|].
    cbn [loop_run run_conn]. destruct r; [reflexivity|].
    unfold resume. cbn [run_conn].
    destruct (universalResponsePromise conn) as [|u|e] eqn:E;
      [contradiction| |]; cbn [run_conn].
    + pose proof (read_init_effect conn (Return u)) as (Ep & _).
      rewrite Ep. exact E.
    + simpl. exact E.
Qed.

Lemma steps_rejected (sts : list (Step I PlainI)) :
  forall (l l' : Loop I O PlainI AbortSignal) (e : ConnectError),
    steps imports opt l sts = Some l' ->
    universalResponsePromise (run_conn (loop_run l)) = Rejected e ->
    universalResponsePromise (run_conn (loop_run l')) = Rejected e.
Proof.
  induction sts as [|st sts IH]; intros l l' e Hsteps Hp; simpl in Hsteps.
  - inversion Hsteps; subst. exact Hp.
  - destruct (step imports opt l st) as [l1|] eqn:E; [|discriminate].
    apply (IH l1 l' e Hsteps).
    rewrite (step_settled l l1 st E); [exact Hp|].
    rewrite Hp. discriminate.
Qed.

(** Each step keeps the account: a call of [read()] that finds no
    iterator starts to wait, and a waiting call that resumes on a
    fulfilled promise validates. *)
Lemma suspended_reads_cons (r : Reaction) (rs : list Reaction) :
  suspended_reads (r :: rs)
  = match r with ResumeRead => 1 | ThenHeader => 0 end + suspended_reads rs.
Proof. destruct r; reflexivity. Qed.

Ltac count_suspended :=
  repeat (rewrite suspended_reads_app || rewrite suspended_reads_cons);
  change (@suspended_reads nil) with 0 in *; simpl app; lia.

Lemma step_account (l l' : Loop I O PlainI AbortSignal)
    (st : Step I PlainI) :
  loop_invariant imports opt l ->
  step imports opt l st = Some l' ->
  (forall e, universalResponsePromise (run_conn (loop_run l')) <> Rejected e) ->
  validations (run_conn (loop_run l')) + waiting l'
  = validations (run_conn (loop_run l)) + waiting l + blind l st.
Proof.
  destruct l as [[conn reads] jobs].
  unfold loop_invariant, step, waiting, blind.
  cbn -[suspended_reads read_init].
  intros [Hval Hinv] Hstep Hnot.
  destruct st as [[uRes| |m|]|].
  - destruct (universalResponsePromise conn) eqn:Hp; try discriminate.
    destruct Hinv as (Hj & _).
    inversion Hstep; subst; clear Hstep. cbn -[suspended_reads].
    count_suspended.
  - destruct (outputIt conn) as [it|] eqn:Hit.
    + inversion Hstep; subst; clear Hstep. cbn -[suspended_reads]. lia.
    + destruct (universalResponsePromise conn) as [|u|e] eqn:Hp;
        inversion Hstep; subst; clear Hstep; cbn -[suspended_reads];
        count_suspended.
  - inversion Hstep; subst; clear Hstep. cbn -[suspended_reads]. lia.
  - inversion Hstep; subst; clear Hstep. cbn -[suspended_reads]. lia.
  - destruct jobs as [|r rest]; inversion Hstep; subst; clear Hstep;
      cbn [loop_run loop_jobs run_conn run_reads] in *.
    { lia. }
    destruct r.
    + cbn -[suspended_reads]. count_suspended.
    + unfold resume in *. cbn [run_conn run_reads] in *.
      destruct (universalResponsePromise conn) as [|u|e] eqn:Hp.
      * destruct Hinv as (H & _). discriminate H.
      * cbn [run_conn run_reads] in *.
        pose proof (read_init_effect conn (Return u))
          as (Ep & Ere & Eh & Ev & Eo & _).
        rewrite Ere, Ev. count_suspended.
      * exfalso. cbn [run_conn] in Hnot. simpl in Hnot.
        apply (Hnot e). exact Hp.
Qed.

Lemma steps_account (sts : list (Step I PlainI)) :
  forall l l' : Loop I O PlainI AbortSignal,
    loop_invariant imports opt l ->
    steps imports opt l sts = Some l' ->
    (forall e,
       universalResponsePromise (run_conn (loop_run l')) <> Rejected e) ->
    validations (run_conn (loop_run l')) + waiting l'
    = validations (run_conn (loop_run l)) + waiting l
      + blind_reads imports opt l sts.
Proof.
  induction sts as [|st sts IH]; intros l l' Hinv Hsteps Hnot;
    simpl in Hsteps; simpl blind_reads.
  - inversion Hsteps; subst. lia.
  - destruct (step imports opt l st) as [l1|] eqn:E; [|discriminate].
    assert (Hnot1 : forall e,
               universalResponsePromise (run_conn (loop_run l1))
               <> Rejected e).
    { intros e He. apply (Hnot e).
      exact (steps_rejected sts l1 l' e Hsteps He). }
    rewrite (IH l1 l' (step_invariant l l1 st Hinv E) Hsteps Hnot).
    rewrite (step_account l l1 st Hinv E Hnot1). lia.
Qed.

Lemma no_read_no_blind (sts : list (Step I PlainI)) :
  forall l : Loop I O PlainI AbortSignal,
    ~ In (Happens CallRead) sts ->
    blind_reads imports opt l sts = 0.
Proof.
  induction sts as [|st sts IH]; intros l Hno; simpl; [reflexivity|].
  destruct (step imports opt l st) as [l1|]; [|reflexivity].
  rewrite IH by (intros H; apply Hno; right; exact H).
  unfold blind. destruct st as [[uRes| |m|]|]; try reflexivity.
  exfalso. apply Hno. left. reflexivity.
Qed.

Lemma stream_next_loop_invariant
    (serialization : MethodSerializationLookup I O)
    (req : StreamingRequest I PlainI AbortSignal)
    (conn : StreamingConn I O PlainI AbortSignal) :
  stream_next serialization req = Return conn ->
  loop_invariant imports opt (mkLoop (mkRun conn []) []).
Proof.
  intros H. inversion H; subst; clear H. unfold loop_invariant. simpl.
  repeat split; try lia. exists []. split; [reflexivity|constructor].
Qed.

(** *** The caller that awaits each call, job by job *)

Lemma steps_app (sts sts' : list (Step I PlainI)) :
  forall l : Loop I O PlainI AbortSignal,
    steps imports opt l (sts ++ sts')
    = match steps imports opt l sts with
      | Some l' => steps imports opt l' sts'
      | None => None
      end.
Proof.
  induction sts as [|st sts IH]; intros l; simpl; [reflexivity|].
  destruct (step imports opt l st) as [l1|]; [apply IH|reflexivity].
Qed.

(** One more thing holds of the connection of a caller that awaits
    each call: at most one [read()] is registered on the client's
    promise, behind the [.then] of [responseHeader]. *)
Lemma one_suspended_read (rs : list Reaction) :
  Forall (fun r => r = ResumeRead) rs ->
  has_suspended_read (ThenHeader :: rs) = false ->
  rs = [].
Proof.
  intros Hall H. destruct Hall as [|r rs -> _]; [reflexivity|].
  discriminate H.
Qed.

(** A resumed [read()] that still finds no iterator does what a
    [read()] called then would do. *)
Lemma resume_read (s : Run I O PlainI AbortSignal) :
  outputIt (run_conn s) = None ->
  universalResponsePromise (run_conn s) <> Pending ->
  resume imports opt s ResumeRead = run_reaction imports opt s ResumeRead
  /\ reactions (run_conn (resume imports opt s ResumeRead))
     = reactions (run_conn s).
Proof.
  intros Hit Hp. unfold resume, run_reaction, read. rewrite Hit.
  destruct (universalResponsePromise (run_conn s)) as [|u|e];
    [contradiction| |].
  - pose proof (read_init_effect (run_conn s) (Return u))
      as (_ & Hre & _).
    cbn [run_conn]. split; [|exact Hre].
    destruct (read_init imports opt (run_conn s) (Return u)). reflexivity.
  - split; reflexivity.
Qed.

(** A [read()] called with no job queued, and the jobs it leaves. *)
Lemma call_read_steps (conn : StreamingConn I O PlainI AbortSignal)
    (reads : list (Outcome ReadableStreamReadResultLike)) :
  steps imports opt (mkLoop (mkRun conn reads) [])
    [Happens CallRead; Job; Job]
  = match read imports opt conn with
    | Some (conn', r) => Some (mkLoop (mkRun conn' (reads ++ [r])) [])
    | None =>
        Some (mkLoop
                (mkRun
                   (set_response conn (universalResponsePromise conn)
                      (reactions conn ++ [ResumeRead]))
                   reads)
                [])
    end.
Proof.
  unfold steps, step, read.
  cbn [loop_run loop_jobs run_conn run_reads].
  destruct (outputIt conn) as [it|] eqn:Hit.
  - cbn [loop_run loop_jobs run_conn run_reads].
    destruct (read_next imports conn it). reflexivity.
  - destruct (universalResponsePromise conn) as [|u|e] eqn:Hp;
      cbn [app loop_run loop_jobs run_conn run_reads].
    + reflexivity.
    + unfold resume. cbn [run_conn run_reads]. rewrite Hp.
      destruct (read_init imports opt conn (Return u)). reflexivity.
    + unfold resume. cbn [run_conn run_reads]. rewrite Hp.
      destruct (read_init imports opt conn (Throw e)). reflexivity.
Qed.

(** A step of the caller that awaits each call is an event of the
    connection followed by the jobs it leaves. *)
Lemma exec_is_steps (s s' : Run I O PlainI AbortSignal)
    (ev : Event I PlainI) :
  run_invariant s ->
  List.length (reactions (run_conn s)) <= 2 ->
  exec imports opt s ev = Some s' ->
  steps imports opt (mkLoop s []) [Happens ev; Job; Job]
  = Some (mkLoop s' [])
  /\ List.length (reactions (run_conn s')) <= 2.
Proof.
  destruct s as [conn reads]. intros [Hval Hinv] Hlen Hex.
  cbn [run_conn run_reads] in *.
  destruct ev as [uRes| |m|].
  - unfold exec, steps, step in *.
    cbn [loop_run loop_jobs run_conn run_reads] in *.
    destruct (universalResponsePromise conn) eqn:Hp; try discriminate Hex.
    destruct Hinv as (_ & Hit & _ & rs & Hrs & Hall).
    inversion Hex; subst; clear Hex. rewrite Hrs in *.
    cbn [app fold_left loop_run loop_jobs run_conn run_reads].
    change (resume imports opt ?x ThenHeader)
      with (run_reaction imports opt x ThenHeader).
    destruct Hall as [|r rs -> Hall].
    + split; [reflexivity|]. simpl. lia.
    + destruct Hall as [|r' rs' _ _]; [|simpl in Hlen; lia].
      cbn [fold_left loop_run loop_jobs].
      match goal with
      | |- context [resume imports opt ?x ResumeRead] =>
          destruct (resume_read x) as [Heq Hre]
      end.
      * simpl. exact Hit.
      * simpl. destruct uRes; discriminate.
      * rewrite <- Heq. split; [reflexivity|]. rewrite Hre. simpl. lia.
  - rewrite call_read_steps. unfold exec in Hex.
    cbn [run_conn run_reads] in Hex.
    destruct (has_suspended_read (reactions conn)) eqn:Hs;
      [discriminate Hex|].
    destruct (read imports opt conn) as [[conn' r]|] eqn:Hread;
      inversion Hex; subst; clear Hex; (split; [reflexivity|]);
      cbn [run_conn].
    + pose proof (read_effect imports opt _ _ _ Hread) as (_ & H & _).
      rewrite H. exact Hlen.
    + unfold read in Hread.
      destruct (outputIt conn); [discriminate|].
      destruct (universalResponsePromise conn) eqn:Hp; try discriminate.
      destruct Hinv as (_ & _ & _ & rs & Hrs & Hall).
      rewrite Hrs in Hs. rewrite (one_suspended_read rs Hall Hs) in Hrs.
      simpl. rewrite Hrs. simpl. lia.
  - unfold exec, steps, step in *.
    cbn [loop_run loop_jobs run_conn run_reads] in *.
    destruct (writable_closed conn); [discriminate Hex|].
    inversion Hex; subst; clear Hex. split; [reflexivity|exact Hlen].
  - unfold exec, steps, step in *.
    cbn [loop_run loop_jobs run_conn run_reads] in *.
    inversion Hex; subst; clear Hex. split; [reflexivity|exact Hlen].
Qed.

(** So every run of [execs] is a run of the connection job by job. *)
Lemma execs_are_steps (evs : list (Event I PlainI)) :
  forall s s' : Run I O PlainI AbortSignal,
    run_invariant s ->
    List.length (reactions (run_conn s)) <= 2 ->
    execs imports opt s evs = Some s' ->
    steps imports opt (mkLoop s []) (awaited evs) = Some (mkLoop s' []).
Proof.
  induction evs as [|ev evs IH]; intros s s' Hinv Hlen Hex; simpl in Hex.
  - inversion Hex; subst. reflexivity.
  - destruct (exec imports opt s ev) as [s1|] eqn:E; [|discriminate].
    destruct (exec_is_steps s s1 ev Hinv Hlen E) as [Hsteps Hlen1].
    change (awaited (ev :: evs))
      with ([Happens ev; Job; Job] ++ awaited evs).
    rewrite steps_app, Hsteps.
    apply IH; [|exact Hlen1|exact Hex].
    apply (exec_invariant imports opt s s1 ev); assumption.
Qed.

(** On a connection as [stream] returns it, the caller that awaits
    each call takes the steps of its events, each followed by the jobs
    it leaves. *)
Lemma stream_execs_are_steps
    (serialization : MethodSerializationLookup I O)
    (req : StreamingRequest I PlainI AbortSignal)
    (conn : StreamingConn I O PlainI AbortSignal)
    (evs : list (Event I PlainI)) (s : Run I O PlainI AbortSignal) :
  stream_next serialization req = Return conn ->
  execs imports opt (mkRun conn []) evs = Some s ->
  steps imports opt (mkLoop (mkRun conn []) []) (awaited evs)
  = Some (mkLoop s []).
Proof.
  intros Hnew Hex.
  apply execs_are_steps; [|inversion Hnew; subst; simpl; lia|exact Hex].
  exact (stream_next_invariant serialization req conn Hnew).
Qed.

(** [n] calls of [read()], each awaited, on a response that is there:
    they validate [n] times while validation throws, once when it
    returns, and not at all when an iterator exists; they leave no
    iterator exactly when there was none and validation throws. *)
Lemma awaited_reads (uRes : UniversalClientResponse) (n : nat) :
  forall (conn : StreamingConn I O PlainI AbortSignal)
         (reads : list (Outcome ReadableStreamReadResultLike)),
    universalResponsePromise conn = Fulfilled uRes ->
    exists (conn' : StreamingConn I O PlainI AbortSignal)
           (reads' : list (Outcome ReadableStreamReadResultLike)),
      steps imports opt (mkLoop (mkRun conn reads) [])
        (awaited (repeat CallRead n))
      = Some (mkLoop (mkRun conn' reads') [])
      /\ validations conn'
         = validations conn
           + match outputIt conn,
                   validateResponseWithCompression imports
                     (useBinaryFormat opt) (acceptCompression opt)
                     (cres_status uRes) (cres_header uRes) with
             | Some _, _ => 0
             | None, Throw _ => n
             | None, Return _ => Nat.min n 1
             end
      /\ (outputIt conn' = None
          <-> outputIt conn = None
              /\ (n = 0
                  \/ exists e,
                       validateResponseWithCompression imports
                         (useBinaryFormat opt) (acceptCompression opt)
                         (cres_status uRes) (cres_header uRes)
                       = Throw e)).
Proof.
  induction n as [|n IH]; intros conn reads Hp.
  - exists conn, reads. split; [reflexivity|].
    split.
    + destruct (outputIt conn);
        [|destruct (validateResponseWithCompression imports _ _ _ _)
            as [[? ?]|?]]; simpl; lia.
    + split; [auto|tauto].
  - change (awaited (repeat CallRead (S n)))
      with ([Happens CallRead; Job; Job]
            ++ awaited (I := I) (PlainI := PlainI) (repeat CallRead n)).
    rewrite steps_app, call_read_steps. unfold read. rewrite Hp.
    destruct (outputIt conn) as [it|] eqn:Hit.
    + pose proof (read_next_effect conn it) as (Ep & _ & _ & Ev & Eo).
      destruct (read_next imports conn it) as [conn1 r] eqn:Hnext.
      cbn [fst] in *.
      destruct (IH conn1 (reads ++ [r])) as (conn' & reads' & Hs & Hv & Ho).
      { rewrite Ep. exact Hp. }
      exists conn', reads'. split; [exact Hs|].
      destruct (outputIt conn1) as [it1|] eqn:Hit1; [|contradiction].
      split; [lia|].
      split; [intros H; apply Ho in H; destruct H as [H _]; discriminate H|].
      intros [H _]. discriminate H.
    + pose proof (read_init_effect conn (Return uRes))
        as (Ep & _ & _ & Ev & Eo & Eiff).
      destruct (read_init imports opt conn (Return uRes)) as [conn1 r]
        eqn:Hinit.
      cbn [fst snd] in *.
      destruct (IH conn1 (reads ++ [r])) as (conn' & reads' & Hs & Hv & Ho).
      { rewrite Ep. exact Hp. }
      exists conn', reads'. split; [exact Hs|].
      specialize (Eiff Hit).
      destruct (validateResponseWithCompression imports
                  (useBinaryFormat opt) (acceptCompression opt)
                  (cres_status uRes) (cres_header uRes))
        as [[compression foundStatus]|e] eqn:Hval.
      * destruct (outputIt conn1) as [it1|] eqn:Hit1; [|contradiction].
        split; [rewrite Hv, Ev; destruct n; simpl; lia|].
        split.
        -- intros H. apply Ho in H. destruct H as [H _]. discriminate H.
        -- intros [_ [H|[e He]]]; [discriminate H|discriminate He].
      * destruct Eo as [Eo _]. rewrite Hit in Eo. rewrite Eo in Hv, Ho.
        split; [rewrite Hv, Ev; lia|].
        split; [intros _|intros _; apply Ho]; eauto.
Qed.

(** C10, as the code has it.  [stream] returns the connection without
    awaiting the HTTP response and without validating anything.
    Whatever the caller does next, in whatever order the calls and the
    jobs come: a call of [read()] that finds no iterator waits for the
    response, and validates it when it resumes; nothing else validates.
    So on a fulfilled response the validations made and the calls still
    waiting add up to the calls of [read()] that found no iterator, a
    rejected request is never validated, and a connection on which
    [read] is never called never validates.  An iterator exists only
    once a validation has returned: while validation throws, every call
    of [read()] finds none and validates again.  [responseHeader] is
    fulfilled with the headers of the response as they are, before the
    first validation and whatever validation says of them.  For a caller
    that, with no call waiting, makes [n] calls of [read()] and awaits
    each: they validate [n] times when no iterator exists and validation
    throws, once when none exists and validation returns, and not at
    all when an iterator exists. *)
Theorem validation_only_inside_read
    (serialization : MethodSerializationLookup I O)
    (req : StreamingRequest I PlainI AbortSignal)
    (conn : StreamingConn I O PlainI AbortSignal)
    (sts : list (Step I PlainI)) (l : Loop I O PlainI AbortSignal) :
  stream_next serialization req = Return conn ->
  steps imports opt (mkLoop (mkRun conn []) []) sts = Some l ->
  let c := run_conn (loop_run l) in
  (universalResponsePromise conn = Pending /\ validations conn = 0
   /\ outputIt conn = None)
  /\ validations c <= List.length (run_reads (loop_run l))
  /\ (~ In (Happens CallRead) sts -> validations c = 0)
  /\ match universalResponsePromise c with
     | Pending =>
         validations c = 0 /\ outputIt c = None
         /\ waiting l
            = blind_reads imports opt (mkLoop (mkRun conn []) []) sts
     | Rejected e => validations c = 0 /\ outputIt c = None
     | Fulfilled uRes =>
         validations c + waiting l
         = blind_reads imports opt (mkLoop (mkRun conn []) []) sts
         /\ (responseHeader c = Fulfilled (cres_header uRes)
             \/ (validations c = 0
                 /\ exists rest, loop_jobs l = ThenHeader :: rest))
         /\ (outputIt c <> None ->
             1 <= validations c
             /\ exists compression foundStatus,
                  validateResponseWithCompression imports
                    (useBinaryFormat opt) (acceptCompression opt)
                    (cres_status uRes) (cres_header uRes)
                  = Return (compression, foundStatus))
         /\ (forall e,
               validateResponseWithCompression imports
                 (useBinaryFormat opt) (acceptCompression opt)
                 (cres_status uRes) (cres_header uRes)
               = Throw e ->
               outputIt c = None)
         /\ (forall n,
               loop_jobs l = [] ->
               exists l',
                 steps imports opt l (awaited (repeat CallRead n)) = Some l'
                 /\ validations (run_conn (loop_run l'))
                    = validations c
                      + match outputIt c,
                              validateResponseWithCompression imports
                                (useBinaryFormat opt) (acceptCompression opt)
                                (cres_status uRes) (cres_header uRes) with
                        | Some _, _ => 0
                        | None, Throw _ => n
                        | None, Return _ => Nat.min n 1
                        end
                 /\ (outputIt (run_conn (loop_run l')) = None
                     <-> outputIt c = None
                         /\ (n = 0
                             \/ exists e,
                                  validateResponseWithCompression imports
                                    (useBinaryFormat opt)
                                    (acceptCompression opt)
                                    (cres_status uRes) (cres_header uRes)
                                  = Throw e)))
     end.
Proof.
  intros Hnew Hsteps. cbv zeta.
  pose proof (stream_next_loop_invariant serialization req conn Hnew)
    as Hinv0.
  pose proof (steps_invariant sts _ _ Hinv0 Hsteps) as [Hval Hinv].
  assert (Hstart : validations conn = 0
                   /\ waiting (mkLoop (mkRun conn []) []) = 0).
  { inversion Hnew; subst. split; reflexivity. }
  destruct Hstart as [Hv0 Hw0].
  assert (Hacc : (forall e,
                    universalResponsePromise (run_conn (loop_run l))
                    <> Rejected e) ->
                 validations (run_conn (loop_run l)) + waiting l
                 = blind_reads imports opt (mkLoop (mkRun conn []) []) sts).
  { intros Hnot.
    rewrite (steps_account sts _ _ Hinv0 Hsteps Hnot).
    cbn [loop_run run_conn]. rewrite Hv0, Hw0. reflexivity. }
  split; [inversion Hnew; subst; simpl; auto|].
  split; [exact Hval|].
  split.
  - intros Hno.
    destruct (universalResponsePromise (run_conn (loop_run l)))
      as [|u|e] eqn:Hp.
    + tauto.
    + rewrite (no_read_no_blind sts _ Hno) in Hacc.
      assert (H : validations (run_conn (loop_run l)) + waiting l = 0)
        by (apply Hacc; intros e; discriminate).
      lia.
    + tauto.
  - destruct (universalResponsePromise (run_conn (loop_run l)))
      as [|u|e] eqn:Hp.
    + destruct Hinv as (_ & _ & Hit & Hv & _).
      split; [exact Hv|]. split; [exact Hit|].
      rewrite <- Hacc by (intros e; discriminate). lia.
    + destruct Hinv as (Hre & Hsome & Hh).
      split; [apply Hacc; intros e; discriminate|].
      split.
      { destruct Hh as [(_ & Hv & _ & _ & rs & Hrs & _)|[Hh _]].
        - right. split; [exact Hv|]. exists rs. exact Hrs.
        - left. exact Hh. }
      split; [exact Hsome|].
      split.
      { intros e He.
        destruct (outputIt (run_conn (loop_run l))) as [it|] eqn:Hit;
          [|reflexivity].
        destruct Hsome as (_ & comp & f & H); [discriminate|].
        rewrite He in H. discriminate H. }
      intros n Hjobs.
      destruct l as [[conn1 reads] jobs]. simpl in Hjobs. subst jobs.
      cbn [loop_run run_conn] in *.
      destruct (awaited_reads u n conn1 reads Hp)
        as (conn' & reads' & Hs & Hv & Ho).
      exists (mkLoop (mkRun conn' reads') []). auto.
    + destruct Hinv as (_ & Hit & Hv & _). auto.
Qed.

End LoopFacts.

(** ** The pipelines of a call *)

Section PipelineFacts.

Context {I O PlainI : Type}.
Context {BinaryOptions JsonOptions AbortSignal NodeHttpOptions : Type}.
Variable imports :
  Imports I O PlainI BinaryOptions JsonOptions AbortSignal NodeHttpOptions.
Variable options :
  GrpcWebTransportOptions I O PlainI BinaryOptions JsonOptions AbortSignal
    NodeHttpOptions.
Variable opt : NodeTransportOptions AbortSignal.
Variable service : ServiceType.
Variable method : MethodInfo I PlainI.
Variable serialization : MethodSerializationLookup I O.
Variable signal : option AbortSignal.
Variable timeoutMs : option Z.
Variable header : option Headers.

(** Without interceptors, [unary] is its call function on its
    request, and [stream] returns the connection of its call function. *)
Lemma unary_without_interceptors (message : PartialMessage I PlainI) :
  interceptors options = None \/ interceptors options = Some [] ->
  unary imports options opt service method signal timeoutMs header message
  = unary_next imports opt service method
      (createMethodSerializationLookup imports method
         (binaryOptions options) (jsonOptions options))
      (unary_request imports options opt service method signal timeoutMs
         header message).
Proof.
  intros H. unfold unary, runUnary, applyInterceptors.
  destruct H as [-> | ->]; reflexivity.
Qed.

Lemma stream_without_interceptors :
  interceptors options = None \/ interceptors options = Some [] ->
  stream imports options opt service method signal timeoutMs header
  = stream_next
      (createMethodSerializationLookup imports method
         (binaryOptions options) (jsonOptions options))
      (stream_request imports options opt service method signal timeoutMs
         header).
Proof.
  intros H. unfold stream, runStreaming, applyInterceptors.
  destruct H as [-> | ->]; reflexivity.
Qed.

(** C7.  The request body handed to the HTTP client is the request
    pipeline of the specification (normalize, serialize, compress, join,
    in this order) over the one message of a unary call, respectively
    over what is written to a streaming call; the response body is
    consumed through the response pipeline of the specification (split,
    decompress, parse, in this order): its output is what the unary sink
    collects, and what the iterator behind [read()] is created over. *)
Theorem pipelines_in_order :
  (forall message,
     creq_body
       (unary_client_request imports opt serialization
          (unary_request imports options opt service method signal
             timeoutMs header message))
     = spec_request_pipeline imports opt method serialization
         (createAsyncIterable [message]))
  /\ (forall req written,
        creq_body
          (stream_client_request imports opt method serialization req
             written)
        = spec_request_pipeline imports opt method serialization
            (writable_iterable written))
  /\ (forall req,
        unary_next imports opt service method serialization req
        = (universalResponse <-
             client opt (unary_client_request imports opt serialization req) ;;
           found <-
             validateResponseWithCompression imports (useBinaryFormat opt)
               (acceptCompression opt) (cres_status universalResponse)
               (cres_header universalResponse) ;;
           collected <-
             unary_sink
               (spec_response_pipeline imports opt serialization (fst found)
                  (cres_body universalResponse)) ;;
           unary_finish imports service method universalResponse collected))
  /\ (forall (conn : StreamingConn I O PlainI AbortSignal) uRes,
        read_init imports opt conn (Return uRes)
        = match validateResponseWithCompression imports (useBinaryFormat opt)
                  (acceptCompression opt) (cres_status uRes)
                  (cres_header uRes) with
          | Throw e => (count_validation conn, Throw e)
          | Return (compression, foundStatus) =>
              let it :=
                {| gen_foundStatus := foundStatus;
                   gen_state := GenStart;
                   gen_iterable :=
                     spec_response_pipeline imports opt
                       (conn_serialization conn) compression
                       (cres_body uRes) |} in
              read_next imports
                (set_outputIt (count_validation conn) it
                   (responseTrailer conn))
                it
          end).
Proof.
  split; [|split; [|split]].
  - intros [m|p]; reflexivity.
  - reflexivity.
  - intros req. unfold unary_next.
    destruct (client opt (unary_client_request imports opt serialization req))
      as [u|e]; [|reflexivity]. simpl.
    destruct (validateResponseWithCompression imports (useBinaryFormat opt)
                (acceptCompression opt) (cres_status u) (cres_header u))
      as [[compression foundStatus]|e]; reflexivity.
  - intros conn uRes. unfold read_init.
    destruct (validateResponseWithCompression imports (useBinaryFormat opt)
                (acceptCompression opt) (cres_status uRes)
                (cres_header uRes))
      as [[compression foundStatus]|e]; reflexivity.
Qed.

(** C8.  The message of a unary request is the input itself when it
    is an instance of the input class, and the input constructor
    applied to it otherwise; this message is what the request body
    serializes.  The body of a streaming request serializes each
    written message normalized the same way, so that writing one
    message gives the body of the unary call with that message. *)
Theorem input_normalized_before_serialization :
  (forall m : I,
     ureq_message
       (unary_request imports options opt service method signal timeoutMs
          header (Instance m)) = m)
  /\ (forall p : PlainI,
        ureq_message
          (unary_request imports options opt service method signal
             timeoutMs header (Plain p)) = method_I method p)
  /\ (forall message,
        creq_body
          (unary_client_request imports opt serialization
             (unary_request imports options opt service method signal
                timeoutMs header message))
        = transformJoinEnvelopes imports
            (transformCompressEnvelope imports (sendCompression opt)
               (compressMinBytes opt)
               (transformSerializeEnvelope imports
                  (getI serialization (useBinaryFormat opt))
                  (writeMaxBytes opt)
                  (createAsyncIterable
                     [ureq_message
                        (unary_request imports options opt service method
                           signal timeoutMs header message)]))))
  /\ (forall req written,
        creq_body
          (stream_client_request imports opt method serialization req
             written)
        = transformJoinEnvelopes imports
            (transformCompressEnvelope imports (sendCompression opt)
               (compressMinBytes opt)
               (transformSerializeEnvelope imports
                  (getI serialization (useBinaryFormat opt))
                  (writeMaxBytes opt)
                  (createAsyncIterable
                     (map (fun message =>
                             ureq_message
                               (unary_request imports options opt service
                                  method signal timeoutMs header message))
                        written)))))
  /\ (forall req message,
        creq_body
          (stream_client_request imports opt method serialization req
             [message])
        = creq_body
            (unary_client_request imports opt serialization
               (unary_request imports options opt service method signal
                  timeoutMs header message))).
Proof.
  split; [|split; [|split; [|split]]].
  - intros m. reflexivity.
  - intros p. reflexivity.
  - intros message. reflexivity.
  - intros req written. unfold stream_client_request, pipe. simpl.
    unfold transformNormalizeMessage, createAsyncIterable. simpl.
    do 4 f_equal.
  - intros req message. reflexivity.
Qed.

End PipelineFacts.

(** ** Trailers-only responses to a unary call *)

Section TrailersOnlyFacts.

Context {I O PlainI : Type}.
Context {BinaryOptions JsonOptions AbortSignal NodeHttpOptions : Type}.
Variable imports :
  Imports I O PlainI BinaryOptions JsonOptions AbortSignal NodeHttpOptions.
Variable opt : NodeTransportOptions AbortSignal.
Variable statusText : Z -> string.
Variable decodeURIComponent : string -> string.
Variable decodeDetails : string -> list Any.

Lemma grpc_status_present (headers : Headers) (n : N) :
  grpc_status headers = Some n -> Headers_has headers "grpc-status" = true.
Proof.
  unfold grpc_status, Headers_has.
  destruct (Headers_get headers "grpc-status"); [reflexivity|discriminate].
Qed.

(** The validator on a head that passes the checks of the HTTP
    status, the content type and the encoding, and carries a status. *)
Lemma validate_trailers_only (httpStatus : Z) (headers : Headers)
    (compression : option Compression) (n : N) :
  httpStatus = 200%Z ->
  content_type_matches (useBinaryFormat opt)
    (Headers_get headers "content-type") = true ->
  negotiated_compression (acceptCompression opt) headers
  = Return compression ->
  grpc_status headers = Some n ->
  validateResponseWithCompression_spec statusText decodeURIComponent
    decodeDetails (useBinaryFormat opt) (acceptCompression opt) httpStatus
    headers
  = match ErrorCode_of_value n with
    | None => Return (compression, true)
    | Some c => Throw (mapped_error decodeURIComponent decodeDetails c headers)
    end.
Proof.
  intros -> Hct Hc Hs. unfold validateResponseWithCompression_spec.
  simpl. rewrite Hct. simpl. rewrite Hc. simpl.
  rewrite (grpc_status_present headers n Hs).
  unfold validateTrailer_spec. rewrite Hs.
  destruct (ErrorCode_of_value n); reflexivity.
Qed.

(** C4, as the code has it.  A unary call never looks at
    [foundStatus]: when validation passes (as it does on a trailers-only
    head with [grpc-status] 0) and the decoded body is empty, the call
    throws InvalidArgument "protocol error: missing trailer".  When the
    head passes the checks of the HTTP status, the content type and the
    encoding, and carries a non-zero [grpc-status], validation throws
    the error of that status and so does the call. *)
Theorem unary_trailers_only (service : ServiceType)
    (method : MethodInfo I PlainI)
    (serialization : MethodSerializationLookup I O)
    (req : UnaryRequest I PlainI AbortSignal)
    (universalResponse : UniversalClientResponse) :
  validateResponseWithCompression imports
  = validateResponseWithCompression_spec statusText decodeURIComponent
      decodeDetails ->
  client opt (unary_client_request imports opt serialization req)
  = Return universalResponse ->
  cres_status universalResponse = 200%Z ->
  content_type_matches (useBinaryFormat opt)
    (Headers_get (cres_header universalResponse) "content-type") = true ->
  forall compression n,
    negotiated_compression (acceptCompression opt)
      (cres_header universalResponse) = Return compression ->
    grpc_status (cres_header universalResponse) = Some n ->
    (n = 0%N ->
     validateResponseWithCompression imports (useBinaryFormat opt)
       (acceptCompression opt) (cres_status universalResponse)
       (cres_header universalResponse) = Return (compression, true)
     /\ (spec_response_pipeline imports opt serialization compression
           (cres_body universalResponse)
         = {| chunks := []; failure := None |} ->
         unary_next imports opt service method serialization req
         = Throw missing_trailer))
    /\ (n <> 0%N ->
        exists c,
          ErrorCode_of_value n = Some c
          /\ unary_next imports opt service method serialization req
             = Throw (mapped_error decodeURIComponent decodeDetails c
                        (cres_header universalResponse))).
Proof.
  intros Hspec Hclient Hst Hct compression n Hc Hs.
  pose proof (validate_trailers_only (cres_status universalResponse)
                (cres_header universalResponse) compression n Hst Hct Hc Hs)
    as Hv.
  rewrite <- Hspec in Hv.
  split.
  - intros ->. simpl in Hv. split; [exact Hv|].
    intros Hbody. unfold unary_next. rewrite Hclient. simpl. rewrite Hv.
    simpl. unfold pipeTo.
    change (chain (response_transforms imports opt serialization
                     compression) (cres_body universalResponse))
      with (spec_response_pipeline imports opt serialization compression
              (cres_body universalResponse)).
    rewrite Hbody. reflexivity.
  - intros Hn. destruct (ErrorCode_of_value_nonzero n Hn) as [c Hcode].
    exists c. split; [exact Hcode|].
    rewrite Hcode in Hv. unfold unary_next. rewrite Hclient. simpl.
    rewrite Hv. reflexivity.
Qed.

End TrailersOnlyFacts.

(** ** The worked instance *)

Module FixtureFacts.

Import Fixture.

Example answered_is_reached (res : UniversalClientResponse) :
  session (Return res) [] [] = Some (mkRun (answered res) []).
Proof. reflexivity. Qed.

Example transport_of_options (res : Outcome UniversalClientResponse) :
  exists t,
    createGrpcWebTransport imports (options res) = Return t
    /\ transport_unary t service method None None None = call res
    /\ transport_stream t service method None None None
       = Return (fresh res).
Proof. eexists. split; [reflexivity|]. split; reflexivity. Qed.

Example stream_returns_fresh (res : Outcome UniversalClientResponse) :
  stream imports (options res) (opt res) service method None None None
  = Return (fresh res).
Proof. reflexivity. Qed.

(** Scenario: one message envelope, one trailer envelope, status 0. *)
Example happy_path_unary :
  exists res,
    call (Return (response 200 grpc_web
                    [message_envelope 7; trailer_envelope ok_trailer]))
      (Plain (Some 3%N)) = Return res
    /\ ures_message res = {| x := 7 |}
    /\ ures_trailer res = [("grpc-status", "0")].
Proof. eexists. repeat split. Qed.

(** The request of that call on the wire: one envelope, no flag, a
    payload of one byte. *)
Example request_on_the_wire :
  creq_body
    (unary_client_request imports (opt (Return empty_ok)) lookup
       (unary_request imports (options (Return empty_ok))
          (opt (Return empty_ok)) service method None None None
          (Plain (Some 3%N))))
  = createAsyncIterable
      [[Byte.x00; Byte.x00; Byte.x00; Byte.x00; Byte.x01; Byte.x03]].
Proof. reflexivity. Qed.

(** Scenario: a trailers-only head with status 5. *)
Example trailers_only_unary_error :
  call (Return empty_not_found) (Plain None)
  = Throw (ConnectError_new "" (Some Code.NotFound) None).
Proof. reflexivity. Qed.

(** C2, at an instance: a body with a second trailer envelope. *)
Lemma unary_one_message_one_trailer_witness :
  call (Return two_trailers) (Plain None) = Throw extra_trailer
  /\ status (code extra_trailer) = InvalidArgument.
Proof.
  destruct (unary_one_message_one_trailer imports
              (opt (Return two_trailers)) service method lookup
              (unary_request imports (options (Return two_trailers))
                 (opt (Return two_trailers)) service method None None None
                 (Plain None))
              two_trailers None false
              [EnvMessage {| x := 7 |}; EnvEnd ok_trailer; EnvEnd ok_trailer]
              None eq_refl eq_refl eq_refl)
    as (_ & _ & Hextra & _).
  exact (Hextra [EnvMessage {| x := 7 |}; EnvEnd ok_trailer] ok_trailer []
           eq_refl eq_refl (le_n 1)).
Defined.

(** C1 as stated fails: after one message and a trailer with status
    8, the second [read()] throws the mapped error, but the third
    returns done instead of throwing it again, and [responseTrailer] is
    still pending instead of rejected. *)
Lemma stream_trailer_error_status_counterexample :
  observed (session (Return failing_stream) []
              [CallRead; CallRead; CallRead])
  = Some ([Return (ReadValue {| x := 7 |}); Throw rate_limited;
           Return ReadDone],
          Pending, Fulfilled grpc_web, 1)
  /\ Return (@ReadDone ReplyMsg) <> Throw rate_limited
  /\ @Pending Headers <> Rejected rate_limited
  /\ grpc_status resource_exhausted = Some 8%N.
Proof.
  split; [reflexivity|]. split; [discriminate|].
  split; [discriminate|reflexivity].
Qed.

Lemma stream_trailer_error_status_witness :
  exists c,
    ErrorCode_of_value 8 = Some c
    /\ forall k, exists conn',
         reads imports (opt (Return failing_stream))
           (List.length [{| x := 7 |}] + (1 + k)) (answered failing_stream)
         = Some (conn',
                 map (fun m => Return (ReadValue m)) [{| x := 7 |}]
                 ++ Throw (mapped_error (fun s => s) (fun _ => []) c
                             resource_exhausted)
                    :: repeat (Return ReadDone) k).
Proof.
  exact (stream_trailer_error_status imports (opt (Return failing_stream))
           (fun s => s) (fun _ => []) (answered failing_stream)
           failing_stream None [{| x := 7 |}] resource_exhausted [] None
           8%N eq_refl eq_refl eq_refl eq_refl eq_refl eq_refl
           (fun H : 8%N = 0%N =>
              match H in _ = n return match n with
                                      | 0%N => False
                                      | _ => True
                                      end
              with eq_refl => I end)).
Defined.

(** C3 as stated fails: on a trailers-only response with an empty
    body both reads return done, but [responseTrailer] is still pending
    instead of resolved with the header block. *)
Lemma stream_trailers_only_counterexample :
  validateResponseWithCompression imports true [] 200
    (trailers_only "0") = Return (None, true)
  /\ observed (session (Return empty_ok) [] [CallRead; CallRead])
     = Some ([Return ReadDone; Return ReadDone],
             Pending, Fulfilled (trailers_only "0"), 1)
  /\ @Pending Headers <> Fulfilled (trailers_only "0").
Proof.
  split; [reflexivity|]. split; [reflexivity|discriminate].
Qed.

Lemma stream_trailers_only_witness :
  (spec_response_pipeline imports (opt (Return empty_ok))
     (conn_serialization (answered empty_ok)) None (cres_body empty_ok)
   = {| chunks := []; failure := None |} ->
   forall n, exists conn',
     reads imports (opt (Return empty_ok)) (S n) (answered empty_ok)
     = Some (conn', repeat (Return ReadDone) (S n))
     /\ responseTrailer conn' = Pending)
  /\ (forall env rest n,
        chunks (spec_response_pipeline imports (opt (Return empty_ok))
                  (conn_serialization (answered empty_ok)) None
                  (cres_body empty_ok)) = env :: rest ->
        exists conn',
          reads imports (opt (Return empty_ok)) (S n) (answered empty_ok)
          = Some (conn',
                  Throw extra_trailer :: repeat (Return ReadDone) n)
          /\ responseTrailer conn' = Rejected extra_trailer).
Proof.
  exact (stream_trailers_only imports (opt (Return empty_ok))
           (answered empty_ok) empty_ok None
           eq_refl eq_refl eq_refl eq_refl).
Defined.

(** C4 as stated fails: a unary call answered by a trailers-only
    head with status 0 and an empty body throws "missing trailer", not
    "missing output message". *)
Lemma unary_trailers_only_counterexample :
  validateResponseWithCompression imports true [] 200
    (trailers_only "0") = Return (None, true)
  /\ call (Return empty_ok) (Plain None) = Throw missing_trailer
  /\ missing_trailer <> missing_output_message
  /\ message missing_trailer
     = "[InvalidArgument] protocol error: missing trailer".
Proof.
  split; [reflexivity|]. split; [reflexivity|].
  split; [discriminate|reflexivity].
Qed.

Lemma unary_trailers_only_witness :
  call (Return empty_ok) (Plain None) = Throw missing_trailer
  /\ exists c,
       ErrorCode_of_value 5 = Some c
       /\ call (Return empty_not_found) (Plain None)
          = Throw (mapped_error (fun s => s) (fun _ => []) c
                     (trailers_only "5")).
Proof.
  split.
  - destruct (unary_trailers_only imports (opt (Return empty_ok))
                (fun _ => "HTTP error") (fun s => s) (fun _ => [])
                service method lookup
                (unary_request imports (options (Return empty_ok))
                   (opt (Return empty_ok)) service method None None None
                   (Plain None))
                empty_ok eq_refl eq_refl eq_refl eq_refl None 0%N
                eq_refl eq_refl) as [Hzero _].
    destruct (Hzero eq_refl) as [_ Hcall]. exact (Hcall eq_refl).
  - destruct (unary_trailers_only imports (opt (Return empty_not_found))
                (fun _ => "HTTP error") (fun s => s) (fun _ => [])
                service method lookup
                (unary_request imports (options (Return empty_not_found))
                   (opt (Return empty_not_found)) service method None None
                   None (Plain None))
                empty_not_found eq_refl eq_refl eq_refl eq_refl None 5%N
                eq_refl eq_refl) as [_ Hnonzero].
    apply Hnonzero. discriminate.
Defined.

(** C5 at the failing input: a second trailer envelope, or a message
    envelope, after a valid trailer.  The [read()] that reaches it
    throws the named error, but [responseTrailer] was resolved with the
    trailer before: it stays fulfilled, the [reject] does nothing. *)
Theorem extra_envelope_leaves_responseTrailer_fulfilled :
  observed (session (Return two_trailers) [] [CallRead; CallRead])
  = Some ([Return (ReadValue {| x := 7 |}); Throw extra_trailer],
          Fulfilled ok_trailer, Fulfilled grpc_web, 1)
  /\ observed (session (Return message_after_trailer) []
                 [CallRead; CallRead])
     = Some ([Return (ReadValue {| x := 7 |});
              Throw extra_message_after_trailer],
             Fulfilled ok_trailer, Fulfilled grpc_web, 1)
  /\ Fulfilled ok_trailer <> Rejected extra_trailer
  /\ Fulfilled ok_trailer <> Rejected extra_message_after_trailer
  /\ observed (session (Return no_trailer) [] [CallRead; CallRead])
     = Some ([Return (ReadValue {| x := 7 |}); Throw missing_trailer],
             Rejected missing_trailer, Fulfilled grpc_web, 1).
Proof.
  split; [reflexivity|]. split; [reflexivity|].
  split; [discriminate|]. split; [discriminate|reflexivity].
Qed.

(** C6, at an instance: a read called before the answer, the answer,
    a second read. *)
Lemma responseHeader_settled_by_first_read_witness :
  let s := final (Return failing_stream) [CallRead] [CallRead] in
  run_reads s = [Return (ReadValue {| x := 7 |}); Throw rate_limited]
  /\ responseHeader (run_conn s) = Fulfilled grpc_web
  /\ (run_reads s <> [] -> responseHeader (run_conn s) <> Pending).
Proof.
  destruct (responseHeader_settled_by_first_read imports
              (opt (Return failing_stream)) lookup
              (stream_request imports (options (Return failing_stream))
                 (opt (Return failing_stream)) service method None None
                 None)
              (fresh (Return failing_stream))
              [CallRead; HttpSettles (Return failing_stream); CallRead]
              (final (Return failing_stream) [CallRead] [CallRead])
              eq_refl eq_refl)
    as (_ & Hsettled & _).
  split; [reflexivity|]. split; [reflexivity|]. exact Hsettled.
Defined.

(** C10 as stated fails: when validation throws, the second [read()]
    validates again (two validations after two reads) and throws the
    same error again; and two calls of [read()] made before the answer
    both validate a response that passes. *)
Lemma validation_only_inside_read_counterexample :
  observed (session (Return server_error) [] [CallRead])
  = Some ([Throw http_error], Pending, Fulfilled grpc_web, 1)
  /\ observed (session (Return server_error) [] [CallRead; CallRead])
     = Some ([Throw http_error; Throw http_error],
             Pending, Fulfilled grpc_web, 2)
  /\ validations
       (run_conn
          (loop_run
             (Scenarios.ending (Return Scenarios.two_messages)
                (Scenarios.two_reads_at_once Scenarios.two_messages))))
     = 2.
Proof.
  split; [reflexivity|]. split; [reflexivity|]. vm_compute. reflexivity.
Qed.

(** C10, at an instance: two calls of [read()] made before the answer
    each validate a response that passes validation. *)
Lemma validation_only_inside_read_witness :
  let res := Scenarios.two_messages in
  let sts := Scenarios.two_reads_at_once res in
  let l := Scenarios.ending (Return res) sts in
  validations (run_conn (loop_run l)) = 2
  /\ validations (run_conn (loop_run l)) + waiting l
     = blind_reads imports (opt (Return res))
         (mkLoop (mkRun (fresh (Return res)) []) []) sts
  /\ responseHeader (run_conn (loop_run l)) = Fulfilled grpc_web.
Proof.
  intros res sts l.
  assert (Hsteps : steps imports (opt (Return res))
                     (mkLoop (mkRun (fresh (Return res)) []) []) sts
                   = Some l)
    by (vm_compute; reflexivity).
  assert (Hp : universalResponsePromise (run_conn (loop_run l))
               = Fulfilled res)
    by (vm_compute; reflexivity).
  pose proof (validation_only_inside_read imports (opt (Return res)) lookup
                (stream_request imports (options (Return res))
                   (opt (Return res)) service method None None None)
                (fresh (Return res)) sts l eq_refl Hsteps) as H.
  cbv zeta in H. rewrite Hp in H.
  destruct H as (_ & _ & _ & Hacc & _).
  split; [vm_compute; reflexivity|]. split; [exact Hacc|].
  vm_compute. reflexivity.
Defined.

(** Reads that overlap, after the answer: two calls of which the
    first is not awaited each validate a response that passes; awaited
    one after the other, they validate it once. *)
Example overlapping_reads_validate_twice :
  let res := Scenarios.two_messages in
  let count sts :=
    validations (run_conn (loop_run (Scenarios.ending (Return res) sts))) in
  count (Scenarios.two_reads_back_to_back res) = 2
  /\ count (awaited [HttpSettles (Return res); CallRead; CallRead]) = 1.
Proof. vm_compute. repeat split. Qed.

End FixtureFacts.

(** ** More on streaming calls: how a stream of reads ends *)

Section StreamEndings.

Context {I O PlainI : Type}.
Context {BinaryOptions JsonOptions AbortSignal NodeHttpOptions : Type}.
Variable imports :
  Imports I O PlainI BinaryOptions JsonOptions AbortSignal NodeHttpOptions.
Variable opt : NodeTransportOptions AbortSignal.

(** After the trailer, whatever comes ends the generator. *)
Lemma loop_after_trailer (envs : list (ParsedEnvelope O))
    (fail : option ConnectError) (rt : PromiseState Headers) :
  terminal (generator_loop imports envs fail true rt).
Proof.
  destruct envs as [|[t|m] rest]; simpl.
  - destruct fail; split; try reflexivity; intros v H; discriminate H.
  - split; [reflexivity|]. intros v H; discriminate H.
  - split; [reflexivity|]. intros v H; discriminate H.
Qed.

(** Before the trailer, the loop either ends the generator or yields
    the message at the head of the iterable, touching nothing else. *)
Lemma loop_before_trailer (envs : list (ParsedEnvelope O))
    (fail : option ConnectError) (rt : PromiseState Headers) :
  terminal (generator_loop imports envs fail false rt)
  \/ exists v rest,
       envs = EnvMessage v :: rest
       /\ generator_loop imports envs fail false rt
          = {| res_result := Return (IterValue v);
               res_state := GenYielded false;
               res_rest := {| chunks := rest; failure := fail |};
               res_trailer := rt |}.
Proof.
  destruct envs as [|[t|m] rest]; simpl.
  - left. destruct fail; split; try reflexivity; intros v H; discriminate H.
  - left. destruct (validateTrailer imports t) as [u|e].
    + apply loop_after_trailer.
    + split; [reflexivity|]. intros v H; discriminate H.
  - right. exists m, rest. split; reflexivity.
Qed.

Lemma next_cases (it : OutputIterator) (rt : PromiseState Headers) :
  terminal (outputIt_next imports it rt)
  \/ exists v rest,
       chunks (gen_iterable it) = EnvMessage v :: rest
       /\ outputIt_next imports it rt
          = {| res_result := Return (IterValue v);
               res_state := GenYielded false;
               res_rest := {| chunks := rest;
                              failure := failure (gen_iterable it) |};
               res_trailer := rt |}.
Proof.
  unfold outputIt_next. destruct (gen_state it) as [|[|]|].
  - destruct (gen_foundStatus it).
    + left. unfold generator_trailers_only.
      destruct (chunks (gen_iterable it)).
      * destruct (failure (gen_iterable it)); split; try reflexivity;
          intros v H; discriminate H.
      * split; [reflexivity|]. intros v H; discriminate H.
    + apply loop_before_trailer.
  - left. apply loop_after_trailer.
  - apply loop_before_trailer.
  - left. split; [reflexivity|]. intros v H; discriminate H.
Qed.

Lemma read_with_iterator (conn : StreamingConn I O PlainI AbortSignal)
    (it : OutputIterator) :
  outputIt conn = Some it ->
  read imports opt conn
  = Some (set_outputIt conn
            {| gen_foundStatus := gen_foundStatus it;
               gen_state :=
                 res_state (outputIt_next imports it (responseTrailer conn));
               gen_iterable :=
                 res_rest (outputIt_next imports it (responseTrailer conn)) |}
            (res_trailer (outputIt_next imports it (responseTrailer conn))),
          read_outcome
            (res_result (outputIt_next imports it (responseTrailer conn)))).
Proof. intros H. unfold read. rewrite H. reflexivity. Qed.

Lemma terminal_not_value (r : @Resumption O) :
  terminal r -> is_value (read_outcome (res_result r)) = false.
Proof.
  intros [_ H]. destruct (res_result r) as [[|v]|e]; try reflexivity.
  exfalso. apply (H v). reflexivity.
Qed.

(** X1.  The results of any number of [read()] calls on a connection
    that has its iterator: messages first, which are the first of the
    messages that no trailer precedes in the decoded body, in wire
    order; then at most one result that is not a message (done, or a
    thrown error); then only done. *)
Theorem read_results_shape (n : nat) :
  forall (conn : StreamingConn I O PlainI AbortSignal) (it : OutputIterator),
    outputIt conn = Some it ->
    exists conn' vs tail,
      reads imports opt n conn
      = Some (conn', map (fun v => Return (ReadValue v)) vs ++ tail)
      /\ (exists rest,
            leading_messages (chunks (gen_iterable it)) = vs ++ rest)
      /\ (tail = []
          \/ exists r,
               tail = r :: repeat (Return ReadDone) (List.length tail - 1)
               /\ is_value r = false).
Proof.
  induction n as [|n IH]; intros conn it Hit.
  - exists conn, [], []. simpl. split; [reflexivity|]. split; [|auto].
    exists (leading_messages (chunks (gen_iterable it))). reflexivity.
  - rewrite reads_S, (read_with_iterator conn it Hit).
    destruct (next_cases it (responseTrailer conn))
      as [Hterm | (v & rest & Hchunks & Hnext)].
    + match goal with
      | |- context [reads _ _ _ ?c] => set (conn1 := c)
      end.
      rewrite (reads_completed imports opt conn1
                 {| gen_foundStatus := gen_foundStatus it;
                    gen_state :=
                      res_state
                        (outputIt_next imports it (responseTrailer conn));
                    gen_iterable :=
                      res_rest
                        (outputIt_next imports it (responseTrailer conn)) |}
                 n eq_refl (proj1 Hterm)).
      exists conn1, [],
        (read_outcome
           (res_result (outputIt_next imports it (responseTrailer conn)))
         :: repeat (Return ReadDone) n).
      split; [reflexivity|]. split.
      * exists (leading_messages (chunks (gen_iterable it))). reflexivity.
      * right. eexists. split.
        -- simpl. rewrite repeat_length, Nat.sub_0_r. reflexivity.
        -- apply terminal_not_value. exact Hterm.
    + rewrite Hnext. simpl.
      match goal with
      | |- context [reads _ _ _ (set_outputIt ?c ?i ?r)] =>
          destruct (IH (set_outputIt c i r) i eq_refl)
            as (conn' & vs & tail & Hr & (rest' & Hm) & Htail)
      end.
      rewrite Hr. exists conn', (v :: vs), tail.
      split; [reflexivity|]. split; [|exact Htail].
      exists rest'. rewrite Hchunks. simpl. simpl in Hm. rewrite Hm.
      reflexivity.
Qed.

(** The messages ahead of a suffix on which the loop ends the
    generator are read one per call; the next call settles as the
    generator ends, and every later call returns done. *)
Lemma reads_then_terminal (ms : list O) (suffix : list (ParsedEnvelope O))
    (fail : option ConnectError) (k : nat)
    (conn : StreamingConn I O PlainI AbortSignal) (it : OutputIterator) :
  outputIt conn = Some it ->
  in_loop it ->
  gen_iterable it = {| chunks := map EnvMessage ms ++ suffix;
                       failure := fail |} ->
  res_state (generator_loop imports suffix fail false (responseTrailer conn))
  = GenCompleted ->
  exists conn' : StreamingConn I O PlainI AbortSignal,
    reads imports opt (List.length ms + (1 + k)) conn
    = Some (conn',
            map (fun m => Return (ReadValue m)) ms
            ++ read_outcome
                 (res_result
                    (generator_loop imports suffix fail false
                       (responseTrailer conn)))
               :: repeat (Return ReadDone) k)
    /\ responseTrailer conn'
       = res_trailer
           (generator_loop imports suffix fail false (responseTrailer conn))
    /\ validations conn' = validations conn.
Proof.
  intros Hit Hloop Hiter Hend.
  assert (Hval : exists (conn1 : StreamingConn I O PlainI AbortSignal)
                        (it1 : OutputIterator),
             reads imports opt (List.length ms) conn
             = Some (conn1, map (fun m => Return (ReadValue m)) ms)
             /\ outputIt conn1 = Some it1 /\ in_loop it1
             /\ gen_iterable it1 = {| chunks := suffix; failure := fail |}
             /\ responseTrailer conn1 = responseTrailer conn
             /\ validations conn1 = validations conn).
  { clear Hend. revert conn it Hit Hloop Hiter.
    induction ms as [|m ms IH]; intros conn it Hit Hloop Hiter.
    - exists conn, it. simpl. auto 6.
    - simpl List.length. rewrite reads_S, (read_with_iterator conn it Hit).
      rewrite (outputIt_next_in_loop imports it _ Hloop), Hiter. simpl.
      match goal with
      | |- context [reads _ _ _ (set_outputIt ?c ?i ?r)] =>
          destruct (IH (set_outputIt c i r) i eq_refl
                      (or_introl eq_refl) eq_refl)
            as (conn1 & it1 & Hr & Ho & Hl & Hi & Ht & Hv)
      end.
      rewrite Hr. exists conn1, it1. auto 8. }
  destruct Hval as (conn1 & it1 & Hr & Ho & Hl & Hi & Ht & Hv).
  rewrite reads_app, Hr.
  change (1 + k) with (S k).
  rewrite reads_S, (read_with_iterator conn1 it1 Ho).
  rewrite (outputIt_next_in_loop imports it1 _ Hl), Hi, Ht. simpl.
  match goal with
  | |- context [reads _ _ _ ?c] => set (conn2 := c)
  end.
  rewrite (reads_completed imports opt conn2
             {| gen_foundStatus := gen_foundStatus it1;
                gen_state :=
                  res_state (generator_loop imports suffix fail false
                               (responseTrailer conn));
                gen_iterable :=
                  res_rest (generator_loop imports suffix fail false
                              (responseTrailer conn)) |}
             k eq_refl Hend).
  exists conn2. split; [reflexivity|]. split; [reflexivity|]. exact Hv.
Qed.

(** The same from the first [read()] of a response that passes
    validation and is not trailers-only. *)
Lemma first_reads_then_terminal
    (conn : StreamingConn I O PlainI AbortSignal)
    (uRes : UniversalClientResponse) (compression : option Compression)
    (ms : list O) (suffix : list (ParsedEnvelope O))
    (fail : option ConnectError) (k : nat) :
  outputIt conn = None ->
  universalResponsePromise conn = Fulfilled uRes ->
  validateResponseWithCompression imports (useBinaryFormat opt)
    (acceptCompression opt) (cres_status uRes) (cres_header uRes)
  = Return (compression, false) ->
  spec_response_pipeline imports opt (conn_serialization conn)
    compression (cres_body uRes)
  = {| chunks := map EnvMessage ms ++ suffix; failure := fail |} ->
  res_state (generator_loop imports suffix fail false (responseTrailer conn))
  = GenCompleted ->
  exists conn' : StreamingConn I O PlainI AbortSignal,
    reads imports opt (List.length ms + (1 + k)) conn
    = Some (conn',
            map (fun m => Return (ReadValue m)) ms
            ++ read_outcome
                 (res_result
                    (generator_loop imports suffix fail false
                       (responseTrailer conn)))
               :: repeat (Return ReadDone) k)
    /\ responseTrailer conn'
       = res_trailer
           (generator_loop imports suffix fail false (responseTrailer conn))
    /\ validations conn' = S (validations conn).
Proof.
  intros Hit Hp Hv Hd Hend.
  replace (List.length ms + (1 + k)) with (S (List.length ms + k)) by lia.
  rewrite (reads_first imports opt conn uRes compression false _ Hit Hp Hv).
  replace (S (List.length ms + k)) with (List.length ms + (1 + k)) by lia.
  rewrite Hd.
  match goal with
  | |- context [reads _ _ _ (set_outputIt ?conn0 ?it0 ?rt0)] =>
      destruct (reads_then_terminal ms suffix fail k
                  (set_outputIt conn0 it0 rt0) it0)
        as (conn' & Hr & Ht & Hval)
  end.
  - reflexivity.
  - right. split; reflexivity.
  - reflexivity.
  - exact Hend.
  - exists conn'. split; [exact Hr|]. split; [exact Ht|exact Hval].
Qed.

(** X2.  A streaming response that passes validation and whose
    decoded body is messages and then one valid trailer: the messages
    are read in wire order, one per [read()], the next [read()] returns
    done and so does every later one, and [responseTrailer] is
    fulfilled with the trailer; the response was validated once. *)
Theorem stream_messages_then_trailer
    (conn : StreamingConn I O PlainI AbortSignal)
    (uRes : UniversalClientResponse) (compression : option Compression)
    (ms : list O) (t : Headers) (k : nat) :
  outputIt conn = None ->
  responseTrailer conn = Pending ->
  universalResponsePromise conn = Fulfilled uRes ->
  validateResponseWithCompression imports (useBinaryFormat opt)
    (acceptCompression opt) (cres_status uRes) (cres_header uRes)
  = Return (compression, false) ->
  spec_response_pipeline imports opt (conn_serialization conn)
    compression (cres_body uRes)
  = {| chunks := map EnvMessage ms ++ [EnvEnd t]; failure := None |} ->
  validateTrailer imports t = Return tt ->
  exists conn' : StreamingConn I O PlainI AbortSignal,
    reads imports opt (List.length ms + (1 + k)) conn
    = Some (conn',
            map (fun m => Return (ReadValue m)) ms
            ++ repeat (Return ReadDone) (1 + k))
    /\ responseTrailer conn' = Fulfilled t
    /\ validations conn' = S (validations conn).
Proof.
  intros Hit Hrt Hp Hv Hd Hvt.
  destruct (first_reads_then_terminal conn uRes compression ms [EnvEnd t]
              None k Hit Hp Hv Hd) as (conn' & Hr & Ht & Hval).
  - simpl. rewrite Hvt. reflexivity.
  - exists conn'. rewrite Hr, Ht, Hrt. simpl. rewrite Hvt. simpl.
    auto.
Qed.

(** X3.  A streaming response whose decoded body fails (the
    envelope splitter, the decompression or a parser throws [e]) after
    some messages: the messages are read, the next [read()] throws [e],
    every later one returns done.  The generator does not reject
    [responseTrailer] on this path: without a trailer before the failure
    it stays pending, and with a valid trailer before the failure it is
    fulfilled with that trailer although the stream failed. *)
Theorem stream_body_failure
    (conn : StreamingConn I O PlainI AbortSignal)
    (uRes : UniversalClientResponse) (compression : option Compression)
    (ms : list O) (trailer : option Headers) (e : ConnectError) (k : nat) :
  outputIt conn = None ->
  responseTrailer conn = Pending ->
  universalResponsePromise conn = Fulfilled uRes ->
  validateResponseWithCompression imports (useBinaryFormat opt)
    (acceptCompression opt) (cres_status uRes) (cres_header uRes)
  = Return (compression, false) ->
  spec_response_pipeline imports opt (conn_serialization conn)
    compression (cres_body uRes)
  = {| chunks := map EnvMessage ms
                 ++ match trailer with Some t => [EnvEnd t] | None => [] end;
       failure := Some e |} ->
  (forall t, trailer = Some t -> validateTrailer imports t = Return tt) ->
  exists conn' : StreamingConn I O PlainI AbortSignal,
    reads imports opt (List.length ms + (1 + k)) conn
    = Some (conn',
            map (fun m => Return (ReadValue m)) ms
            ++ Throw e :: repeat (Return ReadDone) k)
    /\ responseTrailer conn'
       = match trailer with Some t => Fulfilled t | None => Pending end.
Proof.
  intros Hit Hrt Hp Hv Hd Hvt.
  destruct (first_reads_then_terminal conn uRes compression ms
              (match trailer with Some t => [EnvEnd t] | None => [] end)
              (Some e) k Hit Hp Hv Hd) as (conn' & Hr & Ht & _).
  - destruct trailer as [t|]; simpl; [|reflexivity].
    rewrite (Hvt t eq_refl). reflexivity.
  - exists conn'. rewrite Hr, Ht, Hrt.
    destruct trailer as [t|]; simpl; [|auto].
    rewrite (Hvt t eq_refl). simpl. auto.
Qed.

End StreamEndings.

(** ** More on streaming calls: failures before the iterator exists *)

Section StreamFailures.

Context {I O PlainI : Type}.
Context {BinaryOptions JsonOptions AbortSignal NodeHttpOptions : Type}.
Variable imports :
  Imports I O PlainI BinaryOptions JsonOptions AbortSignal NodeHttpOptions.
Variable opt : NodeTransportOptions AbortSignal.


(** X5.  When validation of the response throws [e], no iterator is
    created: every [read()] validates again and throws [e] again, and
    [responseTrailer] is left as it is. *)
Theorem reads_after_validation_failure (uRes : UniversalClientResponse)
    (e : ConnectError) (n : nat) :
  forall conn : StreamingConn I O PlainI AbortSignal,
    outputIt conn = None ->
    universalResponsePromise conn = Fulfilled uRes ->
    validateResponseWithCompression imports (useBinaryFormat opt)
      (acceptCompression opt) (cres_status uRes) (cres_header uRes)
    = Throw e ->
    exists conn' : StreamingConn I O PlainI AbortSignal,
      reads imports opt n conn = Some (conn', repeat (Throw e) n)
      /\ outputIt conn' = None
      /\ validations conn' = n + validations conn
      /\ responseTrailer conn' = responseTrailer conn
      /\ responseHeader conn' = responseHeader conn.
Proof.
  induction n as [|n IH]; intros conn Hit Hp Hv.
  - exists conn. simpl. auto.
  - rewrite reads_S. unfold read. rewrite Hit, Hp. unfold read_init.
    rewrite Hv.
    destruct (IH (count_validation conn) Hit Hp Hv)
      as (conn' & Hr & Ho & Hval & Ht & Hh).
    rewrite Hr. exists conn'. split; [reflexivity|].
    split; [exact Ho|]. split; [|split; assumption].
    rewrite Hval. simpl. lia.
Qed.







End StreamFailures.

(** ** More on unary calls: which failure wins *)

Section UnaryFailures.

Context {I O PlainI : Type}.
Context {BinaryOptions JsonOptions AbortSignal NodeHttpOptions : Type}.
Variable imports :
  Imports I O PlainI BinaryOptions JsonOptions AbortSignal NodeHttpOptions.
Variable opt : NodeTransportOptions AbortSignal.
Variable service : ServiceType.
Variable method : MethodInfo I PlainI.
Variable serialization : MethodSerializationLookup I O.

(** The sink on a body that breaks no rule: it returns what it has
    collected when the body ends, and throws the failure of the body
    when the body fails. *)
Lemma unary_sink_lawful (envs : list (ParsedEnvelope O))
    (fail : option ConnectError) :
  List.length (messages_of envs) <= 1 ->
  List.length (trailers_of envs) <= 1 ->
  unary_sink {| chunks := envs; failure := fail |}
  = match fail with
    | Some e => Throw e
    | None => Return (after_trailers envs None, after_messages envs None)
    end.
Proof.
  intros Hm Ht. unfold unary_sink. simpl.
  rewrite <- (app_nil_r envs) at 1.
  rewrite unary_sink_loop_prefix by (simpl; assumption).
  reflexivity.
Qed.

(** X7.  A unary call whose body carries one trailer envelope that
    the trailer validation refuses with [e], and at most one message:
    the call throws [e], whether the message is there or not, so that a
    non-OK status is reported rather than "missing output message". *)
Theorem unary_status_before_missing_message
    (req : UnaryRequest I PlainI AbortSignal)
    (universalResponse : UniversalClientResponse)
    (compression : option Compression) (foundStatus : bool)
    (envs : list (ParsedEnvelope O)) (t : Headers) (e : ConnectError) :
  client opt (unary_client_request imports opt serialization req)
  = Return universalResponse ->
  validateResponseWithCompression imports (useBinaryFormat opt)
    (acceptCompression opt) (cres_status universalResponse)
    (cres_header universalResponse)
  = Return (compression, foundStatus) ->
  spec_response_pipeline imports opt serialization compression
    (cres_body universalResponse)
  = {| chunks := envs; failure := None |} ->
  trailers_of envs = [t] ->
  List.length (messages_of envs) <= 1 ->
  validateTrailer imports t = Throw e ->
  unary_next imports opt service method serialization req = Throw e.
Proof.
  intros Hclient Hvalid Hbody Ht Hm Hv.
  unfold unary_next. rewrite Hclient. simpl. rewrite Hvalid. simpl.
  unfold pipeTo.
  change (chain (response_transforms imports opt serialization compression)
            (cres_body universalResponse))
    with (spec_response_pipeline imports opt serialization compression
            (cres_body universalResponse)).
  rewrite Hbody, unary_sink_lawful by (rewrite ?Ht; simpl; lia).
  simpl. unfold after_trailers. rewrite Ht. simpl. rewrite Hv. reflexivity.
Qed.

(** X8.  A unary call throws the failure of the HTTP client when the
    request fails; the error of the response validation when that
    throws, whatever the body holds; and, when the decoded body fails
    with [e] without having broken a rule before, it throws [e] even if
    its message and its trailer have both been received. *)
Theorem unary_failure_precedence
    (req : UnaryRequest I PlainI AbortSignal) (e : ConnectError) :
  (client opt (unary_client_request imports opt serialization req)
   = Throw e ->
   unary_next imports opt service method serialization req = Throw e)
  /\ (forall universalResponse,
        client opt (unary_client_request imports opt serialization req)
        = Return universalResponse ->
        validateResponseWithCompression imports (useBinaryFormat opt)
          (acceptCompression opt) (cres_status universalResponse)
          (cres_header universalResponse)
        = Throw e ->
        unary_next imports opt service method serialization req = Throw e)
  /\ (forall universalResponse compression foundStatus envs,
        client opt (unary_client_request imports opt serialization req)
        = Return universalResponse ->
        validateResponseWithCompression imports (useBinaryFormat opt)
          (acceptCompression opt) (cres_status universalResponse)
          (cres_header universalResponse)
        = Return (compression, foundStatus) ->
        spec_response_pipeline imports opt serialization compression
          (cres_body universalResponse)
        = {| chunks := envs; failure := Some e |} ->
        List.length (messages_of envs) <= 1 ->
        List.length (trailers_of envs) <= 1 ->
        unary_next imports opt service method serialization req = Throw e).
Proof.
  split; [|split].
  - intros H. unfold unary_next. rewrite H. reflexivity.
  - intros u Hc Hv. unfold unary_next. rewrite Hc. simpl. rewrite Hv.
    reflexivity.
  - intros u compression foundStatus envs Hc Hv Hbody Hm Ht.
    unfold unary_next. rewrite Hc. simpl. rewrite Hv. simpl.
    unfold pipeTo.
    change (chain (response_transforms imports opt serialization compression)
              (cres_body u))
      with (spec_response_pipeline imports opt serialization compression
              (cres_body u)).
    rewrite Hbody, unary_sink_lawful by assumption. reflexivity.
Qed.

End UnaryFailures.

(** ** More on the error class *)




(** ** The code size report *)

Section BenchFacts.

Variable buildSync : Bench.BuildOptions -> Bench.Completion Bench.BuildResult.
Variable brotliCompressSync : bytes -> bytes.
Variable numberFormat : nat -> string.

Lemma build_normal_iff (entry : string) (minify : bool) (format : string)
    (c : bytes) :
  Bench.build buildSync entry minify format = Bench.Normal c
  <-> exists file,
        buildSync {| Bench.entryPoints := [entry];
                     Bench.bundle := true;
                     Bench.format := format;
                     Bench.treeShaking := true;
                     Bench.minify := minify;
                     Bench.write := false |}
        = Bench.Normal {| Bench.outputFiles := [file] |}
        /\ c = Bench.contents file.
Proof.
  unfold Bench.build.
  destruct (buildSync _) as [[files]|e]; simpl.
  - destruct files as [|file [|file' files]]; simpl; split.
    + discriminate.
    + intros (file & H & _). discriminate H.
    + intros H. inversion H; subst. exists file. auto.
    + intros (file0 & H & ->). inversion H; subst. reflexivity.
    + discriminate.
    + intros (file0 & H & _). discriminate H.
  - split; [discriminate|]. intros (file & H & _). discriminate H.
Qed.

(** X10.  [build] returns the contents of the output file exactly
    when esbuild returns one output file; with no output file, or with
    more than one, it throws an [Error] without message; an error
    esbuild throws is thrown on. *)
Theorem build_exactly_one_output (entry : string) (minify : bool)
    (format : string) :
  let options :=
    {| Bench.entryPoints := [entry];
       Bench.bundle := true;
       Bench.format := format;
       Bench.treeShaking := true;
       Bench.minify := minify;
       Bench.write := false |} in
  (forall c,
     Bench.build buildSync entry minify format = Bench.Normal c
     <-> exists file,
           buildSync options = Bench.Normal {| Bench.outputFiles := [file] |}
           /\ c = Bench.contents file)
  /\ (forall result,
        buildSync options = Bench.Normal result ->
        List.length (Bench.outputFiles result) <> 1 ->
        Bench.build buildSync entry minify format
        = Bench.Abrupt {| Bench.error_message := "" |})
  /\ (forall e,
        buildSync options = Bench.Abrupt e ->
        Bench.build buildSync entry minify format = Bench.Abrupt e).
Proof.
  intros options. split; [|split].
  - intros c. apply build_normal_iff.
  - intros result H Hlen. unfold Bench.build. fold options. rewrite H.
    destruct (Nat.eqb_spec (List.length (Bench.outputFiles result)) 1)
      as [E|E]; [contradiction|reflexivity].
  - intros e H. unfold Bench.build. fold options. rewrite H. reflexivity.
Qed.

Lemma gather_normal_iff (entry : string) (g : Bench.Sizes) :
  Bench.gather buildSync brotliCompressSync numberFormat entry
  = Bench.Normal g
  <-> exists bundle bundleMinified,
        Bench.build buildSync entry false "esm" = Bench.Normal bundle
        /\ Bench.build buildSync entry true "esm"
           = Bench.Normal bundleMinified
        /\ g = {| Bench.entryPoint := entry;
                  Bench.size :=
                    Bench.formatSize numberFormat (List.length bundle);
                  Bench.minified :=
                    Bench.formatSize numberFormat
                      (List.length bundleMinified);
                  Bench.compressed :=
                    Bench.formatSize numberFormat
                      (List.length (brotliCompressSync bundleMinified)) |}.
Proof.
  unfold Bench.gather.
  destruct (Bench.build buildSync entry false "esm") as [b|e].
  - destruct (Bench.build buildSync entry true "esm") as [m|e]; split.
    + intros H. inversion H; subst. exists b, m. auto.
    + intros (b' & m' & Hb & Hm & ->). inversion Hb; inversion Hm; subst.
      reflexivity.
    + discriminate.
    + intros (b' & m' & _ & Hm & _). discriminate Hm.
  - split; [discriminate|]. intros (b' & m' & Hb & _). discriminate Hb.
Qed.

(** X11.  [gather] returns exactly when both builds of the entry
    point return; the three sizes are then the formatted lengths of the
    plain bundle, of the minified bundle, and of the compressed
    minified bundle (not of the compressed plain bundle).  When the
    plain build throws, its error is thrown and the minified build is
    not what decides; when only the minified build throws, its error is
    thrown. *)
Theorem gather_sizes (entry : string) :
  (forall g,
     Bench.gather buildSync brotliCompressSync numberFormat entry
     = Bench.Normal g
     <-> exists bundle bundleMinified,
           Bench.build buildSync entry false "esm" = Bench.Normal bundle
           /\ Bench.build buildSync entry true "esm"
              = Bench.Normal bundleMinified
           /\ g = {| Bench.entryPoint := entry;
                     Bench.size :=
                       Bench.formatSize numberFormat (List.length bundle);
                     Bench.minified :=
                       Bench.formatSize numberFormat
                         (List.length bundleMinified);
                     Bench.compressed :=
                       Bench.formatSize numberFormat
                         (List.length
                            (brotliCompressSync bundleMinified)) |})
  /\ (forall e,
        Bench.build buildSync entry false "esm" = Bench.Abrupt e ->
        Bench.gather buildSync brotliCompressSync numberFormat entry
        = Bench.Abrupt e)
  /\ (forall bundle e,
        Bench.build buildSync entry false "esm" = Bench.Normal bundle ->
        Bench.build buildSync entry true "esm" = Bench.Abrupt e ->
        Bench.gather buildSync brotliCompressSync numberFormat entry
        = Bench.Abrupt e).
Proof.
  split; [|split].
  - intros g. apply gather_normal_iff.
  - intros e H. unfold Bench.gather. rewrite H. reflexivity.
  - intros b e Hb Hm. unfold Bench.gather. rewrite Hb, Hm. reflexivity.
Qed.

(** X12.  The report is written exactly when each of the four
    builds (the two entry points, plain and minified) gets exactly one
    output file from esbuild; otherwise the module throws before it
    writes anything. *)
Theorem report_written_iff_four_single_outputs :
  (exists text,
     Bench.report buildSync brotliCompressSync numberFormat
     = Bench.Normal text)
  <-> forall entry minify,
        In entry ["src/entry-connectweb.ts"; "src/entry-grpcweb.ts"] ->
        exists file,
          buildSync {| Bench.entryPoints := [entry];
                       Bench.bundle := true;
                       Bench.format := "esm";
                       Bench.treeShaking := true;
                       Bench.minify := minify;
                       Bench.write := false |}
          = Bench.Normal {| Bench.outputFiles := [file] |}.
Proof.
  unfold Bench.report. split.
  - intros (text & H) entry minify Hin.
    destruct (Bench.gather _ _ _ "src/entry-connectweb.ts") as [g1|e] eqn:G1;
      [|discriminate].
    destruct (Bench.gather _ _ _ "src/entry-grpcweb.ts") as [g2|e] eqn:G2;
      [|discriminate].
    apply gather_normal_iff in G1. apply gather_normal_iff in G2.
    destruct G1 as (b1 & m1 & Hb1 & Hm1 & _).
    destruct G2 as (b2 & m2 & Hb2 & Hm2 & _).
    apply build_normal_iff in Hb1, Hm1, Hb2, Hm2.
    destruct Hb1 as (f1 & Hf1 & _). destruct Hm1 as (f2 & Hf2 & _).
    destruct Hb2 as (f3 & Hf3 & _). destruct Hm2 as (f4 & Hf4 & _).
    destruct Hin as [<- | [<- | []]]; destruct minify; eauto.
  - intros H.
    assert (Hbuild : forall entry minify,
               In entry ["src/entry-connectweb.ts"; "src/entry-grpcweb.ts"] ->
               exists c, Bench.build buildSync entry minify "esm"
                         = Bench.Normal c).
    { intros entry minify Hin. destruct (H entry minify Hin) as [file Hf].
      exists (Bench.contents file). apply build_normal_iff. eauto. }
    destruct (Hbuild "src/entry-connectweb.ts" false) as [b1 Hb1];
      [simpl; auto|].
    destruct (Hbuild "src/entry-connectweb.ts" true) as [m1 Hm1];
      [simpl; auto|].
    destruct (Hbuild "src/entry-grpcweb.ts" false) as [b2 Hb2];
      [simpl; auto|].
    destruct (Hbuild "src/entry-grpcweb.ts" true) as [m2 Hm2];
      [simpl; auto|].
    unfold Bench.gather. rewrite Hb1, Hm1, Hb2, Hm2. eauto.
Qed.

End BenchFacts.

(** ** What becomes of [responseTrailer] *)

Section TrailerOutcomes.

Context {I O PlainI : Type}.
Context {BinaryOptions JsonOptions AbortSignal NodeHttpOptions : Type}.
Variable imports :
  Imports I O PlainI BinaryOptions JsonOptions AbortSignal NodeHttpOptions.
Variable opt : NodeTransportOptions AbortSignal.

Lemma lawful_settled_stays (rt : PromiseState Headers) (t : Headers)
    (e : ConnectError) :
  rt <> Pending -> resolve rt t = rt /\ reject rt e = rt.
Proof. destruct rt; [contradiction| |]; auto. Qed.

Lemma loop_after_trailer_lawful (envs : list (ParsedEnvelope O))
    (fail : option ConnectError) (rt : PromiseState Headers) :
  rt <> Pending ->
  res_trailer (generator_loop imports envs fail true rt) = rt.
Proof.
  intros H. destruct envs as [|[t|m] rest]; simpl.
  - destruct fail; reflexivity.
  - apply (lawful_settled_stays rt [] extra_trailer H).
  - apply (lawful_settled_stays rt [] extra_message_after_trailer H).
Qed.

Lemma loop_lawful (envs : list (ParsedEnvelope O))
    (fail : option ConnectError) (tr : bool) (rt : PromiseState Headers) :
  lawful_trailer imports rt ->
  (tr = true -> rt <> Pending) ->
  lawful_trailer imports (res_trailer (generator_loop imports envs fail tr rt)).
Proof.
  intros Hrt Htr. destruct tr.
  - rewrite loop_after_trailer_lawful by auto. exact Hrt.
  - destruct envs as [|[t|m] rest]; simpl.
    + destruct fail; simpl; [exact Hrt|].
      destruct rt; simpl; [|exact Hrt|exact Hrt].
      right. right. right. reflexivity.
    + destruct (validateTrailer imports t) as [[]|e] eqn:V; [|exact Hrt].
      rewrite loop_after_trailer_lawful by (destruct rt; discriminate).
      destruct rt; simpl; [|exact Hrt|exact Hrt].
      right. left. exists t. auto.
    + exact Hrt.
Qed.

Lemma next_lawful (it : OutputIterator) (rt : PromiseState Headers) :
  lawful_trailer imports rt ->
  (gen_state it = GenYielded true -> rt <> Pending) ->
  lawful_trailer imports (res_trailer (outputIt_next imports it rt)).
Proof.
  intros Hrt Hy. unfold outputIt_next.
  destruct (gen_state it) as [|tr|] eqn:E.
  - destruct (gen_foundStatus it).
    + unfold generator_trailers_only.
      destruct (chunks (gen_iterable it)).
      * destruct (failure (gen_iterable it)); exact Hrt.
      * simpl. destruct rt; simpl; [|exact Hrt|exact Hrt].
        right. right. left. reflexivity.
    + apply loop_lawful; [exact Hrt|discriminate].
  - apply loop_lawful; [exact Hrt|].
    intros ->. apply Hy. reflexivity.
  - exact Hrt.
Qed.

Lemma next_state_before_trailer (it : OutputIterator)
    (rt : PromiseState Headers) :
  gen_state it <> GenYielded true ->
  res_state (outputIt_next imports it rt) <> GenYielded true.
Proof.
  intros H.
  destruct (next_cases imports it rt) as [[Hc _] | (v & rest & _ & Hn)].
  - rewrite Hc. discriminate.
  - rewrite Hn. simpl. discriminate.
Qed.

Lemma read_lawful (conn conn' : StreamingConn I O PlainI AbortSignal)
    (r : Outcome ReadableStreamReadResultLike) :
  read imports opt conn = Some (conn', r) ->
  lawful_trailer imports (responseTrailer conn) ->
  yields_before_trailer conn ->
  lawful_trailer imports (responseTrailer conn')
  /\ yields_before_trailer conn'.
Proof.
  unfold read. intros H Hrt Hy.
  destruct (outputIt conn) as [it|] eqn:Hit.
  - inversion H; subst; clear H. simpl. split.
    + apply next_lawful; [exact Hrt|].
      intros E. exfalso. exact (Hy it Hit E).
    + intros it' Hit'. simpl in Hit'. inversion Hit'; subst; clear Hit'.
      simpl. apply next_state_before_trailer. exact (Hy it Hit).
  - destruct (universalResponsePromise conn) as [|uRes|e];
      [discriminate| |].
    + unfold read_init in H.
      destruct (validateResponseWithCompression imports (useBinaryFormat opt)
                  (acceptCompression opt) (cres_status uRes)
                  (cres_header uRes)) as [[compression foundStatus]|e].
      * inversion H; subst; clear H. simpl. split.
        -- apply next_lawful; [exact Hrt|]. simpl. discriminate.
        -- intros it' Hit'. simpl in Hit'.
           inversion Hit'; subst; clear Hit'. simpl.
           apply next_state_before_trailer. simpl. discriminate.
      * inversion H; subst; clear H. simpl. split; [exact Hrt|].
        intros it' Hit'. simpl in Hit'. rewrite Hit in Hit'.
        discriminate.
    + inversion H; subst; clear H. split; [exact Hrt|exact Hy].
Qed.

Lemma reactions_lawful (rs : list Reaction) :
  forall s : Run I O PlainI AbortSignal,
    lawful_trailer imports (responseTrailer (run_conn s)) ->
    yields_before_trailer (run_conn s) ->
    let s' := fold_left (run_reaction imports opt) rs s in
    lawful_trailer imports (responseTrailer (run_conn s'))
    /\ yields_before_trailer (run_conn s').
Proof.
  induction rs as [|r rs IH]; intros s Hrt Hy; simpl.
  - auto.
  - destruct r; simpl.
    + apply IH; simpl; assumption.
    + destruct (read imports opt (run_conn s)) as [[conn' res]|] eqn:Hread.
      * destruct (read_lawful _ _ _ Hread Hrt Hy) as [H1 H2].
        apply IH; simpl; assumption.
      * apply IH; assumption.
Qed.

Lemma execs_lawful (evs : list (Event I PlainI)) :
  forall s s' : Run I O PlainI AbortSignal,
    lawful_trailer imports (responseTrailer (run_conn s)) ->
    yields_before_trailer (run_conn s) ->
    execs imports opt s evs = Some s' ->
    lawful_trailer imports (responseTrailer (run_conn s')).
Proof.
  induction evs as [|ev evs IH]; intros s s' Hrt Hy Hex; simpl in Hex.
  - inversion Hex; subst. exact Hrt.
  - destruct (exec imports opt s ev) as [s1|] eqn:E; [|discriminate].
    assert (H1 : lawful_trailer imports (responseTrailer (run_conn s1))
                 /\ yields_before_trailer (run_conn s1)).
    { destruct ev as [uRes| |m|]; simpl in E.
      - destruct (universalResponsePromise (run_conn s));
          try discriminate E.
        inversion E; subst; clear E.
        apply reactions_lawful; simpl; assumption.
      - destruct (has_suspended_read (reactions (run_conn s)));
          [discriminate|].
        destruct (read imports opt (run_conn s)) as [[conn' res]|] eqn:Hread;
          inversion E; subst; clear E; simpl.
        + exact (read_lawful _ _ _ Hread Hrt Hy).
        + split; assumption.
      - destruct (writable_closed (run_conn s)); [discriminate|].
        inversion E; subst; clear E. split; assumption.
      - inversion E; subst; clear E. split; assumption. }
    destruct H1 as [Hrt1 Hy1]. exact (IH s1 s' Hrt1 Hy1 Hex).
Qed.

(** X13.  Whatever happens on a streaming call, [responseTrailer] is
    pending, or fulfilled with a trailer that passed the trailer
    validation, or rejected with "received extra trailer" or with
    "missing trailer"; it is never rejected with the error of a status,
    with a failure of the body or of the request, or with "received
    extra message after trailer". *)
Theorem responseTrailer_outcomes
    (serialization : MethodSerializationLookup I O)
    (req : StreamingRequest I PlainI AbortSignal)
    (conn : StreamingConn I O PlainI AbortSignal)
    (evs : list (Event I PlainI)) (s : Run I O PlainI AbortSignal) :
  stream_next serialization req = Return conn ->
  execs imports opt (mkRun conn []) evs = Some s ->
  lawful_trailer imports (responseTrailer (run_conn s)).
Proof.
  intros Hnew Hex.
  apply (execs_lawful evs (mkRun conn []) s); [| |exact Hex];
    inversion Hnew; subst; simpl.
  - left. reflexivity.
  - intros it H. discriminate H.
Qed.

End TrailerOutcomes.

(** ** The promises of the response, job by job *)

Section LoopOutcomes.

Context {I O PlainI : Type}.
Context {BinaryOptions JsonOptions AbortSignal NodeHttpOptions : Type}.
Variable imports :
  Imports I O PlainI BinaryOptions JsonOptions AbortSignal NodeHttpOptions.
Variable opt : NodeTransportOptions AbortSignal.

(** Job by job as well, no [read()] settles before [responseHeader]
    has, and the reads of a failed request all throw its failure. *)
Lemma steps_header_before_reads
    (serialization : MethodSerializationLookup I O)
    (req : StreamingRequest I PlainI AbortSignal)
    (conn : StreamingConn I O PlainI AbortSignal)
    (sts : list (Step I PlainI)) (l : Loop I O PlainI AbortSignal) :
  stream_next serialization req = Return conn ->
  steps imports opt (mkLoop (mkRun conn []) []) sts = Some l ->
  (run_reads (loop_run l) <> [] ->
   responseHeader (run_conn (loop_run l)) <> Pending)
  /\ (forall v,
        In (Return v) (run_reads (loop_run l)) ->
        exists uRes,
          universalResponsePromise (run_conn (loop_run l)) = Fulfilled uRes
          /\ responseHeader (run_conn (loop_run l))
             = Fulfilled (cres_header uRes))
  /\ (forall e,
        universalResponsePromise (run_conn (loop_run l)) = Rejected e ->
        Forall (fun r => r = Throw e) (run_reads (loop_run l))).
Proof.
  intros Hnew Hsteps.
  pose proof (steps_invariant imports opt sts _ _
                (stream_next_loop_invariant imports opt serialization req
                   conn Hnew) Hsteps) as [_ Hinv].
  destruct (universalResponsePromise (run_conn (loop_run l)))
    as [|u|e] eqn:Hp.
  - destruct Hinv as (_ & Hr & _). rewrite Hr.
    split; [congruence|]. split; [intros v []|discriminate].
  - destruct Hinv as (_ & _ & [(_ & _ & _ & Hr & _)|[Hh _]]).
    + rewrite Hr. split; [congruence|]. split; [intros v []|discriminate].
    + rewrite Hh. split; [discriminate|]. split; [|discriminate].
      intros v _. exists u. auto.
  - destruct Hinv as (_ & _ & _ & Hall & Hh).
    split; [|split].
    + destruct Hh as [(_ & Hr & _)|[Hh _]]; [congruence|].
      rewrite Hh. discriminate.
    + intros v Hin. rewrite Forall_forall in Hall.
      specialize (Hall _ Hin). discriminate Hall.
    + intros e' He'. inversion He'; subst. exact Hall.
Qed.

(** What follows the [await] of a resumed [read()] keeps
    [responseTrailer] lawful, whether or not an iterator exists. *)
Lemma read_init_lawful (conn : StreamingConn I O PlainI AbortSignal)
    (u : Outcome UniversalClientResponse) :
  lawful_trailer imports (responseTrailer conn) ->
  yields_before_trailer conn ->
  lawful_trailer imports
    (responseTrailer (fst (read_init imports opt conn u)))
  /\ yields_before_trailer (fst (read_init imports opt conn u)).
Proof.
  intros Hrt Hy. unfold read_init.
  destruct u as [uRes|e]; [|split; assumption].
  destruct (validateResponseWithCompression imports (useBinaryFormat opt)
              (acceptCompression opt) (cres_status uRes)
              (cres_header uRes)) as [[compression foundStatus]|e].
  - simpl. split.
    + apply next_lawful; [exact Hrt|]. simpl. discriminate.
    + intros it' Hit'. simpl in Hit'.
      inversion Hit'; subst; clear Hit'. simpl.
      apply next_state_before_trailer. simpl. discriminate.
  - simpl. split; [exact Hrt|]. intros it' Hit'. exact (Hy it' Hit').
Qed.

Lemma step_lawful (l l' : Loop I O PlainI AbortSignal)
    (st : Step I PlainI) :
  lawful_trailer imports (responseTrailer (run_conn (loop_run l))) ->
  yields_before_trailer (run_conn (loop_run l)) ->
  step imports opt l st = Some l' ->
  lawful_trailer imports (responseTrailer (run_conn (loop_run l')))
  /\ yields_before_trailer (run_conn (loop_run l')).
Proof.
  destruct l as [[conn reads] jobs]. unfold step.
  cbn [loop_run loop_jobs run_conn run_reads].
  intros Hrt Hy Hstep.
  destruct st as [[uRes| |m|]|].
  - destruct (universalResponsePromise conn); try discriminate.
    inversion Hstep; subst; clear Hstep. split; assumption.
  - destruct (outputIt conn) as [it|] eqn:Hit.
    + inversion Hstep; subst; clear Hstep.
      cbn [loop_run run_conn].
      apply (read_lawful imports opt conn _
               (snd (read_next imports conn it))); [|exact Hrt|exact Hy].
      unfold read. rewrite Hit. reflexivity.
    + destruct (universalResponsePromise conn);
        inversion Hstep; subst; clear Hstep; split; assumption.
  - inversion Hstep; subst; clear Hstep. split; assumption.
  - inversion Hstep; subst; clear Hstep. split; assumption.
  - destruct jobs as [|r rest]; inversion Hstep; subst; clear Hstep;
      cbn [loop_run run_conn]; [split; assumption|].
    destruct r; [split; assumption|].
    unfold resume. cbn [run_conn run_reads].
    destruct (universalResponsePromise conn) as [|u|e];
      [split; assumption| |]; cbn [run_conn];
      apply read_init_lawful; assumption.
Qed.

(** Job by job as well, [responseTrailer] is only ever pending,
    fulfilled with a trailer that passed the trailer validation, or
    rejected with one of the two protocol errors. *)
Lemma steps_lawful (sts : list (Step I PlainI)) :
  forall l l' : Loop I O PlainI AbortSignal,
    lawful_trailer imports (responseTrailer (run_conn (loop_run l))) ->
    yields_before_trailer (run_conn (loop_run l)) ->
    steps imports opt l sts = Some l' ->
    lawful_trailer imports (responseTrailer (run_conn (loop_run l'))).
Proof.
  induction sts as [|st sts IH]; intros l l' Hrt Hy Hsteps;
    simpl in Hsteps.
  - inversion Hsteps; subst. exact Hrt.
  - destruct (step imports opt l st) as [l1|] eqn:E; [|discriminate].
    destruct (step_lawful l l1 st Hrt Hy E) as [Hrt1 Hy1].
    exact (IH l1 l' Hrt1 Hy1 Hsteps).
Qed.

End LoopOutcomes.

(** ** The worked instance, continued *)

Module ScenarioFacts.

Import Fixture Scenarios.

Lemma read_results_shape_witness :
  exists conn' vs tail,
    reads imports (opt (Return two_messages)) 5 (reading two_messages)
    = Some (conn', map (fun v => Return (ReadValue v)) vs ++ tail)
    /\ (exists rest,
          leading_messages
            (chunks (gen_iterable (first_iterator two_messages)))
          = vs ++ rest)
    /\ (tail = []
        \/ exists r,
             tail = r :: repeat (Return ReadDone) (List.length tail - 1)
             /\ is_value r = false).
Proof.
  exact (read_results_shape imports (opt (Return two_messages)) 5
           (reading two_messages) (first_iterator two_messages) eq_refl).
Defined.

Lemma stream_messages_then_trailer_witness :
  exists conn',
    reads imports (opt (Return two_messages))
      (List.length [{| x := 7 |}; {| x := 8 |}] + (1 + 2))
      (answered two_messages)
    = Some (conn',
            map (fun m => Return (ReadValue m)) [{| x := 7 |}; {| x := 8 |}]
            ++ repeat (Return ReadDone) (1 + 2))
    /\ responseTrailer conn' = Fulfilled ok_trailer
    /\ validations conn' = S (validations (answered two_messages)).
Proof.
  exact (stream_messages_then_trailer imports (opt (Return two_messages))
           (answered two_messages) two_messages None
           [{| x := 7 |}; {| x := 8 |}] ok_trailer 2
           eq_refl eq_refl eq_refl eq_refl eq_refl eq_refl).
Defined.

Lemma stream_body_failure_witness :
  exists conn',
    reads imports (opt (Return truncated_stream))
      (List.length [{| x := 7 |}] + (1 + 1)) (answered truncated_stream)
    = Some (conn',
            map (fun m => Return (ReadValue m)) [{| x := 7 |}]
            ++ Throw premature_end :: repeat (Return ReadDone) 1)
    /\ responseTrailer conn' = Pending.
Proof.
  apply (stream_body_failure imports (opt (Return truncated_stream))
           (answered truncated_stream) truncated_stream None
           [{| x := 7 |}] None premature_end 1);
    try reflexivity.
  intros t H. discriminate H.
Defined.


Lemma reads_after_validation_failure_witness :
  exists conn',
    reads imports (opt (Return server_error)) 3 (answered server_error)
    = Some (conn', repeat (Throw http_error) 3)
    /\ outputIt conn' = None
    /\ validations conn' = 3 + validations (answered server_error)
    /\ responseTrailer conn' = responseTrailer (answered server_error)
    /\ responseHeader conn' = responseHeader (answered server_error).
Proof.
  exact (reads_after_validation_failure imports (opt (Return server_error))
           server_error http_error 3 (answered server_error)
           eq_refl eq_refl eq_refl).
Defined.

Lemma unary_status_before_missing_message_witness :
  call (Return only_bad_trailer) (Plain None) = Throw rate_limited.
Proof.
  exact (unary_status_before_missing_message imports
           (opt (Return only_bad_trailer)) service method lookup
           (unary_request imports (options (Return only_bad_trailer))
              (opt (Return only_bad_trailer)) service method None None None
              (Plain None))
           only_bad_trailer None false [EnvEnd resource_exhausted]
           resource_exhausted rate_limited
           eq_refl eq_refl eq_refl eq_refl (le_S 0 0 (le_n 0)) eq_refl).
Defined.

Lemma unary_failure_precedence_witness :
  call (Return truncated_unary) (Plain None) = Throw premature_end.
Proof.
  destruct (unary_failure_precedence imports (opt (Return truncated_unary))
              service method lookup
              (unary_request imports (options (Return truncated_unary))
                 (opt (Return truncated_unary)) service method None None
                 None (Plain None))
              premature_end) as (_ & _ & Hbody).
  exact (Hbody truncated_unary None false
           [EnvMessage {| x := 7 |}; EnvEnd ok_trailer]
           eq_refl eq_refl eq_refl (le_n 1) (le_n 1)).
Defined.


Lemma responseTrailer_outcomes_witness :
  lawful_trailer imports
    (responseTrailer
       (run_conn (final (Return two_trailers) [] [CallRead; CallRead]))).
Proof.
  refine (responseTrailer_outcomes imports (opt (Return two_trailers))
            lookup
            (stream_request imports (options (Return two_trailers))
               (opt (Return two_trailers)) service method None None None)
            (fresh (Return two_trailers))
            [HttpSettles (Return two_trailers); CallRead; CallRead]
            (final (Return two_trailers) [] [CallRead; CallRead]) _ _).
  - reflexivity.
  - vm_compute. reflexivity.
Defined.

(** The report with a builder that returns one file per build, and
    with one that splits a bundle. *)
Example report_with_one_file_each :
  exists text,
    Bench.report one_file halve thousands = Bench.Normal text
    /\ Bench.gather one_file halve thousands "src/entry-grpcweb.ts"
       = Bench.Normal {| Bench.entryPoint := "src/entry-grpcweb.ts";
                         Bench.size := "2,000 b";
                         Bench.minified := "1,000 b";
                         Bench.compressed := "500 b" |}.
Proof. eexists. split; reflexivity. Qed.

Example report_with_split_bundle :
  Bench.report splits_grpcweb halve thousands
  = Bench.Abrupt {| Bench.error_message := "" |}.
Proof. reflexivity. Qed.

End ScenarioFacts.
